(** * Pyjion: abstract interpreter state, IL generator and module resolution

    A shallow embedding of [Pyjion/absint.h] and [Pyjion/ilgen.h].

    - An assertion ([assert], [_ASSERTE]) that does not hold ends the
      operation with [AssertionFailed]; code under [#if _DEBUG] is present
      or not according to an explicit flag.  Reads and writes outside a
      vector, and a dereferenced null pointer, are undefined behaviour.
    - [int] is a 32-bit two's complement integer, carried as a [Z] with the
      casts written out; a [BYTE] is a [Z] in [0, 256).
    - [std::vector] and [simple_vector] are lists in index order; [back()]
      is the last element.
    - Hash maps are [gmap]s, sets are [gset]s. *)

From stdpp Require Import gmap list.
From Stdlib Require Import ZArith Lia.

Local Open Scope Z_scope.
Local Open Scope nat_scope.

(** ** Outcomes of an operation *)

Inductive outcome (A : Type) : Type :=
  | Done (a : A)
  | AssertionFailed
  | UndefinedBehaviour.
Arguments Done {A} a.
Arguments AssertionFailed {A}.
Arguments UndefinedBehaviour {A}.

#[global] Instance outcome_ret : MRet outcome := fun A a => Done a.
#[global] Instance outcome_bind : MBind outcome := fun A B f m =>
  match m with
  | Done a => f a
  | AssertionFailed => AssertionFailed
  | UndefinedBehaviour => UndefinedBehaviour
  end.

(** [assert(c)]: continue when [c] holds, fail the assertion otherwise. *)
Definition assert (c : bool) : outcome unit :=
  if c then Done tt else AssertionFailed.

(** A checked access [v[i]]: outside the vector the behaviour is undefined. *)
Definition at_index {A} (v : list A) (i : nat) : outcome A :=
  match v !! i with
  | Some x => Done x
  | None => UndefinedBehaviour
  end.

(** ** The value domain (absvalue.h) *)

(** Modelled from the spec: the closed enumeration of abstract value kinds
    declared in absvalue.h, which is not among the sources.  The kinds are
    the ones section 3 names; [Object] is the generic kind. *)
Inductive AbstractValueKind : Set :=
  | Undefined | Bool | Int | Float | Bytes | Sequence | Object.

#[global] Instance AbstractValueKind_eq_dec : EqDecision AbstractValueKind.
Proof. solve_decision. Defined.

(** Modelled from the spec: the merge of two kinds (absvalue.h), section 4.2:
    an Undefined side yields the other side; equal kinds are kept; two
    different defined kinds widen to [Object]. *)
Definition merge_kind (a b : AbstractValueKind) : AbstractValueKind :=
  match a, b with
  | Undefined, _ => b
  | _, Undefined => a
  | _, _ => if decide (a = b) then a else Object
  end.

(** Modelled from the spec: provenance tags (absvalue.h).  The three forms
    are the ones [AbstractInterpreter::add_local_source],
    [add_const_source] and [add_intermediate_source] take arguments for. *)
Inductive AbstractSource : Set :=
  | LocalSource (opcodeIndex localIndex : nat)
  | ConstSource (opcodeIndex constIndex : nat)
  | IntermediateSource (opcodeIndex : nat).

#[global] Instance AbstractSource_eq_dec : EqDecision AbstractSource.
Proof. solve_decision. Defined.

Definition AbstractSource_code (s : AbstractSource) : nat * nat + nat * nat + nat :=
  match s with
  | LocalSource o l => inl (inl (o, l))
  | ConstSource o c => inl (inr (o, c))
  | IntermediateSource o => inr o
  end.

Definition AbstractSource_decode (c : nat * nat + nat * nat + nat) : AbstractSource :=
  match c with
  | inl (inl (o, l)) => LocalSource o l
  | inl (inr (o, c)) => ConstSource o c
  | inr o => IntermediateSource o
  end.

#[global] Instance AbstractSource_countable : Countable AbstractSource.
Proof.
  apply (inj_countable' AbstractSource_code AbstractSource_decode).
  by intros [].
Defined.

(** An [AbstractValue*]: a pointer to one of the interned kinds, or null. *)
Definition AbstractValuePtr : Set := option AbstractValueKind.

(** Modelled from the spec: [AbstractValueWithSources] (absvalue.h), an
    abstract value paired with the set of its sources. *)
Record AbstractValueWithSources : Type := mkAVWS {
  Value : AbstractValuePtr;
  Sources : gset AbstractSource
}.

#[global] Instance AbstractValueWithSources_eq_dec : EqDecision AbstractValueWithSources.
Proof. solve_decision. Defined.

(** Modelled from the spec: the default [AbstractValueWithSources()]
    (absvalue.h).  Locals start out with "a special typeof Undefined ... to
    avoid having null types" (absint.h, comment before [AbstractLocalInfo]). *)
Definition AbstractValueWithSources_default : AbstractValueWithSources :=
  mkAVWS (Some Undefined) ∅.

(** Modelled from the spec: [AbstractValueWithSources::merge_with]
    (absvalue.h), section 4.2: kinds merge, source sets union.  A null
    operand has no kind to merge. *)
Definition AVWS_merge_with (this other : AbstractValueWithSources)
  : outcome AbstractValueWithSources :=
  match Value this, Value other with
  | Some a, Some b =>
      Done (mkAVWS (Some (merge_kind a b)) (Sources this ∪ Sources other))
  | _, _ => UndefinedBehaviour
  end.

(** Modelled from the spec: the escape marks of absvalue.h.  A mark sits on
    a source, so every copy of a value that carries the source sees it; the
    store is the set of marked sources. *)
Definition EscapeStore : Type := gset AbstractSource.

(** Modelled from the spec: [AbstractValueWithSources::escapes]
    (absvalue.h): marking a value as escaped records it on its sources. *)
Definition escapes (v : AbstractValueWithSources) (e : EscapeStore) : EscapeStore :=
  Sources v ∪ e.

(** ** AbstractLocalInfo (absint.h) *)

Record AbstractLocalInfo : Type := mkALI {
  ValueInfo : AbstractValueWithSources;
  IsMaybeUndefined : bool
}.

#[global] Instance AbstractLocalInfo_eq_dec : EqDecision AbstractLocalInfo.
Proof. solve_decision. Defined.

(** [AbstractLocalInfo()] *)
Definition AbstractLocalInfo_default : AbstractLocalInfo :=
  mkALI AbstractValueWithSources_default true.

(** [AbstractLocalInfo(valueInfo, isUndefined)] with its two assertions. *)
Definition AbstractLocalInfo_new (valueInfo : AbstractValueWithSources)
    (isUndefined : bool) : outcome AbstractLocalInfo :=
  _ ← assert (bool_decide (Value valueInfo ≠ None));
  _ ← assert (negb (bool_decide (Value valueInfo = Some Undefined) && negb isUndefined));
  mret (mkALI valueInfo isUndefined).

(** [AbstractLocalInfo::merge_with] *)
Definition merge_with (this other : AbstractLocalInfo) : outcome AbstractLocalInfo :=
  v ← AVWS_merge_with (ValueInfo this) (ValueInfo other);
  AbstractLocalInfo_new v (IsMaybeUndefined this || IsMaybeUndefined other).

(** [operator==] and [operator!=] of [AbstractLocalInfo]. *)
Definition ALI_eqb (this other : AbstractLocalInfo) : bool :=
  bool_decide (ValueInfo other = ValueInfo this)
  && bool_decide (IsMaybeUndefined other = IsMaybeUndefined this).
Definition ALI_neqb (this other : AbstractLocalInfo) : bool :=
  bool_decide (ValueInfo other ≠ ValueInfo this)
  || bool_decide (IsMaybeUndefined other ≠ IsMaybeUndefined this).

(** The kind a local's value points to. *)
Definition kind_of (a : AbstractLocalInfo) : AbstractValuePtr := Value (ValueInfo a).

(** State 4 of the comment before [AbstractLocalInfo]: Undefined type,
    definitely assigned. *)
Definition state4 (a : AbstractLocalInfo) : Prop :=
  kind_of a = Some Undefined ∧ IsMaybeUndefined a = false.

(** What the two assertions of the checked constructor establish. *)
Definition local_invariant (a : AbstractLocalInfo) : Prop :=
  kind_of a ≠ None ∧ ¬ state4 a.

(** The values the code of absint.h can build: by either constructor
    (merge_with returns through the checked one). *)
Inductive constructed : AbstractLocalInfo → Prop :=
  | constructed_default : constructed AbstractLocalInfo_default
  | constructed_new v u a :
      AbstractLocalInfo_new v u = Done a → constructed a.

(** ** Copy-on-write vector (cowvector.h) *)

(** Modelled from the spec: the reference-counted backing store of a
    [CowVector] (cowvector.h), section 4.1.  A vector is a reference to a
    backing store; the heap maps the address of each live store to its
    reference count and its items. *)
Record CowStore (T : Type) : Type := mkCowStore {
  refcount : nat;
  items : list T
}.
Arguments mkCowStore {T} refcount items.
Arguments refcount {T} c.
Arguments items {T} c.

Abbreviation CowHeap T := (gmap nat (CowStore T)).

(** Modelled from the spec: a [CowVector] is the address of its store. *)
Definition CowVector : Set := nat.

(** Modelled from the spec: [CowVector(size)] allocates a backing store of
    [size] default-constructed items, referenced once. *)
Definition CowVector_new {T} (dflt : T) (size : nat) (h : CowHeap T)
  : CowHeap T * CowVector :=
  let a := fresh (dom h) in
  (<[a := mkCowStore 1 (replicate size dflt)]> h, a).

(** Modelled from the spec: logical copy creates a second reference to the
    same backing store. *)
Definition CowVector_copy {T} (v : CowVector) (h : CowHeap T)
  : CowHeap T * CowVector :=
  (alter (λ st, mkCowStore (S (refcount st)) (items st)) v h, v).

(** Modelled from the spec: [size()] and indexed read; neither allocates. *)
Definition CowVector_size {T} (v : CowVector) (h : CowHeap T) : outcome nat :=
  match h !! v with
  | Some st => Done (length (items st))
  | None => UndefinedBehaviour
  end.

(** Modelled from the spec: [operator[]] of [CowVector]. *)
Definition CowVector_get {T} (v : CowVector) (index : nat) (h : CowHeap T)
  : outcome T :=
  match h !! v with
  | Some st => at_index (items st) index
  | None => UndefinedBehaviour
  end.

(** Modelled from the spec: [replace(i, value)] "checks whether the backing
    store's reference count is 1; if so it mutates in place, otherwise it
    allocates a private copy of the backing store first, decrements the old
    reference, and mutates the private copy". *)
Definition CowVector_replace {T} (v : CowVector) (index : nat) (value : T)
    (h : CowHeap T) : outcome (CowHeap T * CowVector) :=
  match h !! v with
  | None => UndefinedBehaviour
  | Some st =>
      if decide (refcount st = 1) then
        if decide (index < length (items st)) then
          Done (<[v := mkCowStore 1 (<[index := value]> (items st))]> h, v)
        else UndefinedBehaviour
      else
        let a := fresh (dom h) in
        let h1 := <[a := mkCowStore 1 (items st)]> h in
        let h2 := <[v := mkCowStore (pred (refcount st)) (items st)]> h1 in
        if decide (index < length (items st)) then
          Done (<[a := mkCowStore 1 (<[index := value]> (items st))]> h2, a)
        else UndefinedBehaviour
  end.

(** ** InterpreterState (absint.h) *)

Record InterpreterState : Type := mkState {
  m_stack : list AbstractValueWithSources;
  m_locals : CowVector
}.

Abbreviation LocalsHeap := (gmap nat (CowStore AbstractLocalInfo)).

(** [InterpreterState(numLocals)] *)
Definition InterpreterState_new (numLocals : nat) (h : LocalsHeap)
  : LocalsHeap * InterpreterState :=
  let '(h', v) := CowVector_new AbstractLocalInfo_default numLocals h in
  (h', mkState [] v).

(** The implicit copy constructor: the stack is copied, the locals are
    shared. *)
Definition InterpreterState_copy (s : InterpreterState) (h : LocalsHeap)
  : LocalsHeap * InterpreterState :=
  let '(h', v) := CowVector_copy (m_locals s) h in
  (h', mkState (m_stack s) v).

Definition get_local (s : InterpreterState) (index : nat) (h : LocalsHeap)
  : outcome AbstractLocalInfo :=
  CowVector_get (m_locals s) index h.

Definition local_count (s : InterpreterState) (h : LocalsHeap) : outcome nat :=
  CowVector_size (m_locals s) h.

Definition replace_local (s : InterpreterState) (index : nat)
    (value : AbstractLocalInfo) (h : LocalsHeap)
  : outcome (LocalsHeap * InterpreterState) :=
  '(h', v) ← CowVector_replace (m_locals s) index value h;
  mret (h', mkState (m_stack s) v).

(** [m_stack.back()]: undefined on an empty vector. *)
Definition back {A} (v : list A) : outcome A :=
  match last v with
  | Some x => Done x
  | None => UndefinedBehaviour
  end.

(** [pop()]: the result is the popped value's [Value] pointer, the state
    without its top element, and the escape store after [res.escapes()]. *)
Definition pop (s : InterpreterState) (e : EscapeStore)
  : outcome (AbstractValuePtr * InterpreterState * EscapeStore) :=
  res ← back (m_stack s);
  let e' := escapes res e in
  mret (Value res, mkState (removelast (m_stack s)) (m_locals s), e').

Definition pop_no_escape (s : InterpreterState)
  : outcome (AbstractValueWithSources * InterpreterState) :=
  res ← back (m_stack s);
  mret (res, mkState (removelast (m_stack s)) (m_locals s)).

Definition push (s : InterpreterState) (value : AbstractValueWithSources)
  : InterpreterState :=
  mkState (m_stack s ++ [value]) (m_locals s).

(** [push] of an [AbstractValue] pointer: the value converts to one without
    sources. *)
Definition push_value (s : InterpreterState) (value : AbstractValuePtr)
  : InterpreterState :=
  push s (mkAVWS value ∅).

Definition stack_size (s : InterpreterState) : nat := length (m_stack s).

(** [operator[]] *)
Definition stack_at (s : InterpreterState) (index : nat)
  : outcome AbstractValueWithSources :=
  at_index (m_stack s) index.

(** ** Machine integers *)

(** A value converted to [int] (32 bits, two's complement). *)
Definition to_int (z : Z) : Z := ((z + 2147483648) mod 4294967296 - 2147483648)%Z.

(** A value converted to [char] (8 bits, signed). *)
Definition to_char (z : Z) : Z := ((z + 128) mod 256 - 128)%Z.

(** A value converted to [BYTE]. *)
Definition to_byte (z : Z) : Z := (z mod 256)%Z.

(** [v[i]] for an [int] index: a negative index converts to a [size_t]
    past any vector. *)
Definition at_int {A} (v : list A) (i : Z) : outcome A :=
  if decide (i < 0)%Z then UndefinedBehaviour else at_index v (Z.to_nat i).

(** [v[i] = x] for an [int] index. *)
Definition store_int {A} (v : list A) (i : Z) (x : A) : outcome (list A) :=
  if decide (0 ≤ i < Z.of_nat (length v))%Z
  then Done (<[Z.to_nat i := x]> v)
  else UndefinedBehaviour.

(** ** ILGenerator (ilgen.h) *)

(** [Parameter] (here [Param]), [Local] and [Label] are declared in ipycomp.h; the fields
    are the ones ilgen.h reads. *)
Record Param : Set := mkParam { m_type : nat }.
Record Local : Set := mkLocal { m_index : Z }.
Record Label : Set := mkLabel { label_index : Z }.

#[global] Instance Local_eq_dec : EqDecision Local.
Proof. solve_decision. Defined.

Record LabelInfo : Set := mkLabelInfo {
  m_location : Z;
  m_branchOffsets : list Z
}.

(** [LabelInfo()] *)
Definition LabelInfo_new : LabelInfo := mkLabelInfo (-1) [].

Record ILGenerator : Set := mkILGenerator {
  gen_locals : list Param;            (* m_locals *)
  m_freedLocals : list (list Local);      (* one list per CorInfoType *)
  m_il : list Z;
  m_localCount : Z;
  m_labels : list LabelInfo
}.

(** [ILGenerator(method)]; [CORINFO_TYPE_COUNT] comes from the JIT
    interface headers. *)
Definition ILGenerator_new (CORINFO_TYPE_COUNT : nat) : ILGenerator :=
  mkILGenerator [] (replicate CORINFO_TYPE_COUNT []) [] 0 [].

Definition define_local_no_cache (param : Param) (g : ILGenerator)
  : outcome (Local * ILGenerator) :=
  if decide (m_localCount g = 2147483647)%Z then UndefinedBehaviour
  else
    Done (mkLocal (m_localCount g),
          mkILGenerator (gen_locals g ++ [param]) (m_freedLocals g) (m_il g)
                        (m_localCount g + 1)%Z (m_labels g)).

Definition define_local (param : Param) (g : ILGenerator)
  : outcome (Local * ILGenerator) :=
  existing ← at_index (m_freedLocals g) (m_type param);
  if decide (length existing ≠ 0) then
    res ← at_index existing (length existing - 1);
    mret (res,
          mkILGenerator (gen_locals g)
                        (<[m_type param := removelast existing]> (m_freedLocals g))
                        (m_il g) (m_localCount g) (m_labels g))
  else define_local_no_cache param g.

(** The loop of [free_local] that is compiled under [#if _DEBUG]. *)
Fixpoint check_not_freed (localList : list Local) (local : Local) : outcome unit :=
  match localList with
  | [] => Done tt
  | l :: rest =>
      _ ← assert (negb (bool_decide (m_index l = m_index local)));
      check_not_freed rest local
  end.

(** [free_local]; [DEBUG] tells whether [_DEBUG] is defined. *)
Definition free_local (DEBUG : bool) (local : Local) (g : ILGenerator)
  : outcome ILGenerator :=
  param ← at_int (gen_locals g) (m_index local);
  localList ← at_index (m_freedLocals g) (m_type param);
  _ ← (if DEBUG then check_not_freed localList local else Done tt);
  mret (mkILGenerator (gen_locals g)
          (<[m_type param := localList ++ [local]]> (m_freedLocals g))
          (m_il g) (m_localCount g) (m_labels g)).

Definition define_label (g : ILGenerator) : Label * ILGenerator :=
  let labels := m_labels g ++ [LabelInfo_new] in
  (mkLabel (to_int (Z.of_nat (length labels)) - 1)%Z,
   mkILGenerator (gen_locals g) (m_freedLocals g) (m_il g) (m_localCount g) labels).

(** The four bytes [emit_int] and [mark_label] write for an [int]. *)
Definition int_bytes (value : Z) : list Z :=
  [ Z.land value 255;
    Z.land (Z.shiftr value 8) 255;
    Z.land (Z.shiftr value 16) 255;
    Z.land (Z.shiftr value 24) 255 ].

(** The number a sequence of bytes stands for, lowest byte first. *)
Definition le_value (bytes : list Z) : Z :=
  foldr (λ b acc, b + 256 * acc)%Z 0%Z bytes.

(** One iteration of the loop of [mark_label]. *)
Definition patch_branch (location : Z) (il : list Z) (from : Z) : outcome (list Z) :=
  let offset := to_int (location - to_int (from + 4))%Z in
  il ← store_int il from (Z.land offset 255);
  il ← store_int il (from + 1)%Z (Z.land (Z.shiftr offset 8) 255);
  il ← store_int il (from + 2)%Z (Z.land (Z.shiftr offset 16) 255);
  store_int il (from + 3)%Z (Z.land (Z.shiftr offset 24) 255).

Fixpoint patch_branches (location : Z) (il : list Z) (offsets : list Z)
  : outcome (list Z) :=
  match offsets with
  | [] => Done il
  | from :: rest =>
      il ← patch_branch location il from;
      patch_branches location il rest
  end.

Definition mark_label (label : Label) (g : ILGenerator) : outcome ILGenerator :=
  info ← at_int (m_labels g) (label_index label);
  _ ← assert (bool_decide (m_location info = -1)%Z);
  let location := to_int (Z.of_nat (length (m_il g))) in
  il ← patch_branches location (m_il g) (m_branchOffsets info);
  mret (mkILGenerator (gen_locals g) (m_freedLocals g) il (m_localCount g)
          (<[Z.to_nat (label_index label) :=
               mkLabelInfo location (m_branchOffsets info)]> (m_labels g))).

(** [BranchType] is declared in ipycomp.h; these are the cases the two
    switches of [branch] handle. *)
Inductive BranchType : Set :=
  | BranchLeave | BranchAlways | BranchTrue | BranchFalse
  | BranchEqual | BranchNotEqual.

(** The IL opcodes [branch] emits; their byte values come from the CLR's
    openum.h and are a parameter of the generator. *)
Inductive OPCODE : Set :=
  | CEE_LEAVE_S | CEE_BR_S | CEE_BRTRUE_S | CEE_BRFALSE_S | CEE_BEQ_S | CEE_BNE_UN_S
  | CEE_LEAVE | CEE_BR | CEE_BRTRUE | CEE_BRFALSE | CEE_BEQ | CEE_BNE_UN.

Definition short_branch (branchType : BranchType) : OPCODE :=
  match branchType with
  | BranchLeave => CEE_LEAVE_S
  | BranchAlways => CEE_BR_S
  | BranchTrue => CEE_BRTRUE_S
  | BranchFalse => CEE_BRFALSE_S
  | BranchEqual => CEE_BEQ_S
  | BranchNotEqual => CEE_BNE_UN_S
  end.

Definition long_branch (branchType : BranchType) : OPCODE :=
  match branchType with
  | BranchLeave => CEE_LEAVE
  | BranchAlways => CEE_BR
  | BranchTrue => CEE_BRTRUE
  | BranchFalse => CEE_BRFALSE
  | BranchEqual => CEE_BEQ
  | BranchNotEqual => CEE_BNE_UN
  end.

(** [m_il.push_back(b)] *)
Definition push_back (b : Z) (g : ILGenerator) : ILGenerator :=
  mkILGenerator (gen_locals g) (m_freedLocals g) (m_il g ++ [to_byte b])
                (m_localCount g) (m_labels g).

(** [emit_int(value)] *)
Definition emit_int (value : Z) (g : ILGenerator) : ILGenerator :=
  push_back (Z.land (Z.shiftr value 24) 255)
    (push_back (Z.land (Z.shiftr value 16) 255)
       (push_back (Z.land (Z.shiftr value 8) 255)
          (push_back (Z.land value 255) g))).

Section Branch.
Variable opcode_byte : OPCODE → Z.

(** [branch(BranchType, int offset)] *)
Definition branch_offset (branchType : BranchType) (offset : Z) (g : ILGenerator)
  : ILGenerator :=
  if ((to_int (offset - 2) <=? 128) && (to_int (offset - 2) >=? -127))%Z then
    push_back (to_char offset - 2)%Z
      (push_back (opcode_byte (short_branch branchType)) g)
  else
    emit_int (to_int (offset - 5))
      (push_back (opcode_byte (long_branch branchType)) g).

(** [branch(BranchType, Label)] *)
Definition branch (branchType : BranchType) (label : Label) (g : ILGenerator)
  : outcome ILGenerator :=
  info ← at_int (m_labels g) (label_index label);
  if decide (m_location info = -1)%Z then
    let info' := mkLabelInfo (m_location info)
                   (m_branchOffsets info
                      ++ [to_int (to_int (Z.of_nat (length (m_il g))) + 1)%Z]) in
    let g' := mkILGenerator (gen_locals g) (m_freedLocals g) (m_il g)
                (m_localCount g)
                (<[Z.to_nat (label_index label) := info']> (m_labels g)) in
    mret (branch_offset branchType 65535 g')
  else
    mret (branch_offset branchType
            (to_int (m_location info - Z.of_nat (length (m_il g)))) g).
End Branch.

(** The generator states a client can reach through the public interface.
    [reach_push_back] stands for the emitters that only append a byte. *)
Section Reachable.
Variable DEBUG : bool.
Variable opcode_byte : OPCODE → Z.

Inductive gen_step : ILGenerator → ILGenerator → Prop :=
  | step_define_local param g l g' :
      define_local param g = Done (l, g') → gen_step g g'
  | step_define_local_no_cache param g l g' :
      define_local_no_cache param g = Done (l, g') → gen_step g g'
  | step_free_local local g g' :
      free_local DEBUG local g = Done g' → gen_step g g'
  | step_define_label g :
      gen_step g (define_label g).2
  | step_mark_label label g g' :
      mark_label label g = Done g' → gen_step g g'
  | step_branch branchType label g g' :
      branch opcode_byte branchType label g = Done g' → gen_step g g'
  | step_branch_offset branchType offset g :
      gen_step g (branch_offset opcode_byte branchType offset g)
  | step_push_back b g :
      gen_step g (push_back b g).

Inductive reachable : ILGenerator → Prop :=
  | reach_new n : reachable (ILGenerator_new n)
  | reach_step g g' : reachable g → gen_step g g' → reachable g'.
End Reachable.

(** Each recorded branch site ends more than a byte before the next one
    starts. *)
Fixpoint spaced (offsets : list Z) : Prop :=
  match offsets with
  | [] => True
  | a :: rest => Forall (λ b, a + 4 < b)%Z rest ∧ spaced rest
  end.

(** The branch sites recorded for a label lie inside the IL, each one four
    bytes after an opcode byte, and do not overlap. *)
Definition sites_ok (offsets : list Z) (size : Z) : Prop :=
  Forall (λ from, 1 ≤ from ∧ from + 4 ≤ size)%Z offsets ∧ spaced offsets.

(** What is known of every label of a generator: its branch sites are in
    order, and its location is unset or a position of the IL. *)
Definition labels_ok (g : ILGenerator) : Prop :=
  Forall (λ info,
            sites_ok (m_branchOffsets info) (Z.of_nat (length (m_il g)))
            ∧ (m_location info = -1
               ∨ 0 ≤ m_location info ≤ Z.of_nat (length (m_il g))))%Z
         (m_labels g).

(** The four bytes of the IL at [from], [from + 1], [from + 2], [from + 3]. *)
Definition il_word (il : list Z) (from : Z) : list (option Z) :=
  (λ j, il !! (Z.to_nat from + j)) <$> [0; 1; 2; 3].


(** The IL after the loop body of [mark_label] ran for one branch site. *)
Definition patched (il : list Z) (from offset : Z) : list Z :=
  <[Z.to_nat (from + 3) := Z.land (Z.shiftr offset 24) 255]>
    (<[Z.to_nat (from + 2) := Z.land (Z.shiftr offset 16) 255]>
       (<[Z.to_nat (from + 1) := Z.land (Z.shiftr offset 8) 255]>
          (<[Z.to_nat from := Z.land offset 255]> il))).

(** No free list holds a local index twice. *)
Definition free_lists_nodup (g : ILGenerator) : Prop :=
  Forall (λ l, NoDup (m_index <$> l)) (m_freedLocals g).

(** The byte values ECMA-335 gives the branch opcodes, for concrete runs. *)
Definition ecma_opcode_byte (op : OPCODE) : Z :=
  match op with
  | CEE_BR_S => 43 | CEE_BRFALSE_S => 44 | CEE_BRTRUE_S => 45
  | CEE_BEQ_S => 46 | CEE_BNE_UN_S => 51
  | CEE_BR => 56 | CEE_BRFALSE => 57 | CEE_BRTRUE => 58
  | CEE_BEQ => 59 | CEE_BNE_UN => 64
  | CEE_LEAVE => 221 | CEE_LEAVE_S => 222
  end%Z.

(** A generator with one label that a branch already targets: the label
    is defined, [br] to it is emitted while it is unbound, and one more byte
    follows. *)
Definition generator_with_pending_branch : ILGenerator :=
  let g1 := (define_label (ILGenerator_new 1)).2 in
  match branch ecma_opcode_byte BranchAlways (mkLabel 0) g1 with
  | Done g2 => push_back 0 g2
  | _ => g1
  end.

(** A generator with one local, of type 0, that has been freed once. *)
Definition generator_with_freed_local (DEBUG : bool) : ILGenerator :=
  match define_local (mkParam 0) (ILGenerator_new 1) with
  | Done (l, g1) =>
      match free_local DEBUG l g1 with
      | Done g2 => g2
      | _ => g1
      end
  | _ => ILGenerator_new 1
  end.

(** ** Module resolution (absint.h) *)

(** An [IMethod*] and a [void*] method address. *)
Definition IMethodPtr : Set := N.
Definition VoidPtr : Set := N.

(** The virtual interface of [Module] that [UserModule] overrides. *)
Class IModule (M : Type) : Type := {
  ResolveMethod : M → Z → IMethodPtr;
  ResolveMethodToken : M → VoidPtr → Z
}.

(** [UserModule]: the two maps are the members it inherits from [Module],
    [m_parent] is the module it falls back to. *)
Record UserModule (P : Type) : Type := mkUserModule {
  m_parent : P;
  m_tokenToMethod : gmap Z IMethodPtr;
  m_methodAddrToToken : gmap VoidPtr Z
}.
Arguments mkUserModule {P} m_parent m_tokenToMethod m_methodAddrToToken.
Arguments m_parent {P} u.
Arguments m_tokenToMethod {P} u.
Arguments m_methodAddrToToken {P} u.

Definition UserModule_ResolveMethod {P} `{IModule P} (this : UserModule P)
    (tokenId : Z) : IMethodPtr :=
  match m_tokenToMethod this !! tokenId with
  | None => ResolveMethod (m_parent this) tokenId
  | Some res => res
  end.

Definition UserModule_ResolveMethodToken {P} `{IModule P} (this : UserModule P)
    (addr : VoidPtr) : Z :=
  match m_methodAddrToToken this !! addr with
  | None => ResolveMethodToken (m_parent this) addr
  | Some res => res
  end.

#[global] Instance UserModule_IModule {P} `{IModule P} : IModule (UserModule P) := {
  ResolveMethod := UserModule_ResolveMethod;
  ResolveMethodToken := UserModule_ResolveMethodToken
}.

(** A module without a parent that answers from its own maps, with fixed
    answers for what it does not know; used to build concrete chains. *)
Record RootModule : Type := mkRootModule {
  root_methods : gmap Z IMethodPtr;
  root_tokens : gmap VoidPtr Z
}.

#[global] Instance RootModule_IModule : IModule RootModule := {
  ResolveMethod r t := default 0%N (root_methods r !! t);
  ResolveMethodToken r a := default (-1)%Z (root_tokens r !! a)
}.

(** ** ExceptionVars (absint.h) *)

(** The one capability of [IPythonCompiler] (ipycomp.h) that
    [ExceptionVars] uses: reserving a local, which changes the compiler. *)
Class IPythonCompiler (C : Type) : Type := {
  emit_define_local : bool → C → Local * C
}.

Record ExceptionVars : Set := mkExceptionVars {
  PrevExc : Local; PrevExcVal : Local; PrevTraceback : Local;
  FinallyExc : Local; FinallyTb : Local; FinallyValue : Local
}.

(** [ExceptionVars(comp, isFinally)]; [dflt] is the default-constructed
    [Local()] the three Finally fields keep when [isFinally] is false. *)
Definition ExceptionVars_new {C} `{IPythonCompiler C} (dflt : Local) (comp : C)
    (isFinally : bool) : ExceptionVars * C :=
  let '(prevExc, comp) := emit_define_local false comp in
  let '(prevExcVal, comp) := emit_define_local false comp in
  let '(prevTraceback, comp) := emit_define_local false comp in
  if isFinally then
    let '(finallyExc, comp) := emit_define_local false comp in
    let '(finallyTb, comp) := emit_define_local false comp in
    let '(finallyValue, comp) := emit_define_local false comp in
    (mkExceptionVars prevExc prevExcVal prevTraceback
                     finallyExc finallyTb finallyValue, comp)
  else
    (mkExceptionVars prevExc prevExcVal prevTraceback dflt dflt dflt, comp).

(** A compiler that forwards to another one and keeps the list of the
    calls it received. *)
Inductive CompilerCall : Set :=
  | Call_emit_define_local (cache : bool).

Record Recording (C : Type) : Type := mkRecording {
  inner : C;
  calls : list CompilerCall
}.
Arguments mkRecording {C} inner calls.
Arguments inner {C} r.
Arguments calls {C} r.

#[global] Instance Recording_compiler {C} `{IPythonCompiler C}
  : IPythonCompiler (Recording C) := {
  emit_define_local b r :=
    let '(l, c) := emit_define_local b (inner r) in
    (l, mkRecording c (calls r ++ [Call_emit_define_local b]))
}.

(** A compiler that hands out consecutive local indices. *)
#[global] Instance Counter_compiler : IPythonCompiler Z := {
  emit_define_local _ n := (mkLocal n, (n + 1)%Z)
}.

(** ** Merging states and the fixed-point analysis (absint.cpp) *)

(** Modelled from the spec: the contents of a per-offset machine state,
    "the pair (evaluation stack snapshot, locals snapshot)" of section 2.
    The merge and the analysis of absint.cpp are not among the sources; they
    read states by value, so the sharing of the locals does not show here. *)
Record Snapshot : Type := mkSnapshot {
  stack : list AbstractValueWithSources;
  locals : list AbstractLocalInfo
}.

#[global] Instance Snapshot_eq_dec : EqDecision Snapshot.
Proof. solve_decision. Defined.

(** A state whose stack holds no null value and whose locals all satisfy
    the invariant of the checked constructor. *)
Definition valid_snapshot (s : Snapshot) : Prop :=
  Forall (λ v, Value v ≠ None) (stack s) ∧ Forall local_invariant (locals s).

(** Modelled from the spec: positional merge of two sequences (section
    4.3); sequences of different lengths are a fatal error. *)
Fixpoint merge_positional {A} (f : A → A → outcome A) (xs ys : list A)
  : outcome (list A) :=
  match xs, ys with
  | [], [] => Done []
  | x :: xs, y :: ys =>
      r ← f x y;
      rs ← merge_positional f xs ys;
      mret (r :: rs)
  | _, _ => AssertionFailed
  end.

(** Modelled from the spec: the merge of two states at the same offset
    (section 4.3): "stacks merge positionally via 4.2 (fatal error if
    lengths differ), locals merge positionally via AbstractLocalInfo.merge". *)
Definition merge (a b : Snapshot) : outcome Snapshot :=
  st ← merge_positional AVWS_merge_with (stack a) (stack b);
  lo ← merge_positional merge_with (locals a) (locals b);
  mret (mkSnapshot st lo).

(** Modelled from the spec: [AbstractInterpreter::merge_states] (absint.cpp):
    the merged state, and whether it "differs from the previously recorded
    state". *)
Definition merge_states (newState mergeTo : Snapshot) : outcome (Snapshot * bool) :=
  merged ← merge mergeTo newState;
  mret (merged, bool_decide (merged ≠ mergeTo)).

(** The offset to state table [m_startStates]. *)
Abbreviation StartStates := (gmap nat Snapshot).

(** Modelled from the spec: [AbstractInterpreter::update_start_state]
    (absint.cpp): merge the incoming state into the one recorded at
    [index], or record it when there is none; the result tells whether the
    recorded state changed. *)
Definition update_start_state (newState : Snapshot) (index : nat)
    (startStates : StartStates) : outcome (StartStates * bool) :=
  match startStates !! index with
  | None => Done (<[index := newState]> startStates, true)
  | Some mergeTo =>
      merge_states newState mergeTo ≫= λ r : Snapshot * bool,
      let '(merged, changed) := r in
      mret (if changed then <[index := merged]> startStates else startStates,
            changed)
  end.

(** Modelled from the spec: the initial state of section 4.4: "all locals
    Undefined/maybe-undefined except parameters, which start
    definitely-assigned with their declared kind". *)
Definition init_starting_state (params : list AbstractValueKind) (numLocals : nat)
  : Snapshot :=
  mkSnapshot []
    (((λ k, mkALI (mkAVWS (Some k) ∅) false) <$> params)
       ++ replicate (numLocals - length params)
                    (mkALI (mkAVWS (Some Undefined) ∅) true)).

(** The per-opcode transfer functions are a parameter: for an offset and
    the state recorded there, the successor offsets with the state each one
    receives, or [None] when the instruction cannot be modelled. *)
Definition Transfer : Type :=
  nat → Snapshot → outcome (option (list (nat * Snapshot))).

(** Modelled from the spec: "merge each successor's resulting state into
    that successor's recorded state and enqueue the successor if its
    recorded state changed" (section 4.4). *)
Fixpoint merge_successors (succs : list (nat * Snapshot))
    (startStates : StartStates) (queue : list nat)
  : outcome (StartStates * list nat) :=
  match succs with
  | [] => Done (startStates, queue)
  | (target, st) :: rest =>
      update_start_state st target startStates ≫= λ r : StartStates * bool,
      let '(startStates', changed) := r in
      merge_successors rest startStates'
        (if changed then queue ++ [target] else queue)
  end.

(** Modelled from the spec: the worklist loop of
    [AbstractInterpreter::interpret] (absint.cpp), section 4.4, run for at
    most [fuel] iterations; [None] means the fuel ran out.  The result says
    whether the function could be analysed, with the table reached. *)
Fixpoint interpret_loop (fuel : nat) (transfer : Transfer)
    (startStates : StartStates) (queue : list nat)
  : option (outcome (bool * StartStates)) :=
  match fuel with
  | 0 => None
  | S fuel =>
      match queue with
      | [] => Some (Done (true, startStates))
      | cur :: queue =>
          match startStates !! cur with
          | None => Some UndefinedBehaviour
          | Some lastState =>
              match transfer cur lastState with
              | Done None => Some (Done (false, startStates))
              | Done (Some succs) =>
                  match merge_successors succs startStates queue with
                  | Done (startStates', queue') =>
                      interpret_loop fuel transfer startStates' queue'
                  | AssertionFailed => Some AssertionFailed
                  | UndefinedBehaviour => Some UndefinedBehaviour
                  end
              | AssertionFailed => Some AssertionFailed
              | UndefinedBehaviour => Some UndefinedBehaviour
              end
          end
      end
  end.

(** Modelled from the spec: [AbstractInterpreter::interpret] (absint.cpp):
    the loop started from the initial state at offset 0, "a worklist of
    pending offsets (initially just 0)". *)
Definition interpret (fuel : nat) (transfer : Transfer)
    (params : list AbstractValueKind) (numLocals : nat)
  : option (outcome (bool * StartStates)) :=
  interpret_loop fuel transfer {[0 := init_starting_state params numLocals]} [0].

(** *** The height of a state in the lattice *)

(** How far a kind is from the top: Undefined, then a specific kind, then
    Object. *)
Definition kind_rank (k : AbstractValuePtr) : nat :=
  match k with
  | Some Undefined => 2
  | Some Object => 0
  | Some _ => 1
  | None => 0
  end.

Section Rank.
(** The sources the analysed function can produce. *)
Variable universe : gset AbstractSource.

Definition value_rank (v : AbstractValueWithSources) : nat :=
  kind_rank (Value v) + size (universe ∖ Sources v).

Definition local_rank (a : AbstractLocalInfo) : nat :=
  value_rank (ValueInfo a) + (if IsMaybeUndefined a then 0 else 1).

Definition snapshot_rank (s : Snapshot) : nat :=
  sum_list (value_rank <$> stack s) + sum_list (local_rank <$> locals s).

(** Every source of the state is one of the function's. *)
Definition within (s : Snapshot) : Prop :=
  Forall (λ v, Sources v ⊆ universe) (stack s)
  ∧ Forall (λ a, Sources (ValueInfo a) ⊆ universe) (locals s).

(** A well-formed instruction stream of [size] offsets: successors stay
    inside the stream and carry the function's sources only. *)
Definition well_formed_stream (size : nat) (transfer : Transfer) : Prop :=
  0 < size ∧
  ∀ cur st succs, cur < size → within st →
    transfer cur st = Done (Some succs) →
    Forall (λ ts : nat * Snapshot, ts.1 < size ∧ within ts.2) succs.

(** The measure of the table: how many offsets have no state yet, and the
    total rank of the recorded ones. *)
Definition unrecorded (size : nat) (t : StartStates) : nat :=
  sum_list ((λ o, match t !! o with Some _ => 0 | None => 1 end) <$> seq 0 size).

Definition total_rank (size : nat) (t : StartStates) : nat :=
  sum_list ((λ o, from_option snapshot_rank 0 (t !! o)) <$> seq 0 size).

(** Every recorded state carries the function's sources only. *)
Definition table_within (t : StartStates) : Prop :=
  ∀ o s, t !! o = Some s → within s.

(** The table [t'] is strictly further along than [t]: an offset got its
    first state, or no offset did and the total rank went down. *)
Definition progress (size : nat) (t' t : StartStates) : Prop :=
  unrecorded size t' < unrecorded size t
  ∨ (unrecorded size t' = unrecorded size t
     ∧ total_rank size t' < total_rank size t).
End Rank.

(** The transfer functions turn valid states into valid states. *)
Definition valid_stream (transfer : Transfer) : Prop :=
  ∀ cur st succs, valid_snapshot st →
    transfer cur st = Done (Some succs) →
    Forall (λ ts : nat * Snapshot, valid_snapshot ts.2) succs.

(** The state [st] brings nothing new to the recorded state [rec]. *)
Definition absorbed (st rec : Snapshot) : Prop := merge rec st = Done rec.

(** Offset [o] with state [s] is stable in the table [t]: what its
    instruction sends to each successor is already in the state recorded
    there. *)
Definition stable (transfer : Transfer) (t : StartStates) (o : nat) (s : Snapshot)
  : Prop :=
  ∀ succs, transfer o s = Done (Some succs) →
    Forall (λ ts : nat * Snapshot,
              ∃ rec, t !! ts.1 = Some rec ∧ absorbed ts.2 rec) succs.

(** The table is a fixed point of the analysis: every recorded offset is
    stable. *)
Definition fixed_point (transfer : Transfer) (t : StartStates) : Prop :=
  ∀ o s, t !! o = Some s → stable transfer t o s.

(** The recorded state [rec'] has everything [rec] has. *)
Definition grows (rec rec' : Snapshot) : Prop :=
  ∀ st, absorbed st rec → absorbed st rec'.

(** Every state of [t] is still there in [t'], possibly grown. *)
Definition table_grows (t t' : StartStates) : Prop :=
  ∀ o rec, t !! o = Some rec → ∃ rec', t' !! o = Some rec' ∧ grows rec rec'.

(** A two-instruction loop used as a concrete instruction stream: offset 0
    pushes nothing and stores an Int into local 0, then falls through;
    offset 1 jumps back to 0 or leaves. *)
Definition loop_transfer : Transfer := λ cur st,
  match cur with
  | 0 => Done (Some
           [(1, mkSnapshot (stack st)
                  (<[0 := mkALI (mkAVWS (Some Int) {[IntermediateSource 0]}) false]>
                     (locals st)))])
  | 1 => Done (Some [(0, st)])
  | _ => Done None
  end.

(** ** simple_vector (ilgen.h) *)

(** [simple_vector<T>] with its buffer: [m_items] holds the cells of the
    current allocation, [None] for a cell [malloc] returned and nothing
    wrote yet; [m_allocated] is the capacity the vector believes it has.  A
    [size_t] is an unbounded natural here (an allocation of 2^64 cells does
    not exist), and [malloc] does not fail. *)
Record simple_vector (T : Type) : Type := mkSimpleVector {
  m_items : list (option T);
  m_count : nat;
  m_allocated : nat
}.
Arguments mkSimpleVector {T} m_items m_count m_allocated.
Arguments m_items {T} s.
Arguments m_count {T} s.
Arguments m_allocated {T} s.

(** [simple_vector()] *)
Definition simple_vector_new {T} : simple_vector T := mkSimpleVector [] 0 0.

(** [size()] *)
Definition sv_size {T} (v : simple_vector T) : nat := m_count v.

(** [operator[]]: no bounds check; a cell outside the allocation or never
    written has no defined value. *)
Definition sv_at {T} (v : simple_vector T) (n : nat) : outcome T :=
  match m_items v !! n with
  | Some (Some x) => Done x
  | _ => UndefinedBehaviour
  end.

(** [memcpy(newItems, m_items, m_count * sizeof(T))] into a fresh
    allocation of [newCount] cells. *)
Definition sv_grow {T} (v : simple_vector T) (newCount : nat)
  : outcome (list (option T)) :=
  if decide (m_count v ≤ length (m_items v) ∧ m_count v ≤ newCount)
  then Done (take (m_count v) (m_items v) ++ replicate (newCount - m_count v) None)
  else UndefinedBehaviour.

(** [push_back(item)] *)
Definition sv_push_back {T} (item : T) (v : simple_vector T)
  : outcome (simple_vector T) :=
  v1 ← (if decide (m_allocated v ≤ m_count v) then
          let newCount := Nat.max 4 (m_allocated v * 2) in
          newItems ← sv_grow v newCount;
          mret (mkSimpleVector newItems (m_count v) newCount)
        else mret v);
  if decide (m_count v1 < length (m_items v1)) then
    mret (mkSimpleVector (<[m_count v1 := Some item]> (m_items v1))
                         (S (m_count v1)) (m_allocated v1))
  else UndefinedBehaviour.

(** [pop_back()] *)
Definition sv_pop_back {T} (v : simple_vector T) : outcome (simple_vector T) :=
  _ ← assert (bool_decide (0 < m_count v));
  mret (mkSimpleVector (m_items v) (m_count v - 1) (m_allocated v)).

(** The elements of the vector, in index order. *)
Definition sv_contents {T} (v : simple_vector T) : list T :=
  omap id (take (m_count v) (m_items v)).

(** The buffer is as large as the vector believes, the count fits in it
    and every counted cell has been written. *)
Definition sv_wf {T} (v : simple_vector T) : Prop :=
  m_allocated v = length (m_items v)
  ∧ m_count v ≤ m_allocated v
  ∧ Forall is_Some (take (m_count v) (m_items v)).

(** ** Reading the IL back (ilgen.h) *)

(** [getU1LittleEndian(codeAddr + pos)] and the wider reads: the bytes at
    [pos] and after it, lowest first.  The reads through a cast pointer
    are little-endian on the targets of the code (x86 and AMD64). *)
Definition read_bytes (il : list Z) (pos : Z) (n : nat) : outcome (list Z) :=
  if decide (0 ≤ pos ∧ pos + Z.of_nat n ≤ Z.of_nat (length il))%Z
  then Done (take n (drop (Z.to_nat pos) il))
  else UndefinedBehaviour.

(** A value converted to [__int16] and to [__int64]. *)
Definition to_int16 (z : Z) : Z := ((z + 32768) mod 65536 - 32768)%Z.
Definition to_int64 (z : Z) : Z :=
  ((z + 9223372036854775808) mod 18446744073709551616 - 9223372036854775808)%Z.

Definition getU1LittleEndian (il : list Z) (pos : Z) : outcome Z :=
  bs ← read_bytes il pos 1; mret (le_value bs).
Definition getU2LittleEndian (il : list Z) (pos : Z) : outcome Z :=
  bs ← read_bytes il pos 2; mret (le_value bs).
Definition getU4LittleEndian (il : list Z) (pos : Z) : outcome Z :=
  bs ← read_bytes il pos 4; mret (le_value bs).
Definition getI1LittleEndian (il : list Z) (pos : Z) : outcome Z :=
  bs ← read_bytes il pos 1; mret (to_char (le_value bs)).
Definition getI2LittleEndian (il : list Z) (pos : Z) : outcome Z :=
  bs ← read_bytes il pos 2; mret (to_int16 (le_value bs)).
Definition getI4LittleEndian (il : list Z) (pos : Z) : outcome Z :=
  bs ← read_bytes il pos 4; mret (to_int (le_value bs)).
Definition getI8LittleEndian (il : list Z) (pos : Z) : outcome Z :=
  bs ← read_bytes il pos 8; mret (to_int64 (le_value bs)).

(** The [InlineI8] case of [dumpSingleInstr]:
    [iOp = getU4(p); iOp |= (__int64)getU4(p + 4) << 32]. *)
Definition dump_inline_i8 (il : list Z) (pos : Z) : outcome Z :=
  lo ← getU4LittleEndian il pos;
  hi ← getU4LittleEndian il (pos + 4)%Z;
  mret (to_int64 (Z.lor (to_int64 lo) (to_int64 (Z.shiftl (to_int64 hi) 32)))).

(** The [JMP_OP] case of [dumpSingleInstr]: the target it prints for a
    branch whose operand of [sz] bytes starts at [pos] and holds [jOp],
    [(int)(opcodePtr + sz - codeAddr) + jOp]. *)
Definition dump_jump_target (pos : Z) (sz : Z) (jOp : Z) : Z :=
  to_int (to_int (pos + sz) + jOp)%Z.

(** ** The other emitters of ILGenerator (ilgen.h) *)

(** The opcodes the other emitters use.  [cee] below gives each its value
    in the [OPCODE] enumeration of openum.h; the two-byte opcodes have
    values past 255 and are emitted through a cast to [char]. *)
Inductive CEE : Set :=
  | CEE_PREFIX1 | CEE_LOCALLOC | CEE_RET
  | CEE_LDC_I4_M1 | CEE_LDC_I4_0 | CEE_LDC_I4_1 | CEE_LDC_I4_2 | CEE_LDC_I4_3
  | CEE_LDC_I4_4 | CEE_LDC_I4_5 | CEE_LDC_I4_6 | CEE_LDC_I4_7
  | CEE_LDC_I4_S | CEE_LDC_I4 | CEE_LDC_I8 | CEE_CONV_I
  | CEE_STIND_I | CEE_LDIND_I | CEE_STIND_I4 | CEE_LDIND_I4 | CEE_LDIND_R8
  | CEE_NEG | CEE_DUP | CEE_AND | CEE_POP
  | CEE_CEQ | CEE_CGT | CEE_CLT | CEE_CLT_UN | CEE_CGT_UN
  | CEE_CALL
  | CEE_STLOC_0 | CEE_STLOC_1 | CEE_STLOC_2 | CEE_STLOC_3 | CEE_STLOC_S | CEE_STLOC
  | CEE_LDLOC_0 | CEE_LDLOC_1 | CEE_LDLOC_2 | CEE_LDLOC_3 | CEE_LDLOC_S | CEE_LDLOC
  | CEE_LDLOCA_S | CEE_LDLOCA
  | CEE_ADD | CEE_SUB | CEE_DIV | CEE_REM | CEE_MUL
  | CEE_LDARG_0 | CEE_LDARG_1 | CEE_LDARG_2 | CEE_LDARG_3 | CEE_LDARG.

Section Emitters.
Variable cee : CEE → Z.

Definition localloc (g : ILGenerator) : ILGenerator :=
  push_back (to_char (cee CEE_LOCALLOC)) (push_back (cee CEE_PREFIX1) g).

Definition ret (g : ILGenerator) : ILGenerator := push_back (cee CEE_RET) g.

(** [ld_i4(int i)] *)
Definition ld_i4 (i : Z) (g : ILGenerator) : ILGenerator :=
  if decide (i = -1)%Z then push_back (cee CEE_LDC_I4_M1) g
  else if decide (i = 0)%Z then push_back (cee CEE_LDC_I4_0) g
  else if decide (i = 1)%Z then push_back (cee CEE_LDC_I4_1) g
  else if decide (i = 2)%Z then push_back (cee CEE_LDC_I4_2) g
  else if decide (i = 3)%Z then push_back (cee CEE_LDC_I4_3) g
  else if decide (i = 4)%Z then push_back (cee CEE_LDC_I4_4) g
  else if decide (i = 5)%Z then push_back (cee CEE_LDC_I4_5) g
  else if decide (i = 6)%Z then push_back (cee CEE_LDC_I4_6) g
  else if decide (i = 7)%Z then push_back (cee CEE_LDC_I4_7) g
  else if decide (i < 256)%Z then
    push_back i (push_back (cee CEE_LDC_I4_S) g)
  else
    emit_int i
      (push_back (to_char (cee CEE_STLOC)) (push_back (cee CEE_LDC_I4) g)).

Definition load_null (g : ILGenerator) : ILGenerator :=
  push_back (cee CEE_CONV_I) (ld_i4 0 g).

Definition st_ind_i (g : ILGenerator) : ILGenerator := push_back (cee CEE_STIND_I) g.
Definition ld_ind_i (g : ILGenerator) : ILGenerator := push_back (cee CEE_LDIND_I) g.
Definition st_ind_i4 (g : ILGenerator) : ILGenerator := push_back (cee CEE_STIND_I4) g.
Definition ld_ind_i4 (g : ILGenerator) : ILGenerator := push_back (cee CEE_LDIND_I4) g.
Definition ld_ind_r8 (g : ILGenerator) : ILGenerator := push_back (cee CEE_LDIND_R8) g.

Definition neg (g : ILGenerator) : ILGenerator := push_back (cee CEE_NEG) g.
Definition dup (g : ILGenerator) : ILGenerator := push_back (cee CEE_DUP) g.
Definition bitwise_and (g : ILGenerator) : ILGenerator := push_back (cee CEE_AND) g.
Definition il_pop (g : ILGenerator) : ILGenerator := push_back (cee CEE_POP) g.

Definition compare_eq (g : ILGenerator) : ILGenerator :=
  push_back (to_char (cee CEE_CEQ)) (push_back (cee CEE_PREFIX1) g).
Definition compare_ne (g : ILGenerator) : ILGenerator :=
  compare_eq (ld_i4 0 (compare_eq g)).
Definition compare_gt (g : ILGenerator) : ILGenerator :=
  push_back (to_char (cee CEE_CGT)) (push_back (cee CEE_PREFIX1) g).
Definition compare_lt (g : ILGenerator) : ILGenerator :=
  push_back (to_char (cee CEE_CLT)) (push_back (cee CEE_PREFIX1) g).
Definition compare_ge (g : ILGenerator) : ILGenerator :=
  compare_eq (ld_i4 0
    (push_back (to_char (cee CEE_CLT)) (push_back (cee CEE_PREFIX1) g))).
Definition compare_le (g : ILGenerator) : ILGenerator :=
  compare_eq (ld_i4 0
    (push_back (to_char (cee CEE_CGT)) (push_back (cee CEE_PREFIX1) g))).
Definition compare_ge_float (g : ILGenerator) : ILGenerator :=
  compare_eq (ld_i4 0
    (push_back (to_char (cee CEE_CLT_UN)) (push_back (cee CEE_PREFIX1) g))).
Definition compare_le_float (g : ILGenerator) : ILGenerator :=
  compare_eq (ld_i4 0
    (push_back (to_char (cee CEE_CGT_UN)) (push_back (cee CEE_PREFIX1) g))).

(** [ld_i(int i)] *)
Definition ld_i_int (i : Z) (g : ILGenerator) : ILGenerator :=
  push_back (cee CEE_CONV_I) (emit_int i (push_back (cee CEE_LDC_I4) g)).

(** [ld_i(void* ptr)] as compiled for [_TARGET_AMD64_]; [value] is the
    pointer as a [size_t] of 64 bits.  [ld_i(size_t)] casts and calls it. *)
Definition ld_i_ptr (value : Z) (g : ILGenerator) : ILGenerator :=
  if decide (Z.land value 4294967295 = value)%Z then
    ld_i_int (to_int value) g
  else
    push_back (cee CEE_CONV_I)
      (push_back (Z.land (Z.shiftr value 56) 255)
      (push_back (Z.land (Z.shiftr value 48) 255)
      (push_back (Z.land (Z.shiftr value 40) 255)
      (push_back (Z.land (Z.shiftr value 32) 255)
      (push_back (Z.land (Z.shiftr value 24) 255)
      (push_back (Z.land (Z.shiftr value 16) 255)
      (push_back (Z.land (Z.shiftr value 8) 255)
      (push_back (Z.land value 255)
      (push_back (cee CEE_LDC_I8) g))))))))).

Definition emit_call (token : Z) (g : ILGenerator) : ILGenerator :=
  emit_int token (push_back (cee CEE_CALL) g).

(** [st_loc(int index)] *)
Definition st_loc (index : Z) (g : ILGenerator) : outcome ILGenerator :=
  _ ← assert (bool_decide (index ≠ -1)%Z);
  mret (if decide (index = 0)%Z then push_back (cee CEE_STLOC_0) g
        else if decide (index = 1)%Z then push_back (cee CEE_STLOC_1) g
        else if decide (index = 2)%Z then push_back (cee CEE_STLOC_2) g
        else if decide (index = 3)%Z then push_back (cee CEE_STLOC_3) g
        else if decide (index < 256)%Z then
          push_back index (push_back (cee CEE_STLOC_S) g)
        else
          push_back (Z.land (Z.shiftr index 8) 255)
            (push_back (Z.land index 255)
               (push_back (to_char (cee CEE_STLOC))
                  (push_back (cee CEE_PREFIX1) g)))).

(** [ld_loc(int index)] *)
Definition ld_loc (index : Z) (g : ILGenerator) : outcome ILGenerator :=
  _ ← assert (bool_decide (index ≠ -1)%Z);
  mret (if decide (index = 0)%Z then push_back (cee CEE_LDLOC_0) g
        else if decide (index = 1)%Z then push_back (cee CEE_LDLOC_1) g
        else if decide (index = 2)%Z then push_back (cee CEE_LDLOC_2) g
        else if decide (index = 3)%Z then push_back (cee CEE_LDLOC_3) g
        else if decide (index < 256)%Z then
          push_back index (push_back (cee CEE_LDLOC_S) g)
        else
          push_back (Z.land (Z.shiftr index 8) 255)
            (push_back (Z.land index 255)
               (push_back (to_char (cee CEE_LDLOC))
                  (push_back (cee CEE_PREFIX1) g)))).

(** [ld_loca(int index)] *)
Definition ld_loca (index : Z) (g : ILGenerator) : outcome ILGenerator :=
  _ ← assert (bool_decide (index ≠ -1)%Z);
  mret (if decide (index < 256)%Z then
          push_back index (push_back (cee CEE_LDLOCA_S) g)
        else
          push_back (Z.land (Z.shiftr index 8) 255)
            (push_back (Z.land index 255)
               (push_back (to_char (cee CEE_LDLOCA))
                  (push_back (cee CEE_PREFIX1) g)))).

(** [st_loc(Local)] and [ld_loc(Local)] *)
Definition st_loc_local (param : Local) (g : ILGenerator) : outcome ILGenerator :=
  st_loc (m_index param) g.
Definition ld_loc_local (param : Local) (g : ILGenerator) : outcome ILGenerator :=
  ld_loc (m_index param) g.

Definition il_add (g : ILGenerator) : ILGenerator := push_back (cee CEE_ADD) g.
Definition il_sub (g : ILGenerator) : ILGenerator := push_back (cee CEE_SUB) g.
Definition il_div (g : ILGenerator) : ILGenerator := push_back (cee CEE_DIV) g.
Definition il_mod (g : ILGenerator) : ILGenerator := push_back (cee CEE_REM) g.
Definition il_mul (g : ILGenerator) : ILGenerator := push_back (cee CEE_MUL) g.

(** [ld_arg(int index)]; the short form is written with [CEE_LDARG_3]. *)
Definition ld_arg (index : Z) (g : ILGenerator) : outcome ILGenerator :=
  _ ← assert (bool_decide (index ≠ -1)%Z);
  mret (if decide (index = 0)%Z then push_back (cee CEE_LDARG_0) g
        else if decide (index = 1)%Z then push_back (cee CEE_LDARG_1) g
        else if decide (index = 2)%Z then push_back (cee CEE_LDARG_2) g
        else if decide (index = 3)%Z then push_back (cee CEE_LDARG_3) g
        else if decide (index < 256)%Z then
          push_back index (push_back (cee CEE_LDARG_3) g)
        else
          push_back (Z.land (Z.shiftr index 8) 255)
            (push_back (Z.land index 255)
               (push_back (to_char (cee CEE_LDARG))
                  (push_back (cee CEE_PREFIX1) g)))).

(** One call of an emitter, to speak of all of them at once. *)
Inductive EmitterCall : Set :=
  | Call_localloc | Call_ret | Call_ld_i4 (i : Z) | Call_load_null
  | Call_st_ind_i | Call_ld_ind_i | Call_st_ind_i4 | Call_ld_ind_i4 | Call_ld_ind_r8
  | Call_neg | Call_dup | Call_bitwise_and | Call_pop
  | Call_compare_eq | Call_compare_ne | Call_compare_gt | Call_compare_lt
  | Call_compare_ge | Call_compare_le | Call_compare_ge_float | Call_compare_le_float
  | Call_ld_i_int (i : Z) | Call_ld_i_ptr (value : Z) | Call_emit_call (token : Z)
  | Call_st_loc (index : Z) | Call_ld_loc (index : Z) | Call_ld_loca (index : Z)
  | Call_add | Call_sub | Call_div | Call_mod | Call_mul | Call_ld_arg (index : Z).

Definition run_emitter (c : EmitterCall) (g : ILGenerator) : outcome ILGenerator :=
  match c with
  | Call_localloc => Done (localloc g)
  | Call_ret => Done (ret g)
  | Call_ld_i4 i => Done (ld_i4 i g)
  | Call_load_null => Done (load_null g)
  | Call_st_ind_i => Done (st_ind_i g)
  | Call_ld_ind_i => Done (ld_ind_i g)
  | Call_st_ind_i4 => Done (st_ind_i4 g)
  | Call_ld_ind_i4 => Done (ld_ind_i4 g)
  | Call_ld_ind_r8 => Done (ld_ind_r8 g)
  | Call_neg => Done (neg g)
  | Call_dup => Done (dup g)
  | Call_bitwise_and => Done (bitwise_and g)
  | Call_pop => Done (il_pop g)
  | Call_compare_eq => Done (compare_eq g)
  | Call_compare_ne => Done (compare_ne g)
  | Call_compare_gt => Done (compare_gt g)
  | Call_compare_lt => Done (compare_lt g)
  | Call_compare_ge => Done (compare_ge g)
  | Call_compare_le => Done (compare_le g)
  | Call_compare_ge_float => Done (compare_ge_float g)
  | Call_compare_le_float => Done (compare_le_float g)
  | Call_ld_i_int i => Done (ld_i_int i g)
  | Call_ld_i_ptr value => Done (ld_i_ptr value g)
  | Call_emit_call token => Done (emit_call token g)
  | Call_st_loc index => st_loc index g
  | Call_ld_loc index => ld_loc index g
  | Call_ld_loca index => ld_loca index g
  | Call_add => Done (il_add g)
  | Call_sub => Done (il_sub g)
  | Call_div => Done (il_div g)
  | Call_mod => Done (il_mod g)
  | Call_mul => Done (il_mul g)
  | Call_ld_arg index => ld_arg index g
  end.
End Emitters.

(** ** Invariants of the generator's locals (ilgen.h) *)

(** The local counter is the number of defined locals, and every local on
    the free list of a type is a defined local of that type. *)
Definition locals_consistent (g : ILGenerator) : Prop :=
  m_localCount g = Z.of_nat (length (gen_locals g))
  ∧ ∀ t localList l,
      m_freedLocals g !! t = Some localList → l ∈ localList →
      ∃ param, at_int (gen_locals g) (m_index l) = Done param ∧ m_type param = t.

(** A generator whose only label is bound at position 0, with three bytes
    of IL after it. *)
Definition generator_with_bound_label : ILGenerator :=
  let g0 := (define_label (ILGenerator_new 1)).2 in
  match mark_label (mkLabel 0) g0 with
  | Done g1 => push_back 0 (push_back 0 (push_back 0 g1))
  | _ => g0
  end.

(** [g'] comes from [g] by [push_back] calls only. *)
Inductive pushes (g : ILGenerator) : ILGenerator → Prop :=
  | pushes_refl : pushes g g
  | pushes_step b g' : pushes g g' → pushes g (push_back b g').

(** [g'] is [g] with bytes appended to the IL and nothing else changed. *)
Definition appends (g g' : ILGenerator) : Prop :=
  (∃ bytes, m_il g' = m_il g ++ bytes ∧ Forall (λ b, 0 ≤ b < 256)%Z bytes)
  ∧ m_labels g' = m_labels g
  ∧ gen_locals g' = gen_locals g
  ∧ m_freedLocals g' = m_freedLocals g
  ∧ m_localCount g' = m_localCount g.

(** * Properties *)

(** ** The value lattice *)

Lemma merge_kind_comm a b : merge_kind a b = merge_kind b a.
Proof. by destruct a, b. Qed.

Lemma merge_kind_idemp a : merge_kind a a = a.
Proof. by destruct a. Qed.

Lemma merge_kind_undefined a b :
  merge_kind a b = Undefined ↔ a = Undefined ∧ b = Undefined.
Proof. destruct a, b; simpl; split; (done || by intros []). Qed.

Lemma merge_kind_undefined_l b : merge_kind Undefined b = b.
Proof. done. Qed.

Lemma merge_kind_undefined_r a : merge_kind a Undefined = a.
Proof. by destruct a. Qed.

Lemma AVWS_merge_with_comm a b : AVWS_merge_with a b = AVWS_merge_with b a.
Proof.
  unfold AVWS_merge_with.
  destruct (Value a) as [ka|], (Value b) as [kb|]; try done.
  by rewrite merge_kind_comm, (comm_L (∪) (Sources a)).
Qed.

Lemma AVWS_merge_with_idemp a :
  Value a ≠ None → AVWS_merge_with a a = Done a.
Proof.
  destruct a as [[k|] s]; [intros _|done].
  unfold AVWS_merge_with; simpl.
  by rewrite merge_kind_idemp, (idemp_L (∪) s).
Qed.

(** ** AbstractLocalInfo *)

Lemma AbstractLocalInfo_new_Done v u a :
  AbstractLocalInfo_new v u = Done a ↔
  a = mkALI v u ∧ Value v ≠ None ∧ ¬ (Value v = Some Undefined ∧ u = false).
Proof.
  unfold AbstractLocalInfo_new, assert. simpl.
  destruct (Value v) as [k|] eqn:Hv; simpl.
  - destruct (decide (k = Undefined)) as [->|Hk], u; simpl;
      rewrite ?bool_decide_eq_true_2, ?bool_decide_eq_false_2 by congruence; simpl;
      split; try (intros [= <-]); try (intros (-> & _ & Hn)); try done.
    + split_and!; [done|done|by intros [_ ?]].
    + by destruct Hn.
    + split_and!; [done|done|]. intros [? _]; congruence.
    + split_and!; [done|done|]. intros [? _]; congruence.
  - split; [done|]. by intros (_ & ? & _).
Qed.

Lemma AbstractLocalInfo_new_invariant v u :
  local_invariant (mkALI v u) → AbstractLocalInfo_new v u = Done (mkALI v u).
Proof.
  intros [Hn H4]. apply AbstractLocalInfo_new_Done. by split_and!.
Qed.

Lemma constructed_invariant a : constructed a ↔ local_invariant a.
Proof.
  split.
  - intros [|v u a' H].
    + split; [done|]. by intros [_ ?].
    + apply AbstractLocalInfo_new_Done in H as (-> & ? & ?). by split.
  - intros H. destruct a as [v u].
    eapply constructed_new. by apply AbstractLocalInfo_new_invariant.
Qed.

(** The merge of two values that satisfy the invariant, computed. *)
Lemma merge_with_Done a b :
  local_invariant a → local_invariant b →
  ∃ ka kb, kind_of a = Some ka ∧ kind_of b = Some kb ∧
    merge_with a b =
      Done (mkALI (mkAVWS (Some (merge_kind ka kb))
                          (Sources (ValueInfo a) ∪ Sources (ValueInfo b)))
                  (IsMaybeUndefined a || IsMaybeUndefined b)).
Proof.
  destruct a as [[[ka|] sa] fa], b as [[[kb|] sb] fb];
    unfold local_invariant, state4, kind_of; simpl;
    intros [Ha Ha4] [Hb Hb4]; try done.
  exists ka, kb. split_and!; try done.
  unfold merge_with, AVWS_merge_with; simpl.
  apply AbstractLocalInfo_new_invariant.
  split; [done|]. unfold state4, kind_of; simpl.
  intros [[= Hk] Hf]. apply merge_kind_undefined in Hk as [-> ->].
  apply orb_false_iff in Hf as [-> ->]. by apply Ha4.
Qed.

Lemma merge_with_comm a b : merge_with a b = merge_with b a.
Proof.
  unfold merge_with.
  by rewrite AVWS_merge_with_comm, (orb_comm (IsMaybeUndefined a)).
Qed.

Lemma merge_with_idemp a : local_invariant a → merge_with a a = Done a.
Proof.
  intros H. destruct (merge_with_Done a a H H) as (ka & kb & Ha & Hb & ->).
  rewrite Ha in Hb; injection Hb as <-.
  destruct a as [[k s] f]; unfold kind_of in Ha; simpl in *; subst k.
  by rewrite merge_kind_idemp, (idemp_L (∪) s), orb_diag.
Qed.

(** C1: for any two AbstractLocalInfo values built by the constructors,
    [a.merge_with(b)] returns a value whose IsMaybeUndefined flag is the OR
    of the two flags and whose value component is the merge of the two
    value components; an Undefined side is absorbed into the other side, and
    the result is Undefined only when both sides are. *)
Theorem merge_with_flag_and_value (a b : AbstractLocalInfo) :
  constructed a → constructed b →
  ∃ r, merge_with a b = Done r
     ∧ IsMaybeUndefined r = IsMaybeUndefined a || IsMaybeUndefined b
     ∧ AVWS_merge_with (ValueInfo a) (ValueInfo b) = Done (ValueInfo r)
     ∧ (kind_of a = Some Undefined → kind_of r = kind_of b)
     ∧ (kind_of b = Some Undefined → kind_of r = kind_of a)
     ∧ (kind_of r = Some Undefined ↔
        kind_of a = Some Undefined ∧ kind_of b = Some Undefined).
Proof.
  intros Ha%constructed_invariant Hb%constructed_invariant.
  destruct (merge_with_Done a b Ha Hb) as (ka & kb & Hka & Hkb & Hm).
  eexists. split; [exact Hm|]. unfold kind_of in *. simpl.
  unfold AVWS_merge_with. rewrite Hka, Hkb. split_and!; try done.
  - intros [= ->]. done.
  - intros [= ->]. by rewrite merge_kind_undefined_r.
  - split.
    + intros [= H]. apply merge_kind_undefined in H as [-> ->]. done.
    + intros [[= ->] [= ->]]. done.
Qed.

Lemma merge_with_flag_and_value_witness :
  ∃ r, merge_with AbstractLocalInfo_default
                  (mkALI (mkAVWS (Some Int) {[LocalSource 0 1]}) false) = Done r
     ∧ IsMaybeUndefined r = true
     ∧ kind_of r = Some Int.
Proof.
  destruct (merge_with_flag_and_value AbstractLocalInfo_default
              (mkALI (mkAVWS (Some Int) {[LocalSource 0 1]}) false))
    as (r & Hr & Hf & _ & Hk & _).
  - apply constructed_default.
  - by apply (constructed_new (mkAVWS (Some Int) {[LocalSource 0 1]}) false).
  - exists r. split; [exact Hr|]. split; [exact Hf|]. by apply Hk.
Defined.

(** Whatever [merge_with] returns came out of the checked constructor. *)
Lemma merge_with_constructed a b r : merge_with a b = Done r → constructed r.
Proof.
  unfold merge_with. destruct (AVWS_merge_with _ _) as [v| |]; [|done..].
  simpl. apply constructed_new.
Qed.

(** C2: the default constructor gives Undefined with IsMaybeUndefined set,
    the checked constructor rejects Undefined with [isUndefined == false],
    merging two values that satisfy the invariant gives one that satisfies
    it, and no constructed value is in the fourth state. *)
Theorem undefined_state_excluded (v : AbstractValueWithSources)
    (a b c : AbstractLocalInfo) :
  Value v = Some Undefined →
  local_invariant a → local_invariant b →
  constructed c →
  (kind_of AbstractLocalInfo_default = Some Undefined
   ∧ IsMaybeUndefined AbstractLocalInfo_default = true)
  ∧ AbstractLocalInfo_new v false = AssertionFailed
  ∧ (∃ r, merge_with a b = Done r ∧ local_invariant r)
  ∧ ¬ state4 c.
Proof.
  intros Hv Ha Hb Hc. split_and!; try done.
  - unfold AbstractLocalInfo_new. by rewrite Hv.
  - destruct (merge_with_Done a b Ha Hb) as (ka & kb & Hka & Hkb & Hm).
    eexists; split; [exact Hm|].
    apply constructed_invariant.
    unfold merge_with, AVWS_merge_with, kind_of in *.
    rewrite Hka, Hkb in Hm. eapply constructed_new, Hm.
  - by apply constructed_invariant in Hc as [_ ?].
Qed.

Lemma undefined_state_excluded_witness :
  AbstractLocalInfo_new (mkAVWS (Some Undefined) ∅) false = AssertionFailed
  ∧ ∃ r, merge_with AbstractLocalInfo_default
                    (mkALI (mkAVWS (Some Float) ∅) false) = Done r
         ∧ local_invariant r.
Proof.
  destruct (undefined_state_excluded (mkAVWS (Some Undefined) ∅)
              AbstractLocalInfo_default (mkALI (mkAVWS (Some Float) ∅) false)
              AbstractLocalInfo_default)
    as (_ & Hnew & Hmerge & _).
  - reflexivity.
  - split; [done|]. by intros [_ ?].
  - split; [done|]. by intros [? _].
  - apply constructed_default.
  - split; [exact Hnew|exact Hmerge].
Defined.

(** ** Merging whole states *)

Lemma merge_positional_comm {A} (f : A → A → outcome A) xs ys :
  (∀ x y, f x y = f y x) →
  merge_positional f xs ys = merge_positional f ys xs.
Proof.
  intros Hf. revert ys. induction xs as [|x xs IH]; intros [|y ys]; simpl; try done.
  by rewrite Hf, IH.
Qed.

Lemma merge_positional_idemp {A} (f : A → A → outcome A) (P : A → Prop) xs :
  (∀ x, P x → f x x = Done x) →
  Forall P xs → merge_positional f xs xs = Done xs.
Proof.
  intros Hf. induction 1 as [|x xs Hx _ IH]; simpl; [done|].
  by rewrite Hf, IH.
Qed.

Lemma merge_comm a b : merge a b = merge b a.
Proof.
  unfold merge.
  rewrite (merge_positional_comm AVWS_merge_with (stack a)) by apply AVWS_merge_with_comm.
  by rewrite (merge_positional_comm merge_with (locals a)) by apply merge_with_comm.
Qed.

Lemma merge_idemp a : valid_snapshot a → merge a a = Done a.
Proof.
  intros [Hs Hl]. unfold merge.
  rewrite (merge_positional_idemp _ _ _ AVWS_merge_with_idemp Hs). simpl.
  rewrite (merge_positional_idemp _ _ _ merge_with_idemp Hl). simpl.
  by destruct a.
Qed.

(** C3: the merge is commutative and idempotent, on AbstractLocalInfo
    values and element-wise on whole states. *)
Theorem merge_commutative_idempotent (a b : AbstractLocalInfo) (A B : Snapshot) :
  constructed a → valid_snapshot A →
  merge_with a b = merge_with b a
  ∧ merge_with a a = Done a
  ∧ merge A B = merge B A
  ∧ merge A A = Done A.
Proof.
  intros Ha HA. split_and!.
  - apply merge_with_comm.
  - by apply merge_with_idemp, constructed_invariant.
  - apply merge_comm.
  - by apply merge_idemp.
Qed.

Lemma merge_commutative_idempotent_witness :
  let a := mkALI (mkAVWS (Some Int) {[ConstSource 2 0]}) false in
  let b := mkALI (mkAVWS (Some Float) {[LocalSource 4 1]}) true in
  let A := mkSnapshot [mkAVWS (Some Bool) ∅] [a; AbstractLocalInfo_default] in
  let B := mkSnapshot [mkAVWS (Some Bytes) ∅] [b; a] in
  merge_with a b = merge_with b a ∧ merge_with a a = Done a
  ∧ merge A B = merge B A ∧ merge A A = Done A.
Proof.
  intros a b A B.
  apply (merge_commutative_idempotent a b A B).
  - by apply (constructed_new (mkAVWS (Some Int) {[ConstSource 2 0]}) false).
  - split; repeat constructor; try done; by intros [? ?].
Defined.

(** ** InterpreterState: the stack *)

Lemma back_snoc {A} (l : list A) : l ≠ [] → ∃ x, last l = Some x ∧ l = removelast l ++ [x].
Proof.
  intros Hl. destruct (exists_last Hl) as (l' & x & ->).
  exists x. by rewrite last_snoc, removelast_last.
Qed.

(** C9: on a non-empty stack, [pop] and [pop_no_escape] remove exactly the
    top element; the stack gets one shorter, the elements below and all
    locals stay as they were.  [pop] marks the popped value as escaped and
    returns its [Value]; [pop_no_escape] returns the whole value and has no
    access to the escape marks. *)
Theorem pop_removes_top (s : InterpreterState) (e : EscapeStore) :
  m_stack s ≠ [] →
  ∃ top s',
    pop s e = Done (Value top, s', escapes top e)
    ∧ pop_no_escape s = Done (top, s')
    ∧ m_stack s = m_stack s' ++ [top]
    ∧ stack_size s = S (stack_size s')
    ∧ (∀ i, i < stack_size s' → stack_at s' i = stack_at s i)
    ∧ m_locals s' = m_locals s
    ∧ (∀ h j, get_local s' j h = get_local s j h)
    ∧ Sources top ⊆ escapes top e ∧ e ⊆ escapes top e.
Proof.
  intros Hne. destruct (back_snoc _ Hne) as (top & Hlast & Hsplit).
  exists top, (mkState (removelast (m_stack s)) (m_locals s)).
  unfold pop, pop_no_escape, back. rewrite Hlast. simpl.
  split_and!; try done.
  - unfold stack_size; simpl. rewrite Hsplit at 1. rewrite length_app; simpl. lia.
  - intros i Hi. unfold stack_at, at_index, stack_size in *; simpl in *.
    rewrite Hsplit at 2. by rewrite lookup_app_l.
  - unfold escapes. set_solver.
  - unfold escapes. set_solver.
Qed.

Lemma pop_removes_top_witness :
  let bottom := mkAVWS (Some Int) {[ConstSource 0 0]} in
  let top := mkAVWS (Some Float) {[LocalSource 1 0]} in
  ∃ s', pop (mkState [bottom; top] 7) ∅ = Done (Some Float, s', {[LocalSource 1 0]} ∪ ∅)
      ∧ pop_no_escape (mkState [bottom; top] 7) = Done (top, s')
      ∧ m_stack s' = [bottom].
Proof.
  intros bottom top.
  destruct (pop_removes_top (mkState [bottom; top] 7) ∅) as (t & s' & Hp & Hn & Hs & _).
  - discriminate.
  - simpl in Hs. change [bottom; top] with ([bottom] ++ [top]) in Hs.
    apply app_inj_tail in Hs as [Hs <-].
    exists s'. split; [exact Hp|]. split; [exact Hn|]. by symmetry.
Defined.

(** ** InterpreterState: copy-on-write locals *)

Lemma fresh_not_in_heap {T} (h : CowHeap T) a st :
  h !! a = Some st → fresh (dom h) ≠ a.
Proof.
  intros Hl Heq. apply (is_fresh (dom h)). rewrite Heq.
  apply elem_of_dom. by eexists.
Qed.

(** Replacing through a reference to a store that is shared leaves the
    store as it was, apart from the count. *)
Lemma CowVector_replace_shared {T} (v : CowVector) (i : nat) (x : T)
    (h : CowHeap T) (st : CowStore T) :
  h !! v = Some st → refcount st ≠ 1 → i < length (items st) →
  ∃ h' v', CowVector_replace v i x h = Done (h', v')
    ∧ v' ≠ v
    ∧ h' !! v = Some (mkCowStore (pred (refcount st)) (items st))
    ∧ h' !! v' = Some (mkCowStore 1 (<[i := x]> (items st))).
Proof.
  intros Hv Hrc Hi. unfold CowVector_replace. rewrite Hv.
  rewrite decide_False by done. rewrite decide_True by done.
  pose proof (fresh_not_in_heap h v st Hv) as Hfresh.
  eexists _, _. split; [reflexivity|]. split_and!; [done| |].
  - rewrite lookup_insert_ne by done. by rewrite lookup_insert_eq.
  - by rewrite lookup_insert_eq.
Qed.

(** C5: after a state is copied and a local of the copy is replaced, every
    read of the original state's locals returns what it returned before;
    the copy sees the new value at the replaced index. *)
Theorem cow_isolation (s : InterpreterState) (h : LocalsHeap)
    (st : CowStore AbstractLocalInfo) (i : nat) (v : AbstractLocalInfo) :
  h !! m_locals s = Some st → 0 < refcount st → i < length (items st) →
  ∃ h2 s'',
    replace_local (InterpreterState_copy s h).2 i v (InterpreterState_copy s h).1
      = Done (h2, s'')
    ∧ (∀ j, get_local s j h2 = get_local s j h)
    ∧ get_local s'' i h2 = Done v
    ∧ (∀ j, j ≠ i → get_local s'' j h2 = get_local s j h).
Proof.
  intros Hst Hrc Hi.
  unfold InterpreterState_copy, CowVector_copy, replace_local. simpl.
  set (h1 := alter _ (m_locals s) h).
  assert (H1 : h1 !! m_locals s = Some (mkCowStore (S (refcount st)) (items st))).
  { unfold h1. by rewrite lookup_alter_eq, Hst. }
  destruct (CowVector_replace_shared (m_locals s) i v h1 _ H1)
    as (h2 & v' & Hrep & Hne & Hold & Hnew); simpl; [lia|done|].
  rewrite Hrep. simpl. eexists _, _. split; [reflexivity|].
  unfold get_local, CowVector_get; simpl. rewrite Hold, Hnew, Hst; simpl.
  split_and!; try done.
  - unfold at_index. by rewrite list_lookup_insert_eq.
  - intros j Hj. unfold at_index. by rewrite list_lookup_insert_ne.
Qed.

Lemma cow_isolation_witness :
  let a := mkALI (mkAVWS (Some Int) ∅) false in
  let h : LocalsHeap := {[ 5 := mkCowStore 1 [AbstractLocalInfo_default; a] ]} in
  let s := mkState [] 5 in
  ∃ h2 s'',
    replace_local (InterpreterState_copy s h).2 0 a (InterpreterState_copy s h).1
      = Done (h2, s'')
    ∧ get_local s 0 h2 = Done AbstractLocalInfo_default
    ∧ get_local s'' 0 h2 = Done a.
Proof.
  intros a h s.
  destruct (cow_isolation s h (mkCowStore 1 [AbstractLocalInfo_default; a]) 0 a)
    as (h2 & s'' & Hr & Hold & Hnew & _).
  - reflexivity.
  - simpl; lia.
  - simpl; lia.
  - exists h2, s''. split; [exact Hr|]. split; [|exact Hnew].
    rewrite Hold. reflexivity.
Defined.

(** ** Module resolution *)

(** C7: [UserModule::ResolveMethod] returns the module's own mapping for a
    token when there is one and the parent's answer otherwise; likewise
    [ResolveMethodToken] for addresses. *)
Theorem resolve_else_delegate {P} `{IModule P} (m : UserModule P)
    (tokenId : Z) (addr : VoidPtr) :
  (∀ meth, m_tokenToMethod m !! tokenId = Some meth →
           ResolveMethod m tokenId = meth)
  ∧ (m_tokenToMethod m !! tokenId = None →
     ResolveMethod m tokenId = ResolveMethod (m_parent m) tokenId)
  ∧ (∀ tok, m_methodAddrToToken m !! addr = Some tok →
            ResolveMethodToken m addr = tok)
  ∧ (m_methodAddrToToken m !! addr = None →
     ResolveMethodToken m addr = ResolveMethodToken (m_parent m) addr).
Proof.
  simpl. unfold UserModule_ResolveMethod, UserModule_ResolveMethodToken.
  split_and!.
  - by intros meth ->.
  - by intros ->.
  - by intros tok ->.
  - by intros ->.
Qed.

Lemma resolve_else_delegate_witness :
  let root := mkRootModule {[ 1%Z := 100%N ]} {[ 100%N := 1%Z ]} in
  let user := mkUserModule root {[ 1048576%Z := 200%N ]} {[ 200%N := 1048576%Z ]} in
  ResolveMethod user 1048576 = 200%N
  ∧ ResolveMethod user 1 = 100%N
  ∧ ResolveMethodToken user 200%N = 1048576%Z
  ∧ ResolveMethodToken user 100%N = 1%Z.
Proof.
  intros root user. split_and!.
  - by apply (resolve_else_delegate user 1048576 200%N).
  - transitivity (ResolveMethod (m_parent user) 1); [|reflexivity].
    by apply (resolve_else_delegate user 1 100%N).
  - by apply (resolve_else_delegate user 1048576 200%N).
  - transitivity (ResolveMethodToken (m_parent user) 100%N); [|reflexivity].
    by apply (resolve_else_delegate user 1 100%N).
Defined.

(** ** ExceptionVars *)

(** C8: constructing [ExceptionVars(comp, isFinally)] calls
    [emit_define_local(false)] three times, and six times for a finally
    block, and nothing else of the compiler.  The locals the calls return
    are the fields, in order: the first three are PrevExc, PrevExcVal and
    PrevTraceback; for a finally block the next three are FinallyExc,
    FinallyTb and FinallyValue, which otherwise stay default-constructed.
    The compiler is left in the state those calls produce. *)
Theorem ExceptionVars_new_calls {C} `{IPythonCompiler C} (dflt : Local)
    (comp : Recording C) (isFinally : bool) :
  let r1 := emit_define_local false (inner comp) in
  let r2 := emit_define_local false r1.2 in
  let r3 := emit_define_local false r2.2 in
  let r4 := emit_define_local false r3.2 in
  let r5 := emit_define_local false r4.2 in
  let r6 := emit_define_local false r5.2 in
  calls (ExceptionVars_new dflt comp isFinally).2
    = calls comp ++ replicate (if isFinally then 6 else 3)
                               (Call_emit_define_local false)
  ∧ inner (ExceptionVars_new dflt comp isFinally).2
    = Nat.iter (if isFinally then 6 else 3)
               (λ c, (emit_define_local false c).2) (inner comp)
  ∧ (ExceptionVars_new dflt comp isFinally).1
    = (ExceptionVars_new dflt (inner comp) isFinally).1
  ∧ (ExceptionVars_new dflt comp isFinally).1
    = (if isFinally
       then mkExceptionVars r1.1 r2.1 r3.1 r4.1 r5.1 r6.1
       else mkExceptionVars r1.1 r2.1 r3.1 dflt dflt dflt)
  ∧ inner (ExceptionVars_new dflt comp isFinally).2
    = (if isFinally then r6.2 else r3.2).
Proof.
  unfold ExceptionVars_new. simpl.
  destruct comp as [c0 log]; simpl.
  destruct (emit_define_local false c0) as [l1 c1] eqn:E1; simpl.
  destruct (emit_define_local false c1) as [l2 c2] eqn:E2; simpl.
  destruct (emit_define_local false c2) as [l3 c3] eqn:E3; simpl.
  destruct isFinally; simpl.
  - destruct (emit_define_local false c3) as [l4 c4] eqn:E4; simpl.
    destruct (emit_define_local false c4) as [l5 c5] eqn:E5; simpl.
    destruct (emit_define_local false c5) as [l6 c6] eqn:E6; simpl.
    rewrite E1; simpl. rewrite E2; simpl. rewrite E3; simpl.
    rewrite E4; simpl. rewrite E5; simpl. rewrite E6; simpl.
    split_and!; [|done..]. by rewrite <- !(assoc_L (++)).
  - rewrite E1; simpl. rewrite E2; simpl. rewrite E3; simpl.
    split_and!; [|done..]. by rewrite <- !(assoc_L (++)).
Qed.

(** ** ILGenerator: the free lists *)

Lemma check_not_freed_Done localList local :
  m_index local ∉ m_index <$> localList → check_not_freed localList local = Done tt.
Proof.
  induction localList as [|l rest IH]; simpl; [done|].
  intros Hn. apply not_elem_of_cons in Hn as [Hne Hn].
  rewrite bool_decide_eq_false_2 by done. simpl. by apply IH.
Qed.

Lemma check_not_freed_fails localList local :
  m_index local ∈ m_index <$> localList →
  check_not_freed localList local = AssertionFailed.
Proof.
  induction localList as [|l rest IH]; simpl.
  - by intros ?%elem_of_nil.
  - intros Hin. destruct (decide (m_index l = m_index local)) as [Heq|Hne].
    + by rewrite bool_decide_eq_true_2.
    + rewrite bool_decide_eq_false_2 by done. simpl. apply IH.
      apply elem_of_cons in Hin as [Heq|Hin]; [congruence|done].
Qed.

Lemma check_not_freed_inv localList local :
  check_not_freed localList local = Done tt →
  m_index local ∉ m_index <$> localList.
Proof.
  intros Hd Hin. by rewrite (check_not_freed_fails _ _ Hin) in Hd.
Qed.

Lemma NoDup_removelast {A} (l : list A) : NoDup l → NoDup (removelast l).
Proof.
  destruct (decide (l = [])) as [->|Hne]; [done|].
  destruct (exists_last Hne) as (l' & x & ->).
  rewrite removelast_last. by intros [? _]%NoDup_app.
Qed.

Lemma fmap_removelast {A B} (f : A → B) (l : list A) :
  f <$> removelast l = removelast (f <$> l).
Proof.
  induction l as [|x l IH]; [done|]. destruct l as [|y l]; [done|].
  change (f <$> removelast (x :: y :: l)) with (f x :: (f <$> removelast (y :: l))).
  by rewrite IH.
Qed.

Lemma gen_step_free_lists opcode_byte g g' :
  gen_step true opcode_byte g g' → free_lists_nodup g → free_lists_nodup g'.
Proof.
  unfold free_lists_nodup.
  destruct 1 as [param g l g' Hd|param g l g' Hd|local g g' Hf|g|label g g' Hm
                |bt label g g' Hb|bt off g|b g]; intros Hnd; try done.
  - unfold define_local, at_index in Hd.
    destruct (m_freedLocals g !! m_type param) as [existing|] eqn:He; [|done].
    simpl in Hd. destruct (decide (length existing ≠ 0)).
    + destruct (existing !! (length existing - 1)); [|done].
      simpl in Hd. injection Hd as _ <-. simpl.
      apply Forall_insert; [done|]. rewrite fmap_removelast.
      apply NoDup_removelast. by eapply Forall_lookup_1 in Hnd.
    + unfold define_local_no_cache in Hd. case_decide; [done|].
      by injection Hd as _ <-.
  - unfold define_local_no_cache in Hd. case_decide; [done|].
    by injection Hd as _ <-.
  - unfold free_local, at_int, at_index in Hf.
    case_decide; [done|].
    destruct (gen_locals g !! _) as [param|]; [|done]. simpl in Hf.
    destruct (m_freedLocals g !! m_type param) as [localList|] eqn:He; [|done].
    simpl in Hf.
    destruct (check_not_freed localList local) as [[]| |] eqn:Hc; [|done..].
    simpl in Hf. injection Hf as <-. simpl.
    apply Forall_insert; [done|]. rewrite fmap_app. simpl.
    apply NoDup_app. split_and!.
    + by eapply Forall_lookup_1 in Hnd.
    + intros x Hx ->%list_elem_of_singleton.
      by apply (check_not_freed_inv _ _ Hc).
    + apply NoDup_singleton.
  - unfold mark_label in Hm.
    destruct (at_int _ _); [|done..]. simpl in Hm.
    destruct (assert _); [|done..]. simpl in Hm.
    destruct (patch_branches _ _ _); [|done..]. simpl in Hm.
    by injection Hm as <-.
  - unfold branch in Hb.
    destruct (at_int _ _); [|done..]. simpl in Hb.
    case_decide; injection Hb as <-; unfold branch_offset;
      by destruct (_ && _).
  - unfold branch_offset. by destruct (_ && _).
Qed.

Lemma reachable_free_lists opcode_byte g :
  reachable true opcode_byte g → free_lists_nodup g.
Proof.
  induction 1 as [n|g g' _ IH Hstep].
  - unfold free_lists_nodup. simpl. apply Forall_replicate. constructor.
  - by eapply gen_step_free_lists.
Qed.

(** C6 (as amended): when [_DEBUG] is defined, [free_local] of a local
    that is already on the free list of its type fails the assertion, a
    local just freed cannot be freed again, and no free list of a reachable
    generator holds a local index twice. *)
Theorem double_free_asserts_in_debug (opcode_byte : OPCODE → Z)
    (g : ILGenerator) (local : Local) (param : Param) (localList : list Local) :
  at_int (gen_locals g) (m_index local) = Done param →
  at_index (m_freedLocals g) (m_type param) = Done localList →
  m_index local ∈ m_index <$> localList →
  free_local true local g = AssertionFailed
  ∧ (∀ l g0 g1, free_local true l g0 = Done g1 →
                free_local true l g1 = AssertionFailed)
  ∧ (∀ g', reachable true opcode_byte g' → free_lists_nodup g').
Proof.
  intros Hparam Hlist Hin.
  assert (Hfail : ∀ g local param localList,
    at_int (gen_locals g) (m_index local) = Done param →
    at_index (m_freedLocals g) (m_type param) = Done localList →
    m_index local ∈ m_index <$> localList →
    free_local true local g = AssertionFailed).
  { clear. intros g local param localList Hparam Hlist Hin.
    unfold free_local. rewrite Hparam. simpl. rewrite Hlist. simpl.
    by rewrite check_not_freed_fails. }
  split_and!.
  - by eapply Hfail.
  - intros l g0 g1 Hf. unfold free_local in Hf.
    destruct (at_int (gen_locals g0) (m_index l)) as [p| |] eqn:Hp; [|done..].
    simpl in Hf. unfold at_index in Hf.
    destruct (m_freedLocals g0 !! m_type p) as [ls|] eqn:Hls; [|done].
    simpl in Hf. destruct (check_not_freed ls l) as [[]| |]; [|done..].
    simpl in Hf. injection Hf as <-.
    apply (Hfail _ l p (ls ++ [l])); simpl; [done| |].
    + unfold at_index. rewrite list_lookup_insert_eq; [done|].
      by eapply lookup_lt_Some.
    + rewrite fmap_app. apply elem_of_app. right. by left.
  - apply reachable_free_lists.
Qed.

Lemma double_free_asserts_in_debug_witness :
  free_local true (mkLocal 0) (generator_with_freed_local true) = AssertionFailed.
Proof.
  apply (double_free_asserts_in_debug ecma_opcode_byte
           (generator_with_freed_local true) (mkLocal 0) (mkParam 0) [mkLocal 0]).
  - reflexivity.
  - reflexivity.
  - by left.
Defined.

(** C6 as stated, for every build: without [_DEBUG] nothing checks the
    free list, a second [free_local] of the same local returns normally and
    leaves its index on the list twice. *)
Lemma double_free_unchecked_without_debug :
  m_freedLocals (generator_with_freed_local false) = [[mkLocal 0]]
  ∧ ∃ g', free_local false (mkLocal 0) (generator_with_freed_local false) = Done g'
        ∧ m_freedLocals g' = [[mkLocal 0; mkLocal 0]]
        ∧ ¬ free_lists_nodup g'
        ∧ reachable false ecma_opcode_byte g'.
Proof.
  split; [reflexivity|].
  eexists. split; [reflexivity|]. split; [reflexivity|]. split.
  - intros [Hnd _]%Forall_cons. simpl in Hnd.
    apply NoDup_cons in Hnd as [Hnin _]. apply Hnin. by left.
  - eapply reach_step; [eapply reach_step; [eapply reach_step; [apply (reach_new _ _ 1)|]|]|].
    + by eapply (step_define_local _ _ (mkParam 0)).
    + by eapply (step_free_local _ _ (mkLocal 0)).
    + by eapply (step_free_local _ _ (mkLocal 0)).
Qed.

(** ** ILGenerator: labels and branches *)

Section Labels.
Local Open Scope Z_scope.

Lemma to_int_small z : -2147483648 ≤ z < 2147483648 → to_int z = z.
Proof. intros H. unfold to_int. rewrite Z.mod_small by lia. lia. Qed.

Lemma to_char_small z : -128 ≤ z < 128 → to_char z = z.
Proof. intros H. unfold to_char. rewrite Z.mod_small by lia. lia. Qed.

Lemma to_byte_land z : to_byte (Z.land z 255) = Z.land z 255.
Proof.
  unfold to_byte. change 255 with (Z.ones 8).
  rewrite Z.land_ones by lia. change (2 ^ 8) with 256.
  by rewrite Z.mod_mod.
Qed.

(** [int_bytes] is the little-endian two's complement encoding on four
    bytes. *)
Lemma int_bytes_little_endian value :
  Forall (λ b, 0 ≤ b < 256) (int_bytes value)
  ∧ le_value (int_bytes value) = value mod 4294967296.
Proof.
  unfold int_bytes, le_value. simpl.
  change 255 with (Z.ones 8). rewrite !Z.land_ones by lia.
  rewrite !Z.shiftr_div_pow2 by lia.
  change (2 ^ 8) with 256. change (2 ^ 16) with (256 * 256).
  change (2 ^ 24) with (256 * (256 * 256)).
  rewrite <- !Z.div_div by lia.
  set (q1 := value / 256). set (q2 := q1 / 256). set (q3 := q2 / 256).
  pose proof (Z.div_mod value 256 ltac:(lia)) as H0.
  pose proof (Z.div_mod q1 256 ltac:(lia)) as H1.
  pose proof (Z.div_mod q2 256 ltac:(lia)) as H2.
  pose proof (Z.div_mod q3 256 ltac:(lia)) as H3.
  pose proof (Z.mod_pos_bound value 256 ltac:(lia)).
  pose proof (Z.mod_pos_bound q1 256 ltac:(lia)).
  pose proof (Z.mod_pos_bound q2 256 ltac:(lia)).
  pose proof (Z.mod_pos_bound q3 256 ltac:(lia)).
  fold q1 in H0. fold q2 in H1. fold q3 in H2.
  split.
  - repeat constructor; lia.
  - apply (Z.mod_unique _ _ (q3 / 256)); lia.
Qed.

Lemma store_int_Done {A} (v : list A) i x :
  0 ≤ i < Z.of_nat (length v) →
  store_int v i x = Done (<[Z.to_nat i := x]> v).
Proof. intros H. unfold store_int. by rewrite decide_True. Qed.

Lemma patch_branch_Done location il from :
  0 ≤ from → from + 4 ≤ Z.of_nat (length il) →
  patch_branch location il from
  = Done (patched il from (to_int (location - to_int (from + 4)))).
Proof.
  intros H0 H4. unfold patch_branch, patched.
  rewrite store_int_Done by lia. simpl.
  rewrite store_int_Done by (rewrite length_insert; lia). simpl.
  rewrite store_int_Done by (rewrite !length_insert; lia). simpl.
  by rewrite store_int_Done by (rewrite !length_insert; lia).
Qed.

Lemma patched_length il from offset : length (patched il from offset) = length il.
Proof. unfold patched. by rewrite !length_insert. Qed.

Lemma patched_word il from offset :
  0 ≤ from → from + 4 ≤ Z.of_nat (length il) →
  il_word (patched il from offset) from = Some <$> int_bytes offset.
Proof.
  intros H0 H4. unfold il_word, int_bytes. simpl.
  replace (Z.to_nat from + 0)%nat with (Z.to_nat from) by lia.
  replace (Z.to_nat from + 1)%nat with (Z.to_nat (from + 1)) by lia.
  replace (Z.to_nat from + 2)%nat with (Z.to_nat (from + 2)) by lia.
  replace (Z.to_nat from + 3)%nat with (Z.to_nat (from + 3)) by lia.
  unfold patched.
  repeat match goal with |- _ :: _ = _ :: _ => f_equal end.
  - rewrite !list_lookup_insert_ne by lia.
    by rewrite list_lookup_insert_eq by lia.
  - rewrite !list_lookup_insert_ne by lia.
    by rewrite list_lookup_insert_eq by (rewrite !length_insert; lia).
  - rewrite !list_lookup_insert_ne by lia.
    by rewrite list_lookup_insert_eq by (rewrite !length_insert; lia).
  - by rewrite list_lookup_insert_eq by (rewrite !length_insert; lia).
Qed.

Lemma patched_outside il from offset (k : nat) :
  0 ≤ from → ¬ (from ≤ Z.of_nat k < from + 4) →
  patched il from offset !! k = il !! k.
Proof.
  intros H0 Hk. unfold patched. by rewrite !list_lookup_insert_ne by lia.
Qed.

Lemma il_word_outside il il' from :
  0 ≤ from →
  (∀ k : nat, from ≤ Z.of_nat k < from + 4 → il' !! k = il !! k) →
  il_word il' from = il_word il from.
Proof.
  intros H0 H. unfold il_word. simpl. rewrite !H by lia. done.
Qed.

(** The loop of [mark_label] over sites that are in order: every site ends
    up holding the distance to the label, the rest of the IL is as before. *)
Lemma patch_branches_Done location il offsets :
  sites_ok offsets (Z.of_nat (length il)) →
  ∃ il', patch_branches location il offsets = Done il'
    ∧ length il' = length il
    ∧ (∀ from, from ∈ offsets →
         il_word il' from = Some <$> int_bytes (to_int (location - to_int (from + 4))))
    ∧ (∀ k : nat, (∀ from, from ∈ offsets → ¬ (from ≤ Z.of_nat k < from + 4)) →
         il' !! k = il !! k).
Proof.
  revert il. induction offsets as [|from rest IH]; intros il [Hin Hsp]; simpl.
  - exists il. split_and!; try done. by intros ? ?%elem_of_nil.
  - apply Forall_cons in Hin as [[H1 H4] Hin]. destruct Hsp as [Hgap Hsp].
    rewrite patch_branch_Done by lia. simpl.
    destruct (IH (patched il from (to_int (location - to_int (from + 4)))))
      as (il' & Hd & Hlen & Hw & Hout).
    { rewrite patched_length. by split. }
    exists il'. rewrite patched_length in Hlen. split_and!; try done.
    + intros f [->|Hf]%elem_of_cons; [|by apply Hw].
      transitivity (il_word (patched il from (to_int (location - to_int (from + 4)))) from);
        [|apply patched_word; lia].
      apply il_word_outside; [lia|]. intros k Hk. apply Hout.
      intros b Hb. rewrite Forall_forall in Hgap. specialize (Hgap b Hb). lia.
    + intros k Hk. rewrite Hout.
      * apply patched_outside; [lia|]. apply Hk. by left.
      * intros b Hb. apply Hk. by right.
Qed.

Lemma at_int_Done {A} (v : list A) i x :
  at_int v i = Done x ↔ 0 ≤ i ∧ v !! Z.to_nat i = Some x.
Proof.
  unfold at_int, at_index. case_decide as Hi.
  - split; [done|]. intros [? _]. lia.
  - destruct (v !! Z.to_nat i) as [y|]; split.
    + intros [= ->]. split; [lia|done].
    + by intros [_ [= ->]].
    + done.
    + by intros [_ ?].
Qed.

Lemma sites_ok_mono offsets n m : sites_ok offsets n → n ≤ m → sites_ok offsets m.
Proof.
  intros [Hin Hsp] Hle. split; [|done].
  eapply Forall_impl; [exact Hin|]. simpl. lia.
Qed.

Lemma spaced_snoc offsets x :
  spaced offsets → Forall (λ a, a + 4 < x) offsets → spaced (offsets ++ [x]).
Proof.
  induction offsets as [|a rest IH]; simpl; [done|].
  intros [Hgap Hsp] [Ha Hrest]%Forall_cons. split; [|by apply IH].
  apply Forall_app. split; [done|]. by apply Forall_singleton.
Qed.

Lemma labels_ok_grow g g' :
  labels_ok g → m_labels g' = m_labels g →
  Z.of_nat (length (m_il g)) ≤ Z.of_nat (length (m_il g')) → labels_ok g'.
Proof.
  unfold labels_ok. intros Hok -> Hle.
  eapply Forall_impl; [exact Hok|]. simpl. intros info [Hs Hl]. split.
  - by eapply sites_ok_mono.
  - lia.
Qed.

Lemma branch_offset_labels ob bt off g :
  m_labels (branch_offset ob bt off g) = m_labels g.
Proof. unfold branch_offset. by destruct (_ && _). Qed.

Lemma branch_offset_il ob bt off g :
  m_il (branch_offset ob bt off g)
  = m_il g ++
    (if ((to_int (off - 2) <=? 128) && (to_int (off - 2) >=? -127))%Z
     then [to_byte (ob (short_branch bt)); to_byte (to_char off - 2)]
     else to_byte (ob (long_branch bt)) :: int_bytes (to_int (off - 5))).
Proof.
  unfold branch_offset. destruct (_ && _); simpl.
  - by rewrite <- (assoc_L (++)).
  - rewrite !to_byte_land. by rewrite <- !(assoc_L (++)).
Qed.

Lemma branch_offset_length ob bt off g :
  (length (m_il g) < length (m_il (branch_offset ob bt off g)))%nat.
Proof.
  rewrite branch_offset_il, length_app. destruct (_ && _); simpl; lia.
Qed.

Lemma branch_offset_far ob bt g :
  m_il (branch_offset ob bt 65535 g)
  = m_il g ++ to_byte (ob (long_branch bt)) :: int_bytes 65530.
Proof. by rewrite branch_offset_il. Qed.

(** [mark_label] on an unbound label whose sites are in order. *)
Lemma mark_label_unbound g label info :
  Z.of_nat (length (m_il g)) < 2147483648 →
  at_int (m_labels g) (label_index label) = Done info →
  m_location info = -1 →
  sites_ok (m_branchOffsets info) (Z.of_nat (length (m_il g))) →
  ∃ il',
    mark_label label g
    = Done (mkILGenerator (gen_locals g) (m_freedLocals g) il' (m_localCount g)
              (<[Z.to_nat (label_index label) :=
                   mkLabelInfo (Z.of_nat (length (m_il g))) (m_branchOffsets info)]>
                 (m_labels g)))
    ∧ length il' = length (m_il g)
    ∧ (∀ from, from ∈ m_branchOffsets info →
         il_word il' from
         = Some <$> int_bytes (Z.of_nat (length (m_il g)) - (from + 4)))
    ∧ (∀ k : nat,
         (∀ from, from ∈ m_branchOffsets info → ¬ (from ≤ Z.of_nat k < from + 4)) →
         il' !! k = m_il g !! k).
Proof.
  intros Hsize Hat Hloc Hsites. unfold mark_label. rewrite Hat. simpl.
  rewrite bool_decide_eq_true_2 by done. simpl.
  rewrite (to_int_small (Z.of_nat _)) by lia.
  destruct (patch_branches_Done (Z.of_nat (length (m_il g))) (m_il g)
              (m_branchOffsets info) Hsites) as (il' & -> & Hlen & Hw & Hout).
  simpl. exists il'. split_and!; try done.
  intros from Hfrom. rewrite (Hw from Hfrom).
  destruct Hsites as [Hin _]. rewrite Forall_forall in Hin.
  specialize (Hin from Hfrom). simpl in Hin.
  by rewrite !to_int_small by (rewrite ?to_int_small; lia).
Qed.

Lemma patch_branches_length location il offsets il' :
  patch_branches location il offsets = Done il' → length il' = length il.
Proof.
  revert il. induction offsets as [|from rest IH]; intros il; simpl.
  - by intros [= ->].
  - unfold patch_branch, store_int. repeat (case_decide; simpl; [|done]).
    intros Hr%IH. by rewrite !length_insert in Hr.
Qed.

Lemma gen_step_il_length D ob g g' :
  gen_step D ob g g' → (length (m_il g) ≤ length (m_il g'))%nat.
Proof.
  destruct 1 as [param g l g' Hd|param g l g' Hd|local g g' Hf|g|label g g' Hm
                |bt label g g' Hb|bt off g|b g]; simpl; try done.
  - unfold define_local in Hd. destruct (at_index _ _); [|done..]. simpl in Hd.
    case_decide.
    + destruct (at_index _ _); [|done..]. simpl in Hd. by injection Hd as _ <-.
    + unfold define_local_no_cache in Hd. case_decide; [done|].
      by injection Hd as _ <-.
  - unfold define_local_no_cache in Hd. case_decide; [done|].
    by injection Hd as _ <-.
  - unfold free_local in Hf. destruct (at_int _ _); [|done..]. simpl in Hf.
    destruct (at_index _ _); [|done..]. simpl in Hf.
    destruct (if D then _ else _); [|done..]. simpl in Hf. by injection Hf as <-.
  - unfold mark_label in Hm.
    destruct (at_int _ _) as [info| |]; [|done..]. simpl in Hm.
    destruct (assert _); [|done..]. simpl in Hm.
    destruct (patch_branches _ _ _) as [il'| |] eqn:Hp; [|done..]. simpl in Hm.
    injection Hm as <-. simpl.
    by rewrite (patch_branches_length _ _ _ _ Hp).
  - unfold branch in Hb. destruct (at_int _ _); [|done..]. simpl in Hb.
    case_decide; injection Hb as <-.
    + etrans; [|apply Nat.lt_le_incl, branch_offset_length]. done.
    + apply Nat.lt_le_incl, branch_offset_length.
  - apply Nat.lt_le_incl, branch_offset_length.
  - rewrite length_app. simpl. lia.
Qed.

Lemma gen_step_labels_ok D ob g g' :
  gen_step D ob g g' → Z.of_nat (length (m_il g')) < 2147483648 →
  labels_ok g → labels_ok g'.
Proof.
  intros Hstep Hsize Hok.
  pose proof (gen_step_il_length _ _ _ _ Hstep) as Hlen.
  destruct Hstep as [param g l g' Hd|param g l g' Hd|local g g' Hf|g|label g g' Hm
                |bt label g g' Hb|bt off g|b g].
  - apply (labels_ok_grow g); [done| |lia].
    unfold define_local in Hd. destruct (at_index _ _); [|done..]. simpl in Hd.
    case_decide.
    + destruct (at_index _ _); [|done..]. simpl in Hd. by injection Hd as _ <-.
    + unfold define_local_no_cache in Hd. case_decide; [done|].
      by injection Hd as _ <-.
  - apply (labels_ok_grow g); [done| |lia].
    unfold define_local_no_cache in Hd. case_decide; [done|].
    by injection Hd as _ <-.
  - apply (labels_ok_grow g); [done| |lia].
    unfold free_local in Hf. destruct (at_int _ _); [|done..]. simpl in Hf.
    destruct (at_index _ _); [|done..]. simpl in Hf.
    destruct (if D then _ else _); [|done..]. simpl in Hf. by injection Hf as <-.
  - unfold labels_ok in *. simpl. apply Forall_app. split; [done|].
    apply Forall_singleton. simpl. split; [|by left]. by split.
  - destruct (at_int (m_labels g) (label_index label)) as [info| |] eqn:Hat;
      [|unfold mark_label in Hm; rewrite Hat in Hm; done..].
    assert (Hloc : m_location info = -1).
    { unfold mark_label in Hm. rewrite Hat in Hm. simpl in Hm.
      destruct (decide (m_location info = -1)) as [|Hne]; [done|].
      by rewrite bool_decide_eq_false_2 in Hm. }
    apply at_int_Done in Hat as Hat'. destruct Hat' as [Hidx Hlook].
    assert (Hs : sites_ok (m_branchOffsets info) (Z.of_nat (length (m_il g)))).
    { unfold labels_ok in Hok. by eapply Forall_lookup_1 in Hok as [? _]. }
    destruct (mark_label_unbound g label info) as (il' & Hd & Hl' & _); try done; [lia|].
    rewrite Hd in Hm. injection Hm as <-. unfold labels_ok in *. simpl.
    rewrite Hl'. apply Forall_insert; [done|]. simpl. split; [done|]. right. lia.
  - unfold branch in Hb.
    destruct (at_int (m_labels g) (label_index label)) as [info| |] eqn:Hat; [|done..].
    simpl in Hb. apply at_int_Done in Hat as [Hidx Hlook].
    case_decide as Hloc; injection Hb as <-.
    + unfold labels_ok in *.
      rewrite branch_offset_labels, branch_offset_far in *. simpl in *.
      rewrite length_app in *. simpl in *.
      apply Forall_insert.
      * eapply Forall_impl; [exact Hok|]. simpl. intros i [Hs Hl]. split.
        -- eapply sites_ok_mono; [done|lia].
        -- lia.
      * simpl. eapply Forall_lookup_1 in Hok as [[Hin Hsp] Hl]; [|done].
        rewrite !to_int_small by (rewrite ?to_int_small; lia).
        split; [|by left]. split.
        -- apply Forall_app. split.
           ++ eapply Forall_impl; [exact Hin|]. simpl. lia.
           ++ apply Forall_singleton. lia.
        -- apply spaced_snoc; [done|].
           eapply Forall_impl; [exact Hin|]. simpl. lia.
    + apply (labels_ok_grow g); [done|apply branch_offset_labels|lia].
  - apply (labels_ok_grow g); [done|apply branch_offset_labels|lia].
  - apply (labels_ok_grow g); [done|done|lia].
Qed.

Lemma reachable_labels_ok D ob g :
  reachable D ob g → Z.of_nat (length (m_il g)) < 2147483648 → labels_ok g.
Proof.
  induction 1 as [n|g g' Hr IH Hstep]; intros Hsize.
  - by apply Forall_nil.
  - pose proof (gen_step_il_length _ _ _ _ Hstep).
    eapply gen_step_labels_ok; [done|done|]. apply IH. lia.
Qed.



End Labels.

(** ** The fixed-point analysis *)

Lemma sum_list_fmap_le {A} (f g : A → nat) (l : list A) :
  (∀ x, x ∈ l → f x ≤ g x) → sum_list (f <$> l) ≤ sum_list (g <$> l).
Proof.
  induction l as [|x l IH]; csimpl; [done|]. intros H.
  pose proof (H x (list_elem_of_here _ _)).
  assert (sum_list (f <$> l) ≤ sum_list (g <$> l)).
  { apply IH. intros y Hy. apply H. by right. }
  lia.
Qed.

Lemma sum_list_fmap_lt {A} (f g : A → nat) (l : list A) (a : A) :
  (∀ x, x ∈ l → f x ≤ g x) → a ∈ l → f a < g a →
  sum_list (f <$> l) < sum_list (g <$> l).
Proof.
  induction l as [|x l IH]; csimpl; [by intros _ ?%elem_of_nil|].
  intros H Ha Hlt.
  pose proof (H x (list_elem_of_here _ _)).
  assert (Hle : sum_list (f <$> l) ≤ sum_list (g <$> l)).
  { apply sum_list_fmap_le. intros y Hy. apply H. by right. }
  apply elem_of_cons in Ha as [->|Ha]; [lia|].
  assert (sum_list (f <$> l) < sum_list (g <$> l)); [|lia].
  apply IH; [|done..]. intros y Hy. apply H. by right.
Qed.

Lemma kind_rank_merge a b :
  kind_rank (Some (merge_kind a b)) ≤ kind_rank (Some a)
  ∧ (kind_rank (Some (merge_kind a b)) = kind_rank (Some a) → merge_kind a b = a).
Proof. destruct a, b; simpl; split; (lia || done). Qed.

Section Height.
Variable universe : gset AbstractSource.

Lemma sources_rank_merge (x y : gset AbstractSource) :
  x ⊆ universe → y ⊆ universe →
  size (universe ∖ (x ∪ y)) ≤ size (universe ∖ x)
  ∧ (size (universe ∖ (x ∪ y)) = size (universe ∖ x) → x ∪ y = x).
Proof.
  intros Hx Hy.
  assert (Hsub : universe ∖ (x ∪ y) ⊆ universe ∖ x).
  { intros s. rewrite !elem_of_difference, elem_of_union. tauto. }
  split; [by apply subseteq_size|].
  intros Heq. apply set_subseteq_size_eq in Hsub; [|lia].
  apply set_eq. intros s.
  rewrite elem_of_union. split; [|by left].
  intros [?|Hs]; [done|].
  destruct (decide (s ∈ x)) as [|Hn]; [done|].
  assert (s ∈ universe ∖ (x ∪ y)) as Hin.
  { rewrite Hsub. apply elem_of_difference. split; [by apply Hy|done]. }
  apply elem_of_difference in Hin as [_ Hin]. destruct Hin.
  apply elem_of_union. by right.
Qed.

Lemma value_rank_merge x y r :
  AVWS_merge_with x y = Done r →
  Sources x ⊆ universe → Sources y ⊆ universe →
  value_rank universe r ≤ value_rank universe x
  ∧ (value_rank universe r = value_rank universe x → r = x)
  ∧ Sources r ⊆ universe.
Proof.
  unfold AVWS_merge_with, value_rank.
  destruct x as [[kx|] sx], y as [[ky|] sy]; simpl; try done.
  intros [= <-] Hx Hy. simpl.
  destruct (kind_rank_merge kx ky) as [Hk Hke].
  destruct (sources_rank_merge sx sy Hx Hy) as [Hs Hse].
  split_and!.
  - simpl in *. lia.
  - intros Heq. simpl in *. rewrite Hke, Hse by lia. done.
  - by apply union_least.
Qed.

Lemma local_rank_merge x y r :
  merge_with x y = Done r →
  Sources (ValueInfo x) ⊆ universe → Sources (ValueInfo y) ⊆ universe →
  local_rank universe r ≤ local_rank universe x
  ∧ (local_rank universe r = local_rank universe x → r = x)
  ∧ Sources (ValueInfo r) ⊆ universe.
Proof.
  unfold merge_with, local_rank. intros Hm Hx Hy.
  destruct (AVWS_merge_with (ValueInfo x) (ValueInfo y)) as [v| |] eqn:Hv; [|done..].
  simpl in Hm. apply AbstractLocalInfo_new_Done in Hm as (-> & _ & _). simpl.
  destruct (value_rank_merge _ _ _ Hv Hx Hy) as (Hle & Heq & Hsub).
  destruct x as [vx fx]; simpl in *. split_and!; [| |done].
  - destruct fx, (IsMaybeUndefined y); simpl; lia.
  - destruct fx, (IsMaybeUndefined y); simpl; intros ?; try lia;
      rewrite Heq by lia; done.
Qed.

(** The positional merge of two sequences goes down in rank, and keeps
    the rank only when it keeps the first sequence. *)
Lemma merge_positional_rank {A} (f : A → A → outcome A) (rank : A → nat)
    (P : A → Prop) :
  (∀ x y r, f x y = Done r → P x → P y →
     rank r ≤ rank x ∧ (rank r = rank x → r = x) ∧ P r) →
  ∀ xs ys rs, merge_positional f xs ys = Done rs →
    Forall P xs → Forall P ys →
    sum_list (rank <$> rs) ≤ sum_list (rank <$> xs)
    ∧ (sum_list (rank <$> rs) = sum_list (rank <$> xs) → rs = xs)
    ∧ Forall P rs.
Proof.
  intros Hf. induction xs as [|x xs IH]; intros [|y ys] rs; simpl; try done.
  - by intros [= <-].
  - destruct (f x y) as [r| |] eqn:Hr; [|done..]. simpl.
    destruct (merge_positional f xs ys) as [rs'| |] eqn:Hrs; [|done..]. simpl.
    intros [= <-] [Hx Hxs]%Forall_cons [Hy Hys]%Forall_cons.
    destruct (Hf _ _ _ Hr Hx Hy) as (Hle & Heq & HP).
    destruct (IH _ _ Hrs Hxs Hys) as (Hles & Heqs & HPs).
    csimpl. split; [lia|]. split; [|by constructor].
    intros ?. rewrite Heq, Heqs by lia. done.
Qed.

Lemma snapshot_rank_merge a b m :
  merge a b = Done m → within universe a → within universe b →
  snapshot_rank universe m ≤ snapshot_rank universe a
  ∧ (snapshot_rank universe m = snapshot_rank universe a → m = a)
  ∧ within universe m.
Proof.
  unfold merge, snapshot_rank, within. intros Hm [Has Hal] [Hbs Hbl].
  destruct (merge_positional AVWS_merge_with _ _) as [st| |] eqn:Hst; [|done..].
  simpl in Hm.
  destruct (merge_positional merge_with _ _) as [lo| |] eqn:Hlo; [|done..].
  simpl in Hm. injection Hm as <-. simpl.
  destruct (merge_positional_rank AVWS_merge_with (value_rank universe)
              (λ v, Sources v ⊆ universe) value_rank_merge _ _ _ Hst Has Hbs)
    as (Hs1 & Hs2 & Hs3).
  destruct (merge_positional_rank merge_with (local_rank universe)
              (λ a, Sources (ValueInfo a) ⊆ universe) local_rank_merge _ _ _ Hlo Hal Hbl)
    as (Hl1 & Hl2 & Hl3).
  split_and!; [lia| |done|done].
  intros ?. destruct a; simpl in *. rewrite Hs2, Hl2 by lia. done.
Qed.
End Height.

Section Analysis.
Variable universe : gset AbstractSource.
Variable size : nat.
Variable transfer : Transfer.
Hypothesis stream_ok : well_formed_stream universe size transfer.

Lemma progress_trans t1 t2 t3 :
  progress universe size t3 t2 → progress universe size t2 t1 →
  progress universe size t3 t1.
Proof. unfold progress. lia. Qed.

Lemma unrecorded_insert_new (t : StartStates) idx st :
  idx < size → t !! idx = None →
  unrecorded size (<[idx := st]> t) < unrecorded size t.
Proof.
  intros Hidx Hnone. unfold unrecorded.
  apply (sum_list_fmap_lt _ _ _ idx).
  - intros o _. destruct (decide (o = idx)) as [->|Hne].
    + rewrite lookup_insert_eq, Hnone. lia.
    + by rewrite lookup_insert_ne.
  - apply elem_of_seq. lia.
  - rewrite lookup_insert_eq, Hnone. lia.
Qed.

Lemma unrecorded_insert_old (t : StartStates) idx old st :
  t !! idx = Some old →
  unrecorded size (<[idx := st]> t) = unrecorded size t.
Proof.
  intros Hold. unfold unrecorded. f_equal. apply list_fmap_ext.
  intros _ o _. destruct (decide (o = idx)) as [->|Hne].
  - by rewrite lookup_insert_eq, Hold.
  - by rewrite lookup_insert_ne.
Qed.

Lemma total_rank_insert_lower (t : StartStates) idx old st :
  idx < size → t !! idx = Some old →
  snapshot_rank universe st < snapshot_rank universe old →
  total_rank universe size (<[idx := st]> t) < total_rank universe size t.
Proof.
  intros Hidx Hold Hlt. unfold total_rank.
  apply (sum_list_fmap_lt _ _ _ idx).
  - intros o _. destruct (decide (o = idx)) as [->|Hne].
    + rewrite lookup_insert_eq, Hold. simpl. lia.
    + by rewrite lookup_insert_ne.
  - apply elem_of_seq. lia.
  - rewrite lookup_insert_eq, Hold. simpl. lia.
Qed.

Lemma table_within_insert (t : StartStates) idx st :
  table_within universe t → within universe st →
  table_within universe (<[idx := st]> t).
Proof.
  intros Ht Hst o s. destruct (decide (o = idx)) as [->|Hne].
  - rewrite lookup_insert_eq. by intros [= <-].
  - rewrite lookup_insert_ne by done. apply Ht.
Qed.

(** Merging a state into the table: either nothing changes, or the table
    makes progress. *)
Lemma update_start_state_progress st idx (t t' : StartStates) changed :
  update_start_state st idx t = Done (t', changed) →
  idx < size → within universe st → table_within universe t →
  table_within universe t'
  ∧ (if changed then progress universe size t' t else t' = t).
Proof.
  unfold update_start_state. intros Hu Hidx Hst Ht.
  destruct (t !! idx) as [old|] eqn:Hold.
  - unfold merge_states in Hu.
    destruct (merge old st) as [merged| |] eqn:Hm; [|done..].
    simpl in Hu. injection Hu as <- <-.
    destruct (snapshot_rank_merge universe old st merged Hm (Ht _ _ Hold) Hst)
      as (Hle & Heq & Hw).
    case_bool_decide as Hne.
    + split; [by apply table_within_insert|]. right. split.
      * by eapply unrecorded_insert_old.
      * eapply total_rank_insert_lower; [done..|].
        destruct (decide (snapshot_rank universe merged = snapshot_rank universe old))
          as [He|]; [|lia]. by destruct Hne, Heq.
    + done.
  - injection Hu as <- <-. split; [by apply table_within_insert|].
    left. by apply unrecorded_insert_new.
Qed.

Lemma merge_successors_progress succs (t t' : StartStates) q q' :
  merge_successors succs t q = Done (t', q') →
  Forall (λ ts : nat * Snapshot, ts.1 < size ∧ within universe ts.2) succs →
  table_within universe t → Forall (λ o, o < size) q →
  table_within universe t' ∧ Forall (λ o, o < size) q'
  ∧ ((t' = t ∧ q' = q) ∨ progress universe size t' t).
Proof.
  revert t q. induction succs as [|[target st] rest IH]; intros t q; simpl.
  - intros [= <- <-]. by auto.
  - intros Hm [[Htarget Hst] Hrest]%Forall_cons Ht Hq. simpl in *.
    destruct (update_start_state st target t) as [[t1 changed]| |] eqn:Hu; [|done..].
    simpl in Hm.
    destruct (update_start_state_progress _ _ _ _ _ Hu Htarget Hst Ht) as [Ht1 Hch].
    destruct (IH _ _ Hm Hrest Ht1) as (Ht' & Hq' & Hres).
    { destruct changed; [|done]. apply Forall_app. split; [done|].
      by apply Forall_singleton. }
    split_and!; [done..|].
    destruct changed.
    + right. destruct Hres as [[-> _]|Hp]; [done|]. by eapply progress_trans.
    + subst t1. done.
Qed.

(** The worklist loop ends from every table and queue, by induction on
    the number of offsets without a state, then on the total rank of the
    recorded states, then on the length of the queue. *)
Lemma interpret_loop_terminates (t : StartStates) (q : list nat) :
  table_within universe t → Forall (λ o, o < size) q →
  ∃ fuel result, interpret_loop fuel transfer t q = Some result.
Proof.
  remember (unrecorded size t) as u eqn:Hu.
  revert t q Hu. induction u as [u IHu] using lt_wf_ind. intros t q Hu.
  remember (total_rank universe size t) as r eqn:Hr.
  revert t q Hu Hr. induction r as [r IHr] using lt_wf_ind. intros t q Hu Hr.
  induction q as [|cur q IHq]; intros Ht Hq.
  - by exists 1, (Done (true, t)).
  - apply Forall_cons in Hq as [Hcur Hq].
    destruct (t !! cur) as [lastState|] eqn:Hlast;
      [|exists 1, UndefinedBehaviour; simpl; by rewrite Hlast].
    destruct (transfer cur lastState) as [[succs|]| |] eqn:Htr;
      [|exists 1; eexists; simpl; by rewrite Hlast, Htr..].
    destruct (merge_successors succs t q) as [[t' q']| |] eqn:Hm;
      [|exists 1; eexists; simpl; by rewrite Hlast, Htr, Hm..].
    destruct stream_ok as [_ Hsucc].
    destruct (merge_successors_progress _ _ _ _ _ Hm
                (Hsucc _ _ _ Hcur (Ht _ _ Hlast) Htr) Ht Hq)
      as (Ht' & Hq' & Hres).
    assert (∃ fuel result, interpret_loop fuel transfer t' q' = Some result)
      as (fuel & result & Hrun).
    { destruct Hres as [[-> ->]|[Hlt|[Heq Hlt]]].
      - by apply IHq.
      - eapply (IHu (unrecorded size t')); [lia|done..].
      - eapply (IHr (total_rank universe size t')); [lia|congruence|done..]. }
    exists (S fuel), result. simpl. by rewrite Hlast, Htr, Hm.
Qed.
End Analysis.

(** *** The table reached is a fixed point *)

Lemma merge_kind_absorb_self a b : merge_kind (merge_kind a b) b = merge_kind a b.
Proof. by destruct a, b. Qed.

Lemma merge_kind_absorb_grow a b c :
  merge_kind a c = a → merge_kind (merge_kind a b) c = merge_kind a b.
Proof. by destruct a, b, c. Qed.

Lemma AVWS_merge_with_Done a b m :
  AVWS_merge_with a b = Done m ↔
  ∃ ka kb, Value a = Some ka ∧ Value b = Some kb
         ∧ m = mkAVWS (Some (merge_kind ka kb)) (Sources a ∪ Sources b).
Proof.
  unfold AVWS_merge_with. destruct (Value a) as [ka|], (Value b) as [kb|]; split;
    try done; try (by intros (? & ? & ? & ? & ?)).
  - intros [= <-]. by exists ka, kb.
  - by intros (? & ? & [= <-] & [= <-] & ->).
Qed.

Lemma AVWS_absorb_self a b m :
  AVWS_merge_with a b = Done m → AVWS_merge_with m b = Done m.
Proof.
  intros (ka & kb & Ha & Hb & ->)%AVWS_merge_with_Done.
  apply AVWS_merge_with_Done. exists (merge_kind ka kb), kb. simpl.
  split_and!; [done..|]. rewrite merge_kind_absorb_self. f_equal.
  by rewrite <- (assoc_L (∪)), (idemp_L (∪) (Sources b)).
Qed.

Lemma AVWS_absorb_grow a b c m :
  AVWS_merge_with a b = Done m → AVWS_merge_with a c = Done a →
  AVWS_merge_with m c = Done m.
Proof.
  intros (ka & kb & Ha & Hb & ->)%AVWS_merge_with_Done
         (ka' & kc & Ha' & Hc & Heq)%AVWS_merge_with_Done.
  rewrite Ha in Ha'. injection Ha' as <-.
  destruct a as [va sa]. simpl in *. injection Heq as Hk Hs. subst va.
  injection Hk as Hk.
  apply AVWS_merge_with_Done. exists (merge_kind ka kb), kc. simpl.
  split_and!; [done..|]. rewrite merge_kind_absorb_grow by done.
  f_equal.
  by rewrite <- (assoc_L (∪)), (comm_L (∪) (Sources b)), (assoc_L (∪)), <- Hs.
Qed.

Lemma merge_with_Done_inv a b m :
  merge_with a b = Done m →
  AVWS_merge_with (ValueInfo a) (ValueInfo b) = Done (ValueInfo m)
  ∧ IsMaybeUndefined m = IsMaybeUndefined a || IsMaybeUndefined b
  ∧ local_invariant m.
Proof.
  unfold merge_with.
  destruct (AVWS_merge_with _ _) as [v| |]; [|done..]. simpl.
  intros H. split_and!.
  - by apply AbstractLocalInfo_new_Done in H as (-> & _).
  - by apply AbstractLocalInfo_new_Done in H as (-> & _).
  - apply constructed_invariant. by eapply constructed_new.
Qed.

Lemma merge_with_from_parts m c :
  AVWS_merge_with (ValueInfo m) (ValueInfo c) = Done (ValueInfo m) →
  IsMaybeUndefined m || IsMaybeUndefined c = IsMaybeUndefined m →
  local_invariant m →
  merge_with m c = Done m.
Proof.
  intros Hv Hf Hinv. unfold merge_with. rewrite Hv. simpl. rewrite Hf.
  destruct m. by apply AbstractLocalInfo_new_invariant.
Qed.

Lemma merge_with_absorb_self a b m :
  merge_with a b = Done m → merge_with m b = Done m.
Proof.
  intros (Hv & Hf & Hinv)%merge_with_Done_inv.
  apply merge_with_from_parts; [by eapply AVWS_absorb_self| |done].
  rewrite Hf. by destruct (IsMaybeUndefined a), (IsMaybeUndefined b).
Qed.

Lemma merge_with_absorb_grow a b c m :
  merge_with a b = Done m → merge_with a c = Done a → merge_with m c = Done m.
Proof.
  intros (Hv & Hf & Hinv)%merge_with_Done_inv (Hv' & Hf' & _)%merge_with_Done_inv.
  apply merge_with_from_parts; [by eapply AVWS_absorb_grow| |done].
  rewrite Hf. destruct (IsMaybeUndefined a), (IsMaybeUndefined b),
    (IsMaybeUndefined c); done.
Qed.

Lemma merge_positional_absorb_self {A} (f : A → A → outcome A) xs ys ms :
  (∀ a b m, f a b = Done m → f m b = Done m) →
  merge_positional f xs ys = Done ms → merge_positional f ms ys = Done ms.
Proof.
  intros Hf. revert ys ms. induction xs as [|x xs IH]; intros [|y ys] ms; simpl; try done.
  - by intros [= <-].
  - destruct (f x y) as [m| |] eqn:Hm; [|done..]. simpl.
    destruct (merge_positional f xs ys) as [ms'| |] eqn:Hms; [|done..]. simpl.
    intros [= <-]. simpl. by rewrite (Hf _ _ _ Hm), (IH _ _ Hms).
Qed.

Lemma merge_positional_absorb_grow {A} (f : A → A → outcome A) xs ys zs ms :
  (∀ a b c m, f a b = Done m → f a c = Done a → f m c = Done m) →
  merge_positional f xs ys = Done ms → merge_positional f xs zs = Done xs →
  merge_positional f ms zs = Done ms.
Proof.
  intros Hf. revert ys zs ms.
  induction xs as [|x xs IH]; intros [|y ys] [|z zs] ms; simpl; try done.
  - by intros [= <-].
  - destruct (f x y) as [m| |] eqn:Hm; [|done..]. simpl.
    destruct (merge_positional f xs ys) as [ms'| |] eqn:Hms; [|done..]. simpl.
    intros [= <-].
    destruct (f x z) as [m'| |] eqn:Hm'; [|done..]. simpl.
    destruct (merge_positional f xs zs) as [zs'| |] eqn:Hzs; [|done..]. simpl.
    intros [= -> ->]. simpl. by rewrite (Hf _ _ _ _ Hm Hm'), (IH _ _ _ Hms Hzs).
Qed.

Lemma merge_Done_inv a b m :
  merge a b = Done m ↔
  merge_positional AVWS_merge_with (stack a) (stack b) = Done (stack m)
  ∧ merge_positional merge_with (locals a) (locals b) = Done (locals m).
Proof.
  unfold merge. split.
  - destruct (merge_positional AVWS_merge_with _ _) as [st| |]; [|done..]. simpl.
    destruct (merge_positional merge_with _ _) as [lo| |]; [|done..]. simpl.
    by intros [= <-].
  - intros [-> ->]. simpl. by destruct m.
Qed.

Lemma absorbed_self a b m : merge a b = Done m → absorbed b m.
Proof.
  intros [Hs Hl]%merge_Done_inv. apply merge_Done_inv. split.
  - eapply merge_positional_absorb_self; [apply AVWS_absorb_self|done].
  - eapply merge_positional_absorb_self; [apply merge_with_absorb_self|done].
Qed.

Lemma merge_grows a b m : merge a b = Done m → grows a m.
Proof.
  intros [Hs Hl]%merge_Done_inv c [Hs' Hl']%merge_Done_inv.
  apply merge_Done_inv. split.
  - eapply merge_positional_absorb_grow; [apply AVWS_absorb_grow|done..].
  - eapply merge_positional_absorb_grow; [apply merge_with_absorb_grow|done..].
Qed.

Lemma merge_positional_valid {A} (f : A → A → outcome A) (P : A → Prop) xs ys ms :
  (∀ a b m, f a b = Done m → P m) →
  merge_positional f xs ys = Done ms → Forall P ms.
Proof.
  intros Hf. revert ys ms. induction xs as [|x xs IH]; intros [|y ys] ms; simpl; try done.
  - by intros [= <-].
  - destruct (f x y) as [m| |] eqn:Hm; [|done..]. simpl.
    destruct (merge_positional f xs ys) as [ms'| |] eqn:Hms; [|done..]. simpl.
    intros [= <-]. constructor; [by eapply Hf|by eapply IH].
Qed.

Lemma merge_valid a b m : merge a b = Done m → valid_snapshot m.
Proof.
  intros [Hs Hl]%merge_Done_inv. split.
  - eapply merge_positional_valid; [|exact Hs].
    intros x y r (? & ? & ? & ? & ->)%AVWS_merge_with_Done. done.
  - eapply merge_positional_valid; [|exact Hl].
    by intros x y r (_ & _ & ?)%merge_with_Done_inv.
Qed.

Lemma grows_refl rec : grows rec rec.
Proof. by intros st. Qed.

Lemma grows_trans a b c : grows a b → grows b c → grows a c.
Proof. intros Hab Hbc st Hst. by apply Hbc, Hab. Qed.

Section FixedPoint.
Variable transfer : Transfer.
Hypothesis transfer_valid : valid_stream transfer.

Lemma update_start_state_fix st tg (t t1 : StartStates) changed :
  update_start_state st tg t = Done (t1, changed) →
  valid_snapshot st → map_Forall (λ _, valid_snapshot) t →
  map_Forall (λ _, valid_snapshot) t1
  ∧ (∀ o, o ≠ tg → t1 !! o = t !! o)
  ∧ (∃ rec1, t1 !! tg = Some rec1 ∧ absorbed st rec1)
  ∧ table_grows t t1
  ∧ (changed = false → t1 = t).
Proof.
  unfold update_start_state, merge_states. intros Hu Hst Ht.
  destruct (t !! tg) as [old|] eqn:Hold.
  - destruct (merge old st) as [merged| |] eqn:Hm; [|done..]. simpl in Hu.
    injection Hu as <- <-.
    pose proof (absorbed_self _ _ _ Hm) as Habs.
    pose proof (merge_grows _ _ _ Hm) as Hgr.
    case_bool_decide as Hne.
    + split_and!; [|by intros; rewrite lookup_insert_ne| | |done].
      * apply map_Forall_insert_2; [by eapply merge_valid|done].
      * exists merged. by rewrite lookup_insert_eq.
      * intros o rec Ho. destruct (decide (o = tg)) as [->|Hn].
        -- rewrite Hold in Ho. injection Ho as <-. exists merged.
           by rewrite lookup_insert_eq.
        -- exists rec. rewrite lookup_insert_ne by done. split; [done|apply grows_refl].
    + assert (merged = old) as -> by (destruct (decide (merged = old)); [done|by destruct Hne]).
      split_and!; [done|done| | |done].
      * by exists old.
      * intros o rec Ho. exists rec. split; [done|apply grows_refl].
  - injection Hu as <- <-.
    split_and!; [|by intros; rewrite lookup_insert_ne| | |done].
    + by apply map_Forall_insert_2.
    + exists st. rewrite lookup_insert_eq. split; [done|]. by apply merge_idemp.
    + intros o rec Ho. exists rec. split; [|apply grows_refl].
      rewrite lookup_insert_ne; [done|]. intros <-. by rewrite Hold in Ho.
Qed.

Lemma merge_successors_fix succs (t t' : StartStates) q q' :
  merge_successors succs t q = Done (t', q') →
  Forall (λ ts : nat * Snapshot, valid_snapshot ts.2) succs →
  map_Forall (λ _, valid_snapshot) t →
  map_Forall (λ _, valid_snapshot) t'
  ∧ table_grows t t'
  ∧ q ⊆ q'
  ∧ (∀ o, t' !! o = t !! o ∨ o ∈ q')
  ∧ Forall (λ ts : nat * Snapshot,
              ∃ rec, t' !! ts.1 = Some rec ∧ absorbed ts.2 rec) succs.
Proof.
  revert t q. induction succs as [|[tg st] rest IH]; intros t q; simpl.
  - intros [= <- <-] _ Ht. split_and!; try done.
    + intros o rec Ho. exists rec. split; [done|apply grows_refl].
    + by left.
  - intros Hm [Hst Hrest]%Forall_cons Ht. simpl in *.
    destruct (update_start_state st tg t) as [[t1 changed]| |] eqn:Hu; [|done..].
    simpl in Hm.
    destruct (update_start_state_fix _ _ _ _ _ Hu Hst Ht)
      as (Ht1 & Hother & (rec1 & Hrec1 & Habs) & Hgr1 & Hsame).
    destruct (IH _ _ Hm Hrest Ht1) as (Ht' & Hgr & Hq & Hch & Hall).
    assert (Hqq : q ⊆ q').
    { etrans; [|exact Hq]. destruct changed; [|done].
      intros x Hx. apply elem_of_app. by left. }
    split_and!; [done| |done| |].
    + intros o rec Ho. destruct (Hgr1 _ _ Ho) as (r1 & Hr1 & Hg1).
      destruct (Hgr _ _ Hr1) as (r' & Hr' & Hg'). exists r'.
      split; [done|by eapply grows_trans].
    + intros o. destruct (Hch o) as [Heq|?]; [|by right].
      destruct (decide (o = tg)) as [->|Hn].
      * destruct changed.
        -- right. apply Hq, elem_of_app. right. by left.
        -- left. by rewrite Heq, Hsame.
      * left. by rewrite Heq, Hother.
    + constructor; [|done]. simpl.
      destruct (Hgr _ _ Hrec1) as (r' & Hr' & Hg'). exists r'. split; [done|].
      by apply Hg'.
Qed.

(** The invariant of the worklist loop: an offset with a recorded state is
    waiting in the queue or stable. *)
Lemma interpret_loop_fixed_point fuel (t t_final : StartStates) q :
  interpret_loop fuel transfer t q = Some (Done (true, t_final)) →
  map_Forall (λ _, valid_snapshot) t →
  (∀ o s, t !! o = Some s → o ∈ q ∨ stable transfer t o s) →
  fixed_point transfer t_final.
Proof.
  revert t q. induction fuel as [|fuel IH]; intros t q; simpl; [done|].
  destruct q as [|cur q].
  - intros [= <-] _ Hinv o s Ho. destruct (Hinv o s Ho) as [?%elem_of_nil|?]; done.
  - destruct (t !! cur) as [lastState|] eqn:Hlast; [|done].
    destruct (transfer cur lastState) as [[succs|]| |] eqn:Htr; [|done..].
    destruct (merge_successors succs t q) as [[t' q']| |] eqn:Hm; [|done..].
    intros Hrun Ht Hinv.
    destruct (merge_successors_fix _ _ _ _ _ Hm
                (transfer_valid _ _ _ (Ht _ _ Hlast) Htr) Ht)
      as (Ht' & Hgr & Hq & Hch & Hall).
    apply (IH _ _ Hrun Ht'). intros o s Ho.
    destruct (Hch o) as [Heq|?]; [|by left].
    rewrite Heq in Ho.
    destruct (decide (o = cur)) as [->|Hne].
    + right. rewrite Hlast in Ho. injection Ho as <-.
      intros succs'. rewrite Htr. by intros [= <-].
    + destruct (Hinv o s Ho) as [Hin|Hst].
      * left. apply Hq. apply elem_of_cons in Hin as [?|?]; done.
      * right. intros succs' Hs'. specialize (Hst succs' Hs').
        eapply Forall_impl; [exact Hst|]. simpl.
        intros [tg st] (rec & Hrec & Habs). simpl in *.
        destruct (Hgr _ _ Hrec) as (rec' & Hrec' & Hg). exists rec'.
        split; [done|by apply Hg].
Qed.
End FixedPoint.

Lemma init_starting_state_valid params numLocals :
  Undefined ∉ params → valid_snapshot (init_starting_state params numLocals).
Proof.
  intros Hp. split; [by apply Forall_nil|]. simpl. apply Forall_app. split.
  - apply Forall_fmap, Forall_forall. intros k Hk. split; [done|].
    intros [[= ->] _]. done.
  - apply Forall_replicate. split; [done|]. by intros [_ ?].
Qed.

(** More fuel does not change the outcome of a run that ended. *)
Lemma interpret_loop_more_fuel fuel fuel' transfer (t : StartStates) q result :
  interpret_loop fuel transfer t q = Some result → fuel ≤ fuel' →
  interpret_loop fuel' transfer t q = Some result.
Proof.
  revert fuel' t q. induction fuel as [|fuel IH]; intros fuel' t q; [done|].
  destruct fuel' as [|fuel']; [lia|]. simpl.
  destruct q as [|cur q]; [done|].
  destruct (t !! cur) as [lastState|]; [|done].
  destruct (transfer cur lastState) as [[succs|]| |]; try done.
  destruct (merge_successors succs t q) as [[t' q']| |]; try done.
  intros Hrun Hle. apply IH; [done|lia].
Qed.

Lemma update_start_state_changed st idx (t t' : StartStates) changed :
  update_start_state st idx t = Done (t', changed) →
  changed = bool_decide (t' !! idx ≠ t !! idx).
Proof.
  unfold update_start_state, merge_states.
  destruct (t !! idx) as [old|] eqn:Hold.
  - destruct (merge old st) as [merged| |]; [|done..]. simpl.
    intros [= <- <-]. case_bool_decide as Hne.
    + rewrite lookup_insert_eq. rewrite bool_decide_eq_true_2; [done|].
      by intros [= ?].
    + by rewrite bool_decide_eq_false_2 by (intros H; by apply H).
  - intros [= <- <-]. by rewrite lookup_insert_eq.
Qed.

Lemma init_starting_state_within universe params numLocals :
  within universe (init_starting_state params numLocals).
Proof.
  split; [by apply Forall_nil|]. simpl. apply Forall_app. split.
  - apply Forall_fmap, Forall_true. intros k. simpl. set_solver.
  - apply Forall_replicate. simpl. set_solver.
Qed.

(** C4: on a well-formed instruction stream the analysis ends after
    finitely many worklist iterations.  A merge never raises the rank of a
    recorded state and lowers it whenever the state changes; the flag that
    decides whether an offset is enqueued is set exactly when the state
    recorded at that offset changed; and when the transfer functions keep
    states valid, the table the analysis ends with is a fixed point. *)
Theorem interpret_terminates (universe : gset AbstractSource) (size : nat)
    (transfer : Transfer) (params : list AbstractValueKind) (numLocals : nat) :
  well_formed_stream universe size transfer →
  (∃ fuel result, ∀ fuel', fuel ≤ fuel' →
     interpret fuel' transfer params numLocals = Some result)
  ∧ (∀ old st merged,
       within universe old → within universe st →
       merge old st = Done merged →
       snapshot_rank universe merged ≤ snapshot_rank universe old
       ∧ (merged ≠ old →
          snapshot_rank universe merged < snapshot_rank universe old))
  ∧ (∀ st idx (t t' : StartStates) changed,
       update_start_state st idx t = Done (t', changed) →
       changed = bool_decide (t' !! idx ≠ t !! idx)
       ∧ (changed = false → t' = t))
  ∧ (valid_stream transfer → Undefined ∉ params →
     ∀ fuel t, interpret fuel transfer params numLocals = Some (Done (true, t)) →
               fixed_point transfer t).
Proof.
  intros Hwf. split_and!.
  - unfold interpret.
    destruct (interpret_loop_terminates universe size transfer Hwf
                {[0 := init_starting_state params numLocals]} [0])
      as (fuel & result & Hrun).
    + intros o s. destruct (decide (o = 0)) as [->|Hne].
      * rewrite lookup_singleton_eq. intros [= <-].
        apply init_starting_state_within.
      * by rewrite lookup_singleton_ne.
    + apply Forall_singleton. by destruct Hwf.
    + exists fuel, result. intros fuel' Hle.
      by eapply interpret_loop_more_fuel.
  - intros old st merged Hold Hst Hm.
    destruct (snapshot_rank_merge universe old st merged Hm Hold Hst)
      as (Hle & Heq & _).
    split; [done|]. intros Hne.
    destruct (decide (snapshot_rank universe merged = snapshot_rank universe old));
      [|lia]. by destruct Hne, Heq.
  - intros st idx t t' changed Hu. split; [by eapply update_start_state_changed|].
    intros ->. unfold update_start_state, merge_states in Hu.
    destruct (t !! idx); [|done].
    destruct (merge _ _); [|done..]. simpl in Hu.
    case_bool_decide; by injection Hu as <-.
  - intros Hvalid Hparams fuel t Hrun. unfold interpret in Hrun.
    eapply interpret_loop_fixed_point; [exact Hvalid|exact Hrun| |].
    + apply map_Forall_singleton. by apply init_starting_state_valid.
    + intros o s Ho. left. apply lookup_singleton_Some in Ho as [<- _]. by left.
Qed.

Lemma loop_transfer_well_formed :
  well_formed_stream {[IntermediateSource 0]} 2 loop_transfer.
Proof.
  split; [lia|]. intros cur st succs Hcur [Hs Hl].
  destruct cur as [|[|cur]]; simpl; [| |lia].
  - intros [= <-]. apply Forall_singleton. simpl. split; [lia|]. split; [done|].
    simpl. destruct (decide (0 < length (locals st))) as [Hlt|Hge].
    + by apply Forall_insert.
    + by rewrite list_insert_ge by lia.
  - intros [= <-]. apply Forall_singleton. simpl. split; [lia|]. by split.
Qed.

Lemma loop_transfer_valid : valid_stream loop_transfer.
Proof.
  intros cur st succs [Hs Hl].
  destruct cur as [|[|cur]]; simpl; [| |done].
  - intros [= <-]. apply Forall_singleton. simpl. split; [done|]. simpl.
    destruct (decide (0 < length (locals st))) as [Hlt|Hge].
    + apply Forall_insert; [done|]. split; [done|]. by intros [? _].
    + by rewrite list_insert_ge by lia.
  - intros [= <-]. apply Forall_singleton. by split.
Qed.

Lemma interpret_terminates_witness :
  (∃ fuel result, ∀ fuel', fuel ≤ fuel' →
     interpret fuel' loop_transfer [] 1 = Some result)
  ∧ (∀ fuel t, interpret fuel loop_transfer [] 1 = Some (Done (true, t)) →
               fixed_point loop_transfer t).
Proof.
  destruct (interpret_terminates {[IntermediateSource 0]} 2 loop_transfer [] 1
              loop_transfer_well_formed) as (Hterm & _ & _ & Hfix).
  split; [exact Hterm|].
  apply Hfix; [exact loop_transfer_valid|]. by intros ?%elem_of_nil.
Defined.

(** ** Concrete runs *)

(** Scenario A of the specification: Int on one path, Float on the other. *)
Example merge_int_float :
  merge_with (mkALI (mkAVWS (Some Int) ∅) false) (mkALI (mkAVWS (Some Float) ∅) false)
  = Done (mkALI (mkAVWS (Some Object) ∅) false).
Proof. vm_compute. reflexivity. Qed.

(** Scenario B: unassigned on one path, Int on the other. *)
Example merge_unassigned_int :
  merge_with AbstractLocalInfo_default (mkALI (mkAVWS (Some Int) ∅) false)
  = Done (mkALI (mkAVWS (Some Int) ∅) true).
Proof. vm_compute. reflexivity. Qed.

(** A backward branch to a label bound three bytes earlier takes the short
    form: [br.s] with the distance -5 from the end of the instruction. *)
Example branch_to_bound_label :
  let g0 := (define_label (ILGenerator_new 1)).2 in
  (g1 ← mark_label (mkLabel 0) g0;
   g2 ← branch ecma_opcode_byte BranchAlways (mkLabel 0)
          (push_back 0 (push_back 0 (push_back 0 g1)));
   mret (m_il g2, m_labels g2))
  = Done ([0; 0; 0; 43; 251]%Z, [mkLabelInfo 0 []]).
Proof. reflexivity. Qed.

(** A forward branch is emitted in the long form with a placeholder and
    patched when the label is bound. *)
Example branch_to_unbound_label :
  m_il generator_with_pending_branch = [56; 250; 255; 0; 0; 0]%Z
  ∧ m_labels generator_with_pending_branch = [mkLabelInfo (-1) [1%Z]]
  ∧ (g ← mark_label (mkLabel 0) generator_with_pending_branch;
     mret (m_il g, m_labels g))
    = Done ([56; 1; 0; 0; 0; 0]%Z, [mkLabelInfo 6 [1%Z]]).
Proof. split_and!; reflexivity. Qed.

(** The analysis of the two-instruction loop ends in four iterations: at
    offset 0 the local is an Int that may be unassigned, at offset 1 it is
    an assigned Int. *)
Example interpret_loop_transfer :
  interpret 3 loop_transfer [] 1 = None
  ∧ interpret 4 loop_transfer [] 1
    = Some (Done (true,
        {[ 0 := mkSnapshot []
                  [mkALI (mkAVWS (Some Int) {[IntermediateSource 0]}) true];
           1 := mkSnapshot []
                  [mkALI (mkAVWS (Some Int) {[IntermediateSource 0]}) false] ]})).
Proof. split; vm_compute; reflexivity. Qed.

(** * Further properties of the code *)

(** ** simple_vector *)

Lemma omap_id_all_Some {T} (l : list (option T)) :
  Forall is_Some l → Some <$> omap id l = l.
Proof.
  induction 1 as [|o l [x ->] _ IH]; csimpl; [done|]. by rewrite IH.
Qed.

Lemma sv_contents_items {T} (v : simple_vector T) :
  sv_wf v → Some <$> sv_contents v = take (m_count v) (m_items v).
Proof. intros (_ & _ & Hs). by apply omap_id_all_Some. Qed.

Lemma sv_contents_length {T} (v : simple_vector T) :
  sv_wf v → length (sv_contents v) = m_count v.
Proof.
  intros Hwf. pose proof (sv_contents_items v Hwf) as H.
  apply (f_equal length) in H. rewrite length_fmap, length_take in H.
  destruct Hwf as (Ha & Hc & _). lia.
Qed.

Lemma sv_items_lookup {T} (v : simple_vector T) (n : nat) :
  sv_wf v → n < m_count v →
  m_items v !! n = Some <$> (sv_contents v !! n).
Proof.
  intros Hwf Hn. rewrite <- list_lookup_fmap, sv_contents_items by done.
  by rewrite lookup_take_lt.
Qed.

(** [operator[]] below the count reads the element of that index. *)
Lemma sv_at_contents {T} (v : simple_vector T) (n : nat) :
  sv_wf v → n < m_count v → sv_at v n = at_index (sv_contents v) n.
Proof.
  intros Hwf Hn. unfold sv_at, at_index. rewrite sv_items_lookup by done.
  destruct (sv_contents v !! n) as [x|] eqn:Hx; [done|].
  apply lookup_ge_None in Hx. rewrite sv_contents_length in Hx by done. lia.
Qed.

Lemma sv_push_back_no_grow {T} (item : T) (v : simple_vector T) :
  sv_wf v → m_count v < m_allocated v →
  sv_push_back item v
  = Done (mkSimpleVector (<[m_count v := Some item]> (m_items v))
                         (S (m_count v)) (m_allocated v)).
Proof.
  intros (Ha & Hc & _) Hlt. unfold sv_push_back.
  rewrite decide_False by lia. simpl. rewrite decide_True by lia. done.
Qed.

Lemma sv_push_back_grow {T} (item : T) (v : simple_vector T) :
  sv_wf v → m_count v = m_allocated v →
  sv_push_back item v
  = Done (mkSimpleVector
            (<[m_count v := Some item]>
               (take (m_count v) (m_items v)
                  ++ replicate (Nat.max 4 (m_allocated v * 2) - m_count v) None))
            (S (m_count v)) (Nat.max 4 (m_allocated v * 2))).
Proof.
  intros (Ha & Hc & _) Heq. unfold sv_push_back, sv_grow.
  rewrite decide_True by lia. rewrite decide_True by lia. simpl.
  rewrite decide_True; [done|].
  rewrite length_app, length_take, length_replicate. lia.
Qed.

Lemma take_S_insert {T} (l : list T) (n : nat) (x : T) :
  n < length l → take (S n) (<[n := x]> l) = take n l ++ [x].
Proof.
  revert n. induction l as [|y l IH]; intros [|n] Hn; simpl in *; try lia; [done|].
  by rewrite IH by lia.
Qed.

(** What [push_back] does to a well-formed vector. *)
Lemma sv_push_back_Done {T} (item : T) (v : simple_vector T) :
  sv_wf v →
  ∃ v', sv_push_back item v = Done v'
    ∧ sv_wf v'
    ∧ sv_contents v' = sv_contents v ++ [item]
    ∧ sv_size v' = S (sv_size v)
    ∧ sv_at v' (sv_size v) = Done item
    ∧ (∀ n, n < sv_size v → sv_at v' n = sv_at v n)
    ∧ m_allocated v' = (if decide (m_count v < m_allocated v) then m_allocated v
                        else Nat.max 4 (m_allocated v * 2)).
Proof.
  intros Hwf. pose proof Hwf as (Ha & Hc & Hs).
  assert (Hcore : ∀ buf cap,
    length buf = cap → m_count v < cap →
    take (m_count v) buf = take (m_count v) (m_items v) →
    let v' := mkSimpleVector (<[m_count v := Some item]> buf) (S (m_count v)) cap in
    sv_wf v' ∧ sv_contents v' = sv_contents v ++ [item]
    ∧ sv_at v' (m_count v) = Done item
    ∧ (∀ n, n < m_count v → sv_at v' n = sv_at v n)).
  { intros buf cap Hlen Hlt Htake v'.
    assert (Ht : take (S (m_count v)) (<[m_count v := Some item]> buf)
                 = take (m_count v) (m_items v) ++ [Some item]).
    { rewrite take_S_insert by lia. by rewrite Htake. }
    split_and!.
    - unfold sv_wf, v'; simpl. rewrite length_insert. split_and!; [done|lia|].
      rewrite Ht. apply Forall_app. split; [done|]. by apply Forall_singleton.
    - unfold sv_contents, v'; simpl. rewrite Ht. by rewrite omap_app.
    - unfold sv_at, v'; simpl. by rewrite list_lookup_insert_eq by lia.
    - intros n Hn. unfold sv_at, v'; simpl.
      rewrite list_lookup_insert_ne by lia.
      assert (buf !! n = m_items v !! n) as ->; [|done].
      rewrite <- (lookup_take_lt buf (m_count v)) by done.
      rewrite Htake. by rewrite lookup_take_lt by done. }
  destruct (decide (m_count v < m_allocated v)) as [Hlt|Hge].
  - rewrite sv_push_back_no_grow by done. eexists. split; [done|].
    destruct (Hcore (m_items v) (m_allocated v)) as (H1 & H2 & H3 & H4);
      [done..|]. by split_and!.
  - rewrite sv_push_back_grow by (done || lia). eexists. split; [done|].
    destruct (Hcore (take (m_count v) (m_items v)
                ++ replicate (Nat.max 4 (m_allocated v * 2) - m_count v) None)
              (Nat.max 4 (m_allocated v * 2))) as (H1 & H2 & H3 & H4).
    + rewrite length_app, length_take, length_replicate. lia.
    + lia.
    + rewrite take_app_le by (rewrite length_take; lia).
      by rewrite take_take, Nat.min_id.
    + by split_and!.
Qed.

(** X1: [push_back] on a well-formed vector appends the item, keeps the
    vector well formed, and grows the allocation only when it is full, to
    [max(4, 2 * m_allocated)]. *)
Theorem sv_push_back_appends {T} (item : T) (v : simple_vector T) :
  sv_wf v →
  ∃ v', sv_push_back item v = Done v'
    ∧ sv_wf v'
    ∧ sv_contents v' = sv_contents v ++ [item]
    ∧ sv_size v' = S (sv_size v)
    ∧ sv_at v' (sv_size v) = Done item
    ∧ (∀ n, n < sv_size v → sv_at v' n = sv_at v n)
    ∧ m_allocated v' = (if decide (m_count v < m_allocated v) then m_allocated v
                        else Nat.max 4 (m_allocated v * 2)).
Proof. apply sv_push_back_Done. Qed.

Lemma sv_push_back_appends_witness :
  ∃ v', sv_push_back 7 (mkSimpleVector [Some 5; None; None; None] 1 4) = Done v'
      ∧ sv_contents v' = [5; 7].
Proof.
  destruct (sv_push_back_appends 7 (mkSimpleVector [Some 5; None; None; None] 1 4))
    as (v' & Hp & _ & Hc & _).
  - split_and!; [done|simpl; lia|]. simpl. apply Forall_singleton. by eexists.
  - exists v'. split; [exact Hp|exact Hc].
Defined.

(** X2: [pop_back] fails its assertion on an empty vector; otherwise it
    drops the last element and nothing else, so it undoes a [push_back]. *)
Theorem sv_pop_back_removes_last {T} (v : simple_vector T) (item : T) :
  sv_wf v →
  (m_count v = 0 → sv_pop_back v = AssertionFailed)
  ∧ (0 < m_count v →
     ∃ v', sv_pop_back v = Done v' ∧ sv_wf v'
       ∧ sv_contents v' = removelast (sv_contents v)
       ∧ m_allocated v' = m_allocated v)
  ∧ (∃ v1 v2, sv_push_back item v = Done v1 ∧ sv_pop_back v1 = Done v2
       ∧ sv_contents v2 = sv_contents v).
Proof.
  intros Hwf. split_and!.
  - intros H0. unfold sv_pop_back. by rewrite H0.
  - intros Hpos. unfold sv_pop_back.
    rewrite bool_decide_eq_true_2 by done. simpl. eexists. split; [done|].
    destruct Hwf as (Ha & Hc & Hs).
    assert (Ht : take (m_count v) (m_items v)
                 = take (m_count v - 1) (m_items v)
                   ++ take 1 (drop (m_count v - 1) (m_items v))).
    { rewrite take_take_drop. f_equal. lia. }
    split_and!; [| |done].
    + split_and!; [done|simpl; lia|].
      simpl. rewrite Ht in Hs. by apply Forall_app in Hs as [? _].
    + unfold sv_contents. simpl. rewrite Ht, omap_app.
      rewrite Ht in Hs. apply Forall_app in Hs as [_ Hs]. revert Hs.
      destruct (drop (m_count v - 1) (m_items v)) as [|o rest] eqn:Hd.
      { apply (f_equal length) in Hd. rewrite length_drop in Hd. simpl in Hd. lia. }
      simpl. intros [x ->]%Forall_singleton. simpl.
      by rewrite removelast_last.
  - destruct (sv_push_back_Done item v Hwf) as (v1 & Hp & Hwf1 & Hc1 & Hsz & _).
    exists v1. unfold sv_pop_back. unfold sv_size in Hsz.
    rewrite bool_decide_eq_true_2 by lia. simpl. eexists. split_and!; [done..|].
    unfold sv_contents in *. simpl. rewrite Hsz. simpl. rewrite Nat.sub_0_r.
    destruct Hwf1 as (Ha1 & Hcnt1 & Hs1). rewrite Hsz in Hs1.
    assert (Ht : take (S (m_count v)) (m_items v1)
                 = take (m_count v) (m_items v1)
                   ++ take 1 (drop (m_count v) (m_items v1))).
    { rewrite take_take_drop. f_equal. lia. }
    rewrite Hsz, Ht, omap_app in Hc1.
    rewrite Ht in Hs1. apply Forall_app in Hs1 as [_ Hs1]. revert Hs1 Hc1.
    destruct (drop (m_count v) (m_items v1)) as [|o rest] eqn:Hd.
    { apply (f_equal length) in Hd. rewrite length_drop in Hd. simpl in Hd. lia. }
    simpl. intros [x ->]%Forall_singleton. simpl.
    by intros [? _]%app_inj_tail.
Qed.

Lemma sv_pop_back_removes_last_witness :
  sv_pop_back (simple_vector_new (T := nat)) = AssertionFailed.
Proof.
  apply (sv_pop_back_removes_last simple_vector_new 0); [|done].
  split_and!; simpl; [done|lia|constructor].
Defined.

(** ** InterpreterState: push and pop together *)

(** X3: a pushed value is the new top: the stack is one longer, the value
    is read at the old size and the elements below are as before;
    [pop_no_escape] right after returns the value and the state as it was,
    and [pop] returns its [Value]. *)
Theorem push_then_pop (s : InterpreterState) (v : AbstractValueWithSources)
    (e : EscapeStore) :
  pop_no_escape (push s v) = Done (v, s)
  ∧ pop (push s v) e = Done (Value v, s, escapes v e)
  ∧ stack_size (push s v) = S (stack_size s)
  ∧ stack_at (push s v) (stack_size s) = Done v
  ∧ (∀ i, i < stack_size s → stack_at (push s v) i = stack_at s i)
  ∧ (∀ h j, get_local (push s v) j h = get_local s j h).
Proof.
  destruct s as [st lo]. unfold pop_no_escape, pop, push, back, stack_size,
    stack_at, at_index. simpl.
  rewrite last_snoc, removelast_last. simpl. split_and!; try done.
  - rewrite length_app. simpl. lia.
  - by rewrite lookup_app_r, Nat.sub_diag.
  - intros i Hi. by rewrite lookup_app_l.
Qed.

Lemma push_then_pop_witness :
  stack_at (push (push (mkState [] 0) AbstractValueWithSources_default)
                 AbstractValueWithSources_default) 0
  = stack_at (push (mkState [] 0) AbstractValueWithSources_default) 0.
Proof.
  apply (push_then_pop (push (mkState [] 0) AbstractValueWithSources_default)
           AbstractValueWithSources_default ∅).
  unfold stack_size. simpl. lia.
Defined.

(** ** ILGenerator: reuse of freed locals *)

Lemma define_local_Done param g l g' :
  define_local param g = Done (l, g') →
  (∃ existing, m_freedLocals g !! m_type param = Some existing
     ∧ existing ≠ [] ∧ last existing = Some l
     ∧ g' = mkILGenerator (gen_locals g)
              (<[m_type param := removelast existing]> (m_freedLocals g))
              (m_il g) (m_localCount g) (m_labels g))
  ∨ (m_freedLocals g !! m_type param = Some []
     ∧ define_local_no_cache param g = Done (l, g')).
Proof.
  unfold define_local, at_index.
  destruct (m_freedLocals g !! m_type param) as [existing|] eqn:He; [|done].
  simpl. case_decide as Hlen.
  - destruct (existing !! (length existing - 1)) as [res|] eqn:Hres; [|done].
    simpl. intros [= <- <-]. left. exists existing.
    assert (existing ≠ []) by (by intros ->).
    split_and!; try done.
    rewrite last_lookup. rewrite <- Hres. f_equal. lia.
  - intros Hd. right. split; [|done].
    destruct existing; [done|]. simpl in Hlen. lia.
Qed.

Lemma define_local_no_cache_Done param g l g' :
  define_local_no_cache param g = Done (l, g') →
  l = mkLocal (m_localCount g)
  ∧ g' = mkILGenerator (gen_locals g ++ [param]) (m_freedLocals g) (m_il g)
           (m_localCount g + 1)%Z (m_labels g).
Proof.
  unfold define_local_no_cache. case_decide; [done|]. by intros [= <- <-].
Qed.

Lemma free_local_Done D local g g' :
  free_local D local g = Done g' →
  ∃ param localList,
    at_int (gen_locals g) (m_index local) = Done param
    ∧ m_freedLocals g !! m_type param = Some localList
    ∧ (D = true → m_index local ∉ m_index <$> localList)
    ∧ g' = mkILGenerator (gen_locals g)
             (<[m_type param := localList ++ [local]]> (m_freedLocals g))
             (m_il g) (m_localCount g) (m_labels g).
Proof.
  unfold free_local, at_index.
  destruct (at_int (gen_locals g) (m_index local)) as [param| |]; [|done..].
  simpl. destruct (m_freedLocals g !! m_type param) as [localList|] eqn:Hl; [|done].
  simpl. destruct D.
  - destruct (check_not_freed localList local) as [[]| |] eqn:Hc; [|done..].
    simpl. intros [= <-]. exists param, localList. split_and!; try done.
    intros _. by apply check_not_freed_inv.
  - simpl. intros [= <-]. exists param, localList. by split_and!.
Qed.

(** X4: a freed local is the next one [define_local] hands out for its
    type, and handing it out puts the generator back as it was before the
    [free_local]. *)
Theorem free_then_define_reuses (D : bool) (local : Local) (param : Param)
    (g g1 : ILGenerator) :
  at_int (gen_locals g) (m_index local) = Done param →
  free_local D local g = Done g1 →
  ∀ param', m_type param' = m_type param →
    define_local param' g1 = Done (local, g).
Proof.
  intros Hp Hf param' Ht.
  apply free_local_Done in Hf as (p & ls & Hp' & Hls & _ & ->).
  rewrite Hp in Hp'. injection Hp' as <-.
  unfold define_local, at_index. simpl. rewrite Ht.
  assert (Hlt : m_type param < length (m_freedLocals g)) by (by eapply lookup_lt_Some).
  rewrite list_lookup_insert_eq by done. simpl.
  rewrite decide_True by (rewrite length_app; simpl; lia).
  rewrite length_app. simpl.
  replace (length ls + 1 - 1) with (length ls) by lia.
  rewrite lookup_app_r, Nat.sub_diag by lia. simpl.
  rewrite removelast_last, list_insert_insert_eq, list_insert_id by done.
  by destruct g.
Qed.

Lemma free_then_define_reuses_witness :
  define_local (mkParam 0) (generator_with_freed_local true)
  = Done (mkLocal 0,
          mkILGenerator [mkParam 0] [[]] [] 1 []).
Proof.
  apply (free_then_define_reuses true (mkLocal 0) (mkParam 0)
           (mkILGenerator [mkParam 0] [[]] [] 1 []) _); reflexivity.
Defined.

(** ** ILGenerator: the locals stay consistent *)

Lemma at_int_app_l {A} (l1 l2 : list A) i x :
  at_int l1 i = Done x → at_int (l1 ++ l2) i = Done x.
Proof.
  unfold at_int, at_index. case_decide; [done|].
  destruct (l1 !! Z.to_nat i) as [y|] eqn:Hy; [|done].
  intros [= <-]. by rewrite (lookup_app_l_Some _ _ _ _ Hy).
Qed.

Lemma gen_step_locals D ob g g' :
  gen_step D ob g g' →
  (gen_locals g' = gen_locals g ∧ m_localCount g' = m_localCount g
   ∧ m_freedLocals g' = m_freedLocals g)
  ∨ (∃ param l, define_local param g = Done (l, g'))
  ∨ (∃ param l, define_local_no_cache param g = Done (l, g'))
  ∨ (∃ local, free_local D local g = Done g').
Proof.
  destruct 1 as [param g l g' Hd|param g l g' Hd|local g g' Hf|g|label g g' Hm
                |bt label g g' Hb|bt off g|b g].
  - right. left. eauto.
  - right. right. left. eauto.
  - right. right. right. eauto.
  - by left.
  - left. unfold mark_label in Hm.
    destruct (at_int _ _); [|done..]. simpl in Hm.
    destruct (assert _); [|done..]. simpl in Hm.
    destruct (patch_branches _ _ _); [|done..]. simpl in Hm.
    by injection Hm as <-.
  - left. unfold branch in Hb.
    destruct (at_int _ _); [|done..]. simpl in Hb.
    case_decide; injection Hb as <-; unfold branch_offset;
      by destruct (_ && _).
  - left. unfold branch_offset. by destruct (_ && _).
  - by left.
Qed.

Lemma locals_consistent_no_cache param g l g' :
  define_local_no_cache param g = Done (l, g') →
  locals_consistent g → locals_consistent g'.
Proof.
  intros (-> & ->)%define_local_no_cache_Done [Hc Hf]. split; simpl.
  - rewrite length_app. simpl. lia.
  - intros t ls l0 Hls Hl. destruct (Hf t ls l0 Hls Hl) as (p & Hp & Ht).
    exists p. split; [by apply at_int_app_l|done].
Qed.

Lemma gen_step_locals_consistent D ob g g' :
  gen_step D ob g g' → locals_consistent g → locals_consistent g'.
Proof.
  intros Hstep Hok.
  destruct (gen_step_locals _ _ _ _ Hstep)
    as [(Hl & Hc & Hf)|[(param & l & Hd)|[(param & l & Hd)|(local & Hf)]]].
  - unfold locals_consistent. by rewrite Hl, Hc, Hf.
  - apply define_local_Done in Hd as [(ex & Hex & Hne & Hlast & ->)|[_ Hd]];
      [|by eapply locals_consistent_no_cache].
    destruct Hok as [Hc Hf]. split; [done|]. simpl.
    intros t ls l0 Hls Hl.
    destruct (decide (t = m_type param)) as [->|Hn].
    + rewrite list_lookup_insert_eq in Hls by (by eapply lookup_lt_Some).
      injection Hls as <-. apply (Hf _ ex l0 Hex).
      destruct (exists_last Hne) as (ex' & x & ->).
      rewrite removelast_last in Hl. apply elem_of_app. by left.
    + rewrite list_lookup_insert_ne in Hls by done. by eapply Hf.
  - by eapply locals_consistent_no_cache.
  - apply free_local_Done in Hf as (p & ls0 & Hp & Hls0 & _ & ->).
    destruct Hok as [Hc Hf]. split; [done|]. simpl.
    intros t ls l Hls Hl.
    destruct (decide (t = m_type p)) as [->|Hn].
    + rewrite list_lookup_insert_eq in Hls by (by eapply lookup_lt_Some).
      injection Hls as <-. apply elem_of_app in Hl as [Hl|Hl].
      * by eapply Hf.
      * apply list_elem_of_singleton in Hl as ->. by exists p.
    + rewrite list_lookup_insert_ne in Hls by done. by eapply Hf.
Qed.

Lemma reachable_locals_consistent D ob g :
  reachable D ob g → locals_consistent g.
Proof.
  induction 1 as [n|g g' _ IH Hstep].
  - split; [done|]. simpl. intros t ls l Hls Hl.
    apply lookup_replicate in Hls as [-> _]. by apply elem_of_nil in Hl.
  - by eapply gen_step_locals_consistent.
Qed.

Lemma at_int_lt {A} (l : list A) i x :
  at_int l i = Done x → (0 ≤ i < Z.of_nat (length l))%Z.
Proof.
  intros [H0 Hl]%at_int_Done. apply lookup_lt_Some in Hl. lia.
Qed.

(** X5: in a reachable generator the local counter is the number of
    defined locals and every local on a free list is a defined local of
    that list's type; so the local [define_local] returns, fresh or reused,
    is a defined local of the requested type. *)
Theorem define_local_has_requested_type (D : bool) (ob : OPCODE → Z)
    (g g' : ILGenerator) (param : Param) (l : Local) :
  reachable D ob g →
  define_local param g = Done (l, g') →
  locals_consistent g
  ∧ locals_consistent g'
  ∧ (∃ p, at_int (gen_locals g') (m_index l) = Done p ∧ m_type p = m_type param)
  ∧ (0 ≤ m_index l < m_localCount g')%Z.
Proof.
  intros Hr Hd. pose proof (reachable_locals_consistent _ _ _ Hr) as Hok.
  assert (Hok' : locals_consistent g').
  { eapply (gen_step_locals_consistent D ob); [|exact Hok].
    by eapply step_define_local. }
  assert (Hp : ∃ p, at_int (gen_locals g') (m_index l) = Done p
                    ∧ m_type p = m_type param).
  { apply define_local_Done in Hd as [(ex & Hex & Hne & Hlast & ->)|[_ Hd]].
    - simpl. destruct Hok as [_ Hf]. apply (Hf _ ex l Hex).
      destruct (exists_last Hne) as (ex' & x & ->).
      rewrite last_snoc in Hlast. injection Hlast as ->.
      apply elem_of_app. right. by left.
    - apply define_local_no_cache_Done in Hd as (-> & ->). simpl.
      exists param. split; [|done]. destruct Hok as [-> _].
      apply at_int_Done. split; [lia|].
      rewrite Nat2Z.id. by rewrite lookup_app_r, Nat.sub_diag. }
  assert (0 ≤ m_index l < m_localCount g')%Z as [? ?].
  { destruct Hp as (p & Hp%at_int_lt & _). destruct Hok' as [-> _]. lia. }
  by split_and!.
Qed.

Lemma define_local_has_requested_type_witness :
  ∃ p, at_int (gen_locals (generator_with_freed_local false)) 0 = Done p
     ∧ m_type p = 0.
Proof.
  destruct (define_local_has_requested_type false ecma_opcode_byte
              (generator_with_freed_local false)
              (mkILGenerator [mkParam 0] [[]] [] 1 []) (mkParam 0) (mkLocal 0))
    as (_ & _ & (p & Hp & Ht) & _).
  - eapply reach_step; [eapply reach_step; [apply (reach_new _ _ 1)|]|].
    + by eapply (step_define_local _ _ (mkParam 0)).
    + by eapply (step_free_local _ _ (mkLocal 0)).
  - reflexivity.
  - exists p. split; [exact Hp|exact Ht].
Defined.

(** X6: with [_DEBUG], two [define_local] calls in a row never return the
    same local. *)
Theorem define_local_twice_distinct (ob : OPCODE → Z) (g g1 g2 : ILGenerator)
    (p1 p2 : Param) (l1 l2 : Local) :
  reachable true ob g →
  define_local p1 g = Done (l1, g1) →
  define_local p2 g1 = Done (l2, g2) →
  m_index l1 ≠ m_index l2.
Proof.
  intros Hr Hd1 Hd2.
  pose proof (reachable_locals_consistent _ _ _ Hr) as [Hc Hf].
  pose proof (reachable_free_lists _ _ Hr) as Hnd.
  apply define_local_Done in Hd1 as [(ex1 & Hex1 & Hne1 & Hlast1 & ->)|[He1 Hd1]].
  - destruct (exists_last Hne1) as (ex1' & x1 & ->).
    rewrite last_snoc in Hlast1. injection Hlast1 as ->.
    assert (Hin1 : l1 ∈ ex1' ++ [l1]) by (apply elem_of_app; right; by left).
    destruct (Hf _ _ _ Hex1 Hin1) as (q1 & Hq1 & Ht1).
    apply define_local_Done in Hd2 as [(ex2 & Hex2 & Hne2 & Hlast2 & ->)|[He2 Hd2]];
      simpl in *.
    + destruct (exists_last Hne2) as (ex2' & x2 & ->).
      rewrite last_snoc in Hlast2. injection Hlast2 as ->.
      destruct (decide (m_type p2 = m_type p1)) as [Heq|Hneq].
      * rewrite Heq in Hex2.
        rewrite list_lookup_insert_eq in Hex2 by (by eapply lookup_lt_Some).
        injection Hex2 as Hex2. rewrite removelast_last in Hex2. subst ex1'.
        unfold free_lists_nodup in Hnd.
        eapply Forall_lookup_1 in Hnd; [|exact Hex1]. simpl in Hnd.
        rewrite !fmap_app in Hnd. simpl in Hnd.
        apply NoDup_app in Hnd as (_ & Hnd & _). intros Hidx.
        apply (Hnd (m_index l2)); [|rewrite Hidx; by left].
        apply elem_of_app. right. by left.
      * rewrite list_lookup_insert_ne in Hex2 by done.
        assert (Hin2 : l2 ∈ ex2' ++ [l2]) by (apply elem_of_app; right; by left).
        destruct (Hf _ _ _ Hex2 Hin2) as (q2 & Hq2 & Ht2).
        intros Hidx. rewrite Hidx in Hq1. rewrite Hq1 in Hq2.
        injection Hq2 as ->. congruence.
    + apply define_local_no_cache_Done in Hd2 as (-> & ->). simpl.
      apply at_int_lt in Hq1. lia.
  - apply define_local_no_cache_Done in Hd1 as (-> & ->). simpl.
    apply define_local_Done in Hd2 as [(ex2 & Hex2 & Hne2 & Hlast2 & ->)|[He2 Hd2]];
      simpl in *.
    + destruct (exists_last Hne2) as (ex2' & x2 & ->).
      rewrite last_snoc in Hlast2. injection Hlast2 as ->.
      assert (Hin2 : l2 ∈ ex2' ++ [l2]) by (apply elem_of_app; right; by left).
      destruct (Hf _ _ _ Hex2 Hin2) as (q2 & Hq2%at_int_lt & _). lia.
    + apply define_local_no_cache_Done in Hd2 as (-> & ->). simpl. lia.
Qed.

Lemma define_local_twice_distinct_witness :
  ∃ l1 g1 l2 g2,
    define_local (mkParam 0) (generator_with_freed_local true) = Done (l1, g1)
    ∧ define_local (mkParam 0) g1 = Done (l2, g2)
    ∧ m_index l1 ≠ m_index l2.
Proof.
  eexists _, _, _, _. split; [reflexivity|]. split; [reflexivity|].
  eapply (define_local_twice_distinct ecma_opcode_byte
            (generator_with_freed_local true) _ _ (mkParam 0) (mkParam 0)).
  - eapply reach_step; [eapply reach_step; [apply (reach_new _ _ 1)|]|].
    + by eapply (step_define_local _ _ (mkParam 0)).
    + by eapply (step_free_local _ _ (mkLocal 0)).
  - reflexivity.
  - reflexivity.
Defined.

Section ReadBack.
Local Open Scope Z_scope.

(** ** Reading back what the generator wrote *)

Lemma to_int_mod z : to_int (z mod 4294967296) = to_int z.
Proof.
  unfold to_int. f_equal.
  rewrite <- (Z.add_mod_idemp_l (z mod 4294967296)) by lia.
  rewrite Z.mod_mod by lia. by rewrite Z.add_mod_idemp_l by lia.
Qed.

Lemma to_int_idemp z : to_int (to_int z) = to_int z.
Proof.
  apply to_int_small. unfold to_int.
  pose proof (Z.mod_pos_bound (z + 2147483648) 4294967296). lia.
Qed.

Lemma to_int_range z : -2147483648 ≤ to_int z < 2147483648.
Proof.
  unfold to_int. pose proof (Z.mod_pos_bound (z + 2147483648) 4294967296). lia.
Qed.

Lemma push_back_il b g : m_il (push_back b g) = m_il g ++ [to_byte b].
Proof. done. Qed.

Lemma emit_int_il value g :
  m_il (emit_int value g) = m_il g ++ int_bytes value
  ∧ m_labels (emit_int value g) = m_labels g
  ∧ gen_locals (emit_int value g) = gen_locals g
  ∧ m_freedLocals (emit_int value g) = m_freedLocals g
  ∧ m_localCount (emit_int value g) = m_localCount g.
Proof.
  unfold emit_int, push_back, int_bytes. simpl.
  rewrite !to_byte_land. by rewrite <- !(assoc_L (++)).
Qed.

Lemma read_bytes_app prefix bs rest :
  read_bytes (prefix ++ bs ++ rest) (Z.of_nat (length prefix)) (length bs) = Done bs.
Proof.
  unfold read_bytes. rewrite decide_True.
  - rewrite Nat2Z.id, drop_app_length. by rewrite take_app_length.
  - rewrite !length_app. lia.
Qed.

(** Reading an [int] where [emit_int] wrote one gives it back. *)
Lemma getI4_int_bytes prefix value rest :
  getI4LittleEndian (prefix ++ int_bytes value ++ rest) (Z.of_nat (length prefix))
  = Done (to_int value).
Proof.
  unfold getI4LittleEndian.
  pose proof (read_bytes_app prefix (int_bytes value) rest) as Hr.
  change (length (int_bytes value)) with 4%nat in Hr. rewrite Hr. simpl.
  destruct (int_bytes_little_endian value) as [_ Hle]. unfold mret, outcome_ret.
  unfold le_value in Hle. simpl in Hle. unfold le_value. simpl.
  by rewrite Hle, to_int_mod.
Qed.

(** X7: [getI4LittleEndian] reads back the [int] that [emit_int] wrote,
    also behind the opcode of [emit_call] and of [ld_i(int)]. *)
Theorem emit_int_read_back (cee : CEE → Z) (value : Z) (g : ILGenerator) :
  -2147483648 ≤ value < 2147483648 →
  getI4LittleEndian (m_il (emit_int value g)) (Z.of_nat (length (m_il g)))
    = Done value
  ∧ getI4LittleEndian (m_il (emit_call cee value g)) (Z.of_nat (length (m_il g)) + 1)
    = Done value
  ∧ getI4LittleEndian (m_il (ld_i_int cee value g)) (Z.of_nat (length (m_il g)) + 1)
    = Done value.
Proof.
  intros Hv. split_and!.
  - destruct (emit_int_il value g) as [-> _].
    rewrite <- (app_nil_r (int_bytes value)).
    by rewrite getI4_int_bytes, to_int_small.
  - unfold emit_call. destruct (emit_int_il value (push_back (cee CEE_CALL) g)) as [-> _].
    rewrite push_back_il. rewrite <- (app_nil_r (int_bytes value)).
    replace (Z.of_nat (length (m_il g)) + 1)
      with (Z.of_nat (length (m_il g ++ [to_byte (cee CEE_CALL)])))
      by (rewrite length_app; simpl; lia).
    by rewrite getI4_int_bytes, to_int_small.
  - unfold ld_i_int. rewrite push_back_il.
    destruct (emit_int_il value (push_back (cee CEE_LDC_I4) g)) as [-> _].
    rewrite push_back_il. rewrite <- (assoc_L (++)).
    replace (Z.of_nat (length (m_il g)) + 1)
      with (Z.of_nat (length (m_il g ++ [to_byte (cee CEE_LDC_I4)])))
      by (rewrite length_app; simpl; lia).
    by rewrite getI4_int_bytes, to_int_small.
Qed.

Lemma emit_int_read_back_witness :
  getI4LittleEndian (m_il (emit_int (-3) (ILGenerator_new 1))) 0 = Done (-3).
Proof.
  apply (emit_int_read_back (λ _, 0) (-3) (ILGenerator_new 1)). lia.
Defined.
End ReadBack.

Section Targets.
Local Open Scope Z_scope.

Lemma to_char_to_byte z : -128 ≤ z < 128 → to_char (to_byte z) = z.
Proof.
  intros Hz. unfold to_char, to_byte.
  rewrite Z.add_mod_idemp_l by lia. rewrite Z.mod_small by lia. lia.
Qed.

Lemma read_bytes_il_word il from bs :
  0 ≤ from → length bs = 4%nat → il_word il from = Some <$> bs →
  read_bytes il from 4 = Done bs.
Proof.
  intros Hfrom Hlen Hw.
  destruct bs as [|b0 [|b1 [|b2 [|b3 [|]]]]]; try done.
  unfold il_word in Hw. simpl in Hw. injection Hw as H0 H1 H2 H3.
  pose proof (lookup_lt_Some _ _ _ H3) as Hlt.
  unfold read_bytes. rewrite decide_True by lia. f_equal.
  apply list_eq. intros i.
  destruct (decide (i < 4)%nat) as [Hi|Hi].
  - rewrite lookup_take_lt, lookup_drop by done.
    destruct i as [|[|[|[|i]]]]; simpl; try done; lia.
  - rewrite lookup_take_ge by lia.
    symmetry. apply lookup_ge_None. simpl. lia.
Qed.

Lemma getI1_byte prefix b rest :
  getI1LittleEndian (prefix ++ b :: rest) (Z.of_nat (length prefix))
  = Done (to_char b).
Proof.
  unfold getI1LittleEndian.
  pose proof (read_bytes_app prefix [b] rest) as Hr. simpl in Hr.
  rewrite Hr. simpl. unfold mret, outcome_ret, le_value. simpl.
  by rewrite Z.mul_0_r, Z.add_0_r.
Qed.

(** What [branch(BranchType, int)] appends reads back as the distance
    from the end of the instruction. *)
Lemma branch_offset_decodes ob bt offset g :
  -2147483643 ≤ offset < 2147483648 →
  let n := Z.of_nat (length (m_il g)) in
  let il' := m_il (branch_offset ob bt offset g) in
  (-125 ≤ offset ≤ 129 →
     Z.of_nat (length il') = n + 2
     ∧ getI1LittleEndian il' (n + 1) = Done (offset - 2))
  ∧ (offset = 130 →
     Z.of_nat (length il') = n + 2
     ∧ getI1LittleEndian il' (n + 1) = Done (-128))
  ∧ (offset < -125 ∨ 130 < offset →
     Z.of_nat (length il') = n + 5
     ∧ getI4LittleEndian il' (n + 1) = Done (offset - 5)).
Proof.
  intros Hoff n il'. unfold il'. rewrite branch_offset_il.
  rewrite (to_int_small (offset - 2)) by lia.
  assert (Hn1 : ∀ b, n + 1 = Z.of_nat (length (m_il g ++ [b]))).
  { intros b. rewrite length_app. simpl. lia. }
  split_and!.
  - intros Hr. rewrite (proj2 (Z.leb_le _ _)) by lia.
    rewrite (proj2 (Z.geb_le _ _)) by lia. simpl.
    split; [rewrite length_app; simpl; lia|].
    rewrite (Hn1 (to_byte (ob (short_branch bt)))).
    rewrite (cons_middle _ (m_il g)), (assoc_L (++)). rewrite getI1_byte.
    f_equal. destruct (decide (offset < 128)).
    + rewrite (to_char_small offset) by lia. apply to_char_to_byte. lia.
    + replace (to_char offset) with (offset - 256)
        by (unfold to_char; rewrite <- (Z.mod_add _ (-1) 256) by lia;
            rewrite Z.mod_small by lia; lia).
      unfold to_char, to_byte. rewrite Z.add_mod_idemp_l by lia.
      rewrite <- (Z.mod_add _ 1 256) by lia. rewrite Z.mod_small by lia. lia.
  - intros ->. simpl. split; [rewrite length_app; simpl; lia|].
    rewrite (Hn1 (to_byte (ob (short_branch bt)))).
    rewrite (cons_middle _ (m_il g)), (assoc_L (++)). by rewrite getI1_byte.
  - intros Hr.
    assert (((offset - 2 <=? 128) && (offset - 2 >=? -127))%Z = false) as ->.
    { apply andb_false_iff. destruct Hr.
      - right. destruct (Z.geb_spec (offset - 2) (-127)); [lia|done].
      - left. apply Z.leb_gt. lia. }
    split; [rewrite length_app; simpl; lia|].
    rewrite (Hn1 (to_byte (ob (long_branch bt)))).
    rewrite (cons_middle _ (m_il g)), (assoc_L (++)).
    rewrite <- (app_nil_r (int_bytes _)).
    rewrite getI4_int_bytes. by rewrite to_int_idemp, to_int_small by lia.
Qed.

(** X8: the operand [branch(BranchType, int offset)] writes reads back as
    [offset - 2] in the short form, which is chosen for offsets from -125
    to 130 and is right up to 129, and as [offset - 5] in the long form;
    at 130 the short form is chosen and reads back as -128. *)
Theorem branch_offset_read_back (ob : OPCODE → Z) (bt : BranchType)
    (offset : Z) (g : ILGenerator) :
  -2147483643 ≤ offset < 2147483648 →
  (-125 ≤ offset ≤ 129 →
     Z.of_nat (length (m_il (branch_offset ob bt offset g)))
       = Z.of_nat (length (m_il g)) + 2
     ∧ getI1LittleEndian (m_il (branch_offset ob bt offset g))
         (Z.of_nat (length (m_il g)) + 1) = Done (offset - 2))
  ∧ (offset = 130 →
     Z.of_nat (length (m_il (branch_offset ob bt offset g)))
       = Z.of_nat (length (m_il g)) + 2
     ∧ getI1LittleEndian (m_il (branch_offset ob bt offset g))
         (Z.of_nat (length (m_il g)) + 1) = Done (-128))
  ∧ (offset < -125 ∨ 130 < offset →
     Z.of_nat (length (m_il (branch_offset ob bt offset g)))
       = Z.of_nat (length (m_il g)) + 5
     ∧ getI4LittleEndian (m_il (branch_offset ob bt offset g))
         (Z.of_nat (length (m_il g)) + 1) = Done (offset - 5)).
Proof. intros H. exact (branch_offset_decodes ob bt offset g H). Qed.

Lemma branch_offset_read_back_witness :
  getI1LittleEndian (m_il (branch_offset ecma_opcode_byte BranchTrue 100
                             (ILGenerator_new 1))) 1 = Done 98.
Proof.
  apply (branch_offset_read_back ecma_opcode_byte BranchTrue 100 (ILGenerator_new 1));
    lia.
Defined.

(** X9: after [mark_label], every branch site recorded for the label reads
    back as a branch to the label: the target [dumpSingleInstr] computes
    from the four bytes at the site is the label's location. *)
Theorem mark_label_resolves_branches (D : bool) (ob : OPCODE → Z)
    (g : ILGenerator) (label : Label) (info : LabelInfo) :
  reachable D ob g →
  Z.of_nat (length (m_il g)) + 5 < 2147483648 →
  at_int (m_labels g) (label_index label) = Done info →
  m_location info = -1 →
  ∃ g', mark_label label g = Done g'
    ∧ ∀ from, from ∈ m_branchOffsets info →
        ∃ jOp, getI4LittleEndian (m_il g') from = Done jOp
             ∧ dump_jump_target from 4 jOp = Z.of_nat (length (m_il g)).
Proof.
  intros Hr Hsize Hat Hloc.
  assert (Hok : labels_ok g) by (eapply reachable_labels_ok; [done|lia]).
  apply at_int_Done in Hat as Hat'. destruct Hat' as [Hidx Hlook].
  unfold labels_ok in Hok. eapply Forall_lookup_1 in Hok as [Hsites _]; [|done].
  destruct (mark_label_unbound g label info) as (il' & Hd & Hlen & Hw & _);
    try done; [lia|].
  eexists. split; [exact Hd|]. simpl. intros from Hfrom.
  destruct Hsites as [Hin _]. rewrite Forall_forall in Hin.
  specialize (Hin from Hfrom). simpl in Hin.
  exists (Z.of_nat (length (m_il g)) - (from + 4)). split.
  - unfold getI4LittleEndian.
    rewrite (read_bytes_il_word il' from
               (int_bytes (Z.of_nat (length (m_il g)) - (from + 4))));
      [|lia|done|by apply Hw].
    unfold mbind, outcome_bind, mret, outcome_ret. f_equal.
    destruct (int_bytes_little_endian (Z.of_nat (length (m_il g)) - (from + 4)))
      as [_ ->].
    by rewrite to_int_mod, to_int_small by lia.
  - unfold dump_jump_target. rewrite !to_int_small by (rewrite ?to_int_small; lia).
    lia.
Qed.

Lemma mark_label_resolves_branches_witness :
  ∃ g', mark_label (mkLabel 0) generator_with_pending_branch = Done g'
      ∧ ∃ jOp, getI4LittleEndian (m_il g') 1 = Done jOp
             ∧ dump_jump_target 1 4 jOp = 6.
Proof.
  destruct (mark_label_resolves_branches false ecma_opcode_byte
              generator_with_pending_branch (mkLabel 0) (mkLabelInfo (-1) [1]))
    as (g' & Hm & Hall).
  - eapply reach_step; [eapply reach_step; [eapply reach_step; [apply (reach_new _ _ 1)|]|]|].
    + apply step_define_label.
    + by eapply (step_branch _ _ BranchAlways (mkLabel 0)).
    + apply (step_push_back _ _ 0).
  - vm_compute. reflexivity.
  - reflexivity.
  - reflexivity.
  - exists g'. split; [exact Hm|]. apply (Hall 1). by left.
Defined.

(** X10: a branch to a bound label is resolved when it is emitted: the
    operand reads back as a branch to the label's location, in the short
    form when the label is at most 125 bytes back and in the long form
    otherwise; the labels are left as they are. *)
Theorem branch_to_bound_label_resolves (D : bool) (ob : OPCODE → Z)
    (bt : BranchType) (g : ILGenerator) (label : Label) (info : LabelInfo) :
  reachable D ob g →
  Z.of_nat (length (m_il g)) + 5 < 2147483648 →
  at_int (m_labels g) (label_index label) = Done info →
  m_location info ≠ -1 →
  ∃ g' jOp,
    branch ob bt label g = Done g'
    ∧ m_labels g' = m_labels g
    ∧ (if decide (-125 ≤ m_location info - Z.of_nat (length (m_il g)))
       then getI1LittleEndian (m_il g') (Z.of_nat (length (m_il g)) + 1) = Done jOp
            ∧ dump_jump_target (Z.of_nat (length (m_il g)) + 1) 1 jOp
              = m_location info
       else getI4LittleEndian (m_il g') (Z.of_nat (length (m_il g)) + 1) = Done jOp
            ∧ dump_jump_target (Z.of_nat (length (m_il g)) + 1) 4 jOp
              = m_location info).
Proof.
  intros Hr Hsize Hat Hloc.
  assert (Hok : labels_ok g) by (eapply reachable_labels_ok; [done|lia]).
  apply at_int_Done in Hat as Hat'. destruct Hat' as [Hidx Hlook].
  unfold labels_ok in Hok. eapply Forall_lookup_1 in Hok as [_ [?|Hl]]; [done| |done].
  unfold branch. rewrite Hat. simpl. rewrite decide_False by done.
  set (off := m_location info - Z.of_nat (length (m_il g))).
  rewrite (to_int_small off) by (unfold off; lia).
  destruct (branch_offset_decodes ob bt off g) as (Hshort & _ & Hlong);
    [unfold off; lia|].
  case_decide as Hnear.
  - exists (branch_offset ob bt off g), (off - 2).
    destruct Hshort as [_ Hs]; [unfold off in *; lia|].
    split_and!; [done|apply branch_offset_labels|done|].
    unfold dump_jump_target, off.
    rewrite !to_int_small by (rewrite ?to_int_small; lia). lia.
  - exists (branch_offset ob bt off g), (off - 5).
    destruct Hlong as [_ Hs]; [unfold off in *; lia|].
    split_and!; [done|apply branch_offset_labels|done|].
    unfold dump_jump_target, off.
    rewrite !to_int_small by (rewrite ?to_int_small; lia). lia.
Qed.

Lemma branch_to_bound_label_resolves_witness :
  ∃ g' jOp,
    branch ecma_opcode_byte BranchAlways (mkLabel 0) generator_with_bound_label
      = Done g'
    ∧ getI1LittleEndian (m_il g') 4 = Done jOp
    ∧ dump_jump_target 4 1 jOp = 0.
Proof.
  destruct (branch_to_bound_label_resolves false ecma_opcode_byte BranchAlways
              generator_with_bound_label (mkLabel 0) (mkLabelInfo 0 []))
    as (g' & jOp & Hb & _ & Hdec).
  - eapply reach_step; [eapply reach_step; [eapply reach_step;
      [eapply reach_step; [eapply reach_step; [apply (reach_new _ _ 1)|]|]|]|]|].
    + apply step_define_label.
    + by eapply (step_mark_label _ _ (mkLabel 0)).
    + apply (step_push_back _ _ 0).
    + apply (step_push_back _ _ 0).
    + apply (step_push_back _ _ 0).
  - vm_compute. reflexivity.
  - reflexivity.
  - discriminate.
  - exists g', jOp. split; [exact Hb|]. exact Hdec.
Defined.
End Targets.

Section LabelFrame.
Local Open Scope Z_scope.

(** X11: [mark_label] changes nothing but the four bytes at each recorded
    branch site and the location of its label: the IL keeps its length,
    every byte outside the sites, the locals and the other labels stay. *)
Theorem mark_label_touches_only_sites (D : bool) (ob : OPCODE → Z)
    (g : ILGenerator) (label : Label) (info : LabelInfo) :
  reachable D ob g →
  Z.of_nat (length (m_il g)) < 2147483648 →
  at_int (m_labels g) (label_index label) = Done info →
  m_location info = -1 →
  ∃ g', mark_label label g = Done g'
    ∧ length (m_il g') = length (m_il g)
    ∧ (∀ k : nat,
         (∀ from, from ∈ m_branchOffsets info → ¬ (from ≤ Z.of_nat k < from + 4)) →
         m_il g' !! k = m_il g !! k)
    ∧ gen_locals g' = gen_locals g
    ∧ m_freedLocals g' = m_freedLocals g
    ∧ m_localCount g' = m_localCount g
    ∧ length (m_labels g') = length (m_labels g)
    ∧ (∀ i, i ≠ Z.to_nat (label_index label) →
         m_labels g' !! i = m_labels g !! i)
    ∧ (∃ info', at_int (m_labels g') (label_index label) = Done info'
         ∧ m_branchOffsets info' = m_branchOffsets info).
Proof.
  intros Hr Hsize Hat Hloc.
  assert (Hok : labels_ok g) by (by eapply reachable_labels_ok).
  apply at_int_Done in Hat as Hat'. destruct Hat' as [Hidx Hlook].
  unfold labels_ok in Hok. eapply Forall_lookup_1 in Hok as [Hsites _]; [|done].
  destruct (mark_label_unbound g label info) as (il' & Hd & Hlen & _ & Hout);
    try done.
  eexists. split; [exact Hd|]. simpl. split_and!; try done.
  - by rewrite length_insert.
  - intros i Hi. by rewrite list_lookup_insert_ne by done.
  - exists (mkLabelInfo (Z.of_nat (length (m_il g))) (m_branchOffsets info)).
    split; [|reflexivity]. apply at_int_Done. split; [done|].
    apply list_lookup_insert_eq. by eapply lookup_lt_Some.
Qed.

Lemma mark_label_touches_only_sites_witness :
  ∃ g', mark_label (mkLabel 0) generator_with_pending_branch = Done g'
      ∧ m_il g' !! 0%nat = Some 56 ∧ m_il g' !! 5%nat = Some 0.
Proof.
  destruct (mark_label_touches_only_sites false ecma_opcode_byte
              generator_with_pending_branch (mkLabel 0) (mkLabelInfo (-1) [1]))
    as (g' & Hm & _ & Hout & _).
  - eapply reach_step; [eapply reach_step; [eapply reach_step; [apply (reach_new _ _ 1)|]|]|].
    + apply step_define_label.
    + by eapply (step_branch _ _ BranchAlways (mkLabel 0)).
    + apply (step_push_back _ _ 0).
  - vm_compute. reflexivity.
  - reflexivity.
  - reflexivity.
  - exists g'. split; [exact Hm|]. split.
    + rewrite (Hout 0%nat); [reflexivity|].
      intros from ->%list_elem_of_singleton. lia.
    + rewrite (Hout 5%nat); [reflexivity|].
      intros from ->%list_elem_of_singleton. lia.
Defined.

(** X12: [define_label] returns the index of a new last label that is not
    bound and has no branch site; the labels before it and the IL are
    unchanged, and the next [define_label] returns the index after it. *)
Theorem define_label_fresh (g : ILGenerator) :
  Z.of_nat (length (m_labels g)) + 2 < 2147483648 →
  label_index (define_label g).1 = Z.of_nat (length (m_labels g))
  ∧ at_int (m_labels (define_label g).2) (label_index (define_label g).1)
    = Done LabelInfo_new
  ∧ (∀ i info, m_labels g !! i = Some info →
               m_labels (define_label g).2 !! i = Some info)
  ∧ m_il (define_label g).2 = m_il g
  ∧ label_index (define_label (define_label g).2).1
    = label_index (define_label g).1 + 1
  ∧ mark_label (define_label g).1 (define_label g).2
    = Done (mkILGenerator (gen_locals g) (m_freedLocals g) (m_il g)
              (m_localCount g)
              (m_labels g ++ [mkLabelInfo (to_int (Z.of_nat (length (m_il g)))) []])).
Proof.
  intros Hsize. unfold define_label. simpl.
  rewrite !length_app. simpl.
  rewrite !to_int_small by lia.
  assert (Hat : at_int (m_labels g ++ [LabelInfo_new])
                  (Z.of_nat (length (m_labels g) + 1) - 1) = Done LabelInfo_new).
  { apply at_int_Done. split; [lia|].
    replace (Z.to_nat (Z.of_nat (length (m_labels g) + 1) - 1))
      with (length (m_labels g)) by lia.
    by rewrite lookup_app_r, Nat.sub_diag. }
  split_and!; try done; try lia.
  - intros i info Hi. by apply lookup_app_l_Some.
  - unfold mark_label. cbn [m_labels label_index m_il gen_locals m_freedLocals m_localCount].
    rewrite Hat. cbn. repeat f_equal.
    replace (Z.to_nat (Z.of_nat (length (m_labels g) + 1) - 1))
      with (length (m_labels g) + 0)%nat by lia.
    by rewrite insert_app_r.
Qed.

Lemma define_label_fresh_witness :
  label_index (define_label (ILGenerator_new 1)).1 = 0
  ∧ at_int (m_labels (define_label (ILGenerator_new 1)).2) 0 = Done LabelInfo_new.
Proof.
  destruct (define_label_fresh (ILGenerator_new 1)) as (H1 & H2 & _).
  - simpl. lia.
  - split; [exact H1|exact H2].
Defined.

(** X13: in every generator reached through the public interface, the
    branch sites recorded for a label lie inside the IL behind an opcode
    byte, in ascending order without overlap, and a bound label's location
    is a position of the IL. *)
Theorem reachable_labels_in_order (D : bool) (ob : OPCODE → Z)
    (g : ILGenerator) (i : nat) (info : LabelInfo) :
  reachable D ob g →
  Z.of_nat (length (m_il g)) < 2147483648 →
  m_labels g !! i = Some info →
  Forall (λ from, 1 ≤ from ∧ from + 4 ≤ Z.of_nat (length (m_il g)))
         (m_branchOffsets info)
  ∧ spaced (m_branchOffsets info)
  ∧ (m_location info = -1 ∨ 0 ≤ m_location info ≤ Z.of_nat (length (m_il g))).
Proof.
  intros Hr Hsize Hi.
  pose proof (reachable_labels_ok D ob g Hr Hsize) as Hok.
  unfold labels_ok in Hok. eapply Forall_lookup_1 in Hok as [[? ?] ?]; [|done].
  done.
Qed.

Lemma reachable_labels_in_order_witness :
  Forall (λ from, 1 ≤ from ∧ from + 4 ≤ 6) [1] ∧ spaced [1].
Proof.
  destruct (reachable_labels_in_order false ecma_opcode_byte
              generator_with_pending_branch 0%nat (mkLabelInfo (-1) [1]))
    as (H1 & H2 & _).
  - eapply reach_step; [eapply reach_step; [eapply reach_step; [apply (reach_new _ _ 1)|]|]|].
    + apply step_define_label.
    + by eapply (step_branch _ _ BranchAlways (mkLabel 0)).
    + apply (step_push_back _ _ 0).
  - vm_compute. reflexivity.
  - reflexivity.
  - split; [exact H1|exact H2].
Defined.
End LabelFrame.

Section EmitterFrame.
Local Open Scope Z_scope.

(** ** The emitters only append *)

Lemma pushes_appends g g' : pushes g g' → appends g g'.
Proof.
  induction 1 as [|b g' _ IH].
  - split_and!; try done. exists []. by rewrite app_nil_r.
  - destruct IH as ((bytes & Hil & Hb) & Hl & Hlo & Hf & Hc).
    split_and!; try done.
    exists (bytes ++ [to_byte b]). split.
    + rewrite push_back_il, Hil. by rewrite (assoc_L (++)).
    + apply Forall_app. split; [done|]. apply Forall_singleton.
      unfold to_byte. apply Z.mod_pos_bound. lia.
Qed.

Lemma pushes_reachable D ob g g' :
  pushes g g' → reachable D ob g → reachable D ob g'.
Proof.
  induction 1 as [|b g' _ IH]; [done|]. intros Hr.
  eapply reach_step; [by apply IH|]. apply step_push_back.
Qed.

Lemma pushes_trans g1 g2 g3 : pushes g1 g2 → pushes g2 g3 → pushes g1 g3.
Proof. intros H12. induction 1; [done|]. by apply pushes_step. Qed.

Lemma pushes_emit_int value g g' : pushes g g' → pushes g (emit_int value g').
Proof. intros H. unfold emit_int. by repeat apply pushes_step. Qed.

Lemma pushes_ld_i4 cee i g g' : pushes g g' → pushes g (ld_i4 cee i g').
Proof.
  intros H. unfold ld_i4.
  repeat case_decide; by repeat apply pushes_step.
Qed.

Lemma pushes_compare_eq cee g g' : pushes g g' → pushes g (compare_eq cee g').
Proof. intros H. unfold compare_eq. by repeat apply pushes_step. Qed.

Lemma run_emitter_pushes cee c g g' :
  run_emitter cee c g = Done g' → pushes g g'.
Proof.
  destruct c; simpl;
    try (intros [= <-];
         unfold localloc, ret, load_null, st_ind_i, ld_ind_i, st_ind_i4, ld_ind_i4,
           ld_ind_r8, neg, dup, bitwise_and, il_pop, compare_ne, compare_gt,
           compare_lt, compare_ge, compare_le, compare_ge_float, compare_le_float,
           ld_i_int, ld_i_ptr, emit_call, il_add, il_sub, il_div, il_mod, il_mul;
         repeat case_decide;
         repeat first [ apply pushes_step | apply pushes_compare_eq
                      | apply pushes_ld_i4 | apply pushes_emit_int ];
         apply pushes_refl).
  - unfold st_loc, assert. case_bool_decide; [|done]. simpl. intros [= <-].
    repeat case_decide; repeat apply pushes_step; apply pushes_refl.
  - unfold ld_loc, assert. case_bool_decide; [|done]. simpl. intros [= <-].
    repeat case_decide; repeat apply pushes_step; apply pushes_refl.
  - unfold ld_loca, assert. case_bool_decide; [|done]. simpl. intros [= <-].
    repeat case_decide; repeat apply pushes_step; apply pushes_refl.
  - unfold ld_arg, assert. case_bool_decide; [|done]. simpl. intros [= <-].
    repeat case_decide; repeat apply pushes_step; apply pushes_refl.
Qed.

Lemma pushes_length g g' : pushes g g' → (length (m_il g) ≤ length (m_il g'))%nat.
Proof.
  induction 1 as [|b g' _ IH]; [done|].
  rewrite push_back_il, length_app. simpl. lia.
Qed.

Lemma pushes_step_longer b g g' :
  pushes g g' → (length (m_il g) < length (m_il (push_back b g')))%nat.
Proof.
  intros H%pushes_length. rewrite push_back_il, length_app. simpl. lia.
Qed.

Ltac solve_pushes :=
  repeat first [ apply pushes_step | apply pushes_compare_eq
               | apply pushes_ld_i4 | apply pushes_emit_int ];
  apply pushes_refl.

Lemma run_emitter_longer cee c g g' :
  run_emitter cee c g = Done g' → (length (m_il g) < length (m_il g'))%nat.
Proof.
  destruct c; simpl;
    try (intros [= <-];
         unfold localloc, ret, ld_i4, load_null, st_ind_i, ld_ind_i, st_ind_i4,
           ld_ind_i4, ld_ind_r8, neg, dup, bitwise_and, il_pop, compare_eq,
           compare_ne, compare_gt, compare_lt, compare_ge, compare_le,
           compare_ge_float, compare_le_float, ld_i_int, ld_i_ptr, emit_call,
           il_add, il_sub, il_div, il_mod, il_mul;
         repeat case_decide; apply pushes_step_longer; solve_pushes).
  - unfold st_loc, assert. case_bool_decide; [|done]. simpl. intros [= <-].
    repeat case_decide; apply pushes_step_longer; solve_pushes.
  - unfold ld_loc, assert. case_bool_decide; [|done]. simpl. intros [= <-].
    repeat case_decide; apply pushes_step_longer; solve_pushes.
  - unfold ld_loca, assert. case_bool_decide; [|done]. simpl. intros [= <-].
    repeat case_decide; apply pushes_step_longer; solve_pushes.
  - unfold ld_arg, assert. case_bool_decide; [|done]. simpl. intros [= <-].
    repeat case_decide; apply pushes_step_longer; solve_pushes.
Qed.

(** X14: every other emitter of the generator only appends bytes to the
    IL, at least one: what was emitted before, the labels with their branch
    sites and the locals are unchanged, so the generator stays among the
    reachable ones and the label invariants carry over. *)
Theorem emitters_only_append (cee : CEE → Z) (c : EmitterCall)
    (g g' : ILGenerator) :
  run_emitter cee c g = Done g' →
  appends g g'
  ∧ (length (m_il g) < length (m_il g'))%nat
  ∧ (∀ D ob, reachable D ob g → reachable D ob g').
Proof.
  intros Hrun. pose proof (run_emitter_pushes _ _ _ _ Hrun) as Hp.
  split_and!.
  - by apply pushes_appends.
  - by eapply run_emitter_longer.
  - intros D ob. by apply pushes_reachable.
Qed.

Lemma emitters_only_append_witness :
  appends (ILGenerator_new 1) (compare_ne (λ _, 1) (ILGenerator_new 1)).
Proof.
  apply (emitters_only_append (λ _, 1) Call_compare_ne (ILGenerator_new 1)).
  reflexivity.
Defined.
End EmitterFrame.

Section Operands.
Local Open Scope Z_scope.

(** ** Operands of the load and store instructions *)

Lemma getU1_byte prefix b rest :
  getU1LittleEndian (prefix ++ b :: rest) (Z.of_nat (length prefix)) = Done b.
Proof.
  unfold getU1LittleEndian.
  pose proof (read_bytes_app prefix [b] rest) as Hr. simpl in Hr.
  rewrite Hr. simpl. unfold mret, outcome_ret, le_value. simpl.
  by rewrite Z.mul_0_r, Z.add_0_r.
Qed.

Lemma getU2_bytes prefix b0 b1 rest :
  getU2LittleEndian (prefix ++ b0 :: b1 :: rest) (Z.of_nat (length prefix))
  = Done (b0 + 256 * b1).
Proof.
  unfold getU2LittleEndian.
  pose proof (read_bytes_app prefix [b0; b1] rest) as Hr. simpl in Hr.
  rewrite Hr. simpl. unfold mret, outcome_ret, le_value. simpl.
  by rewrite Z.mul_0_r, Z.add_0_r.
Qed.

Lemma to_byte_small z : 0 ≤ z < 256 → to_byte z = z.
Proof. intros H. unfold to_byte. by apply Z.mod_small. Qed.

Lemma to_char_range z : -128 ≤ to_char z < 128.
Proof.
  unfold to_char. pose proof (Z.mod_pos_bound (z + 128) 256). lia.
Qed.

Lemma low_two_bytes index :
  0 ≤ index < 65536 →
  Z.land index 255 + 256 * Z.land (Z.shiftr index 8) 255 = index.
Proof.
  intros H. change 255 with (Z.ones 8). rewrite !Z.land_ones by lia.
  rewrite Z.shiftr_div_pow2 by lia. change (2 ^ 8) with 256.
  rewrite (Z.mod_small (index / 256)).
  - pose proof (Z.div_mod index 256). lia.
  - split; [apply Z.div_pos; lia|]. apply Z.div_lt_upper_bound; lia.
Qed.

(** The bytes behind [prefix] and one more byte, then behind two. *)
Lemma getU1_after_opcode il op b :
  getU1LittleEndian (il ++ [op; b]) (Z.of_nat (length il) + 1) = Done b.
Proof.
  rewrite (cons_middle op il), (assoc_L (++)).
  replace (Z.of_nat (length il) + 1) with (Z.of_nat (length (il ++ [op])))
    by (rewrite length_app; simpl; lia).
  apply getU1_byte.
Qed.

Lemma getU2_after_prefix il p op b0 b1 :
  getU2LittleEndian (il ++ [p; op; b0; b1]) (Z.of_nat (length il) + 2)
  = Done (b0 + 256 * b1).
Proof.
  change (il ++ [p; op; b0; b1]) with (il ++ [p; op] ++ [b0; b1]).
  rewrite (assoc_L (++)).
  replace (Z.of_nat (length il) + 2) with (Z.of_nat (length (il ++ [p; op])))
    by (rewrite length_app; simpl; lia).
  apply getU2_bytes.
Qed.

(** X15: the index [st_loc], [ld_loc] and [ld_loca] write reads back:
    indices 0 to 3 take a one-byte instruction of their own (not for
    [ld_loca]), other indices below 256 the short form with the index in
    one byte, indices up to 65535 the two-byte opcode with the index in two
    bytes; the index -1 fails the assertion. *)
Theorem local_index_read_back (cee : CEE → Z) (index : Z) (g : ILGenerator) :
  0 ≤ index < 65536 →
  (∃ g1 g2 g3,
     st_loc cee index g = Done g1 ∧ ld_loc cee index g = Done g2
     ∧ ld_loca cee index g = Done g3
     ∧ (index ≤ 3 →
        length (m_il g1) = S (length (m_il g))
        ∧ length (m_il g2) = S (length (m_il g)))
     ∧ (4 ≤ index < 256 →
        getU1LittleEndian (m_il g1) (Z.of_nat (length (m_il g)) + 1) = Done index
        ∧ getU1LittleEndian (m_il g2) (Z.of_nat (length (m_il g)) + 1) = Done index)
     ∧ (index < 256 →
        getU1LittleEndian (m_il g3) (Z.of_nat (length (m_il g)) + 1) = Done index)
     ∧ (256 ≤ index →
        getU2LittleEndian (m_il g1) (Z.of_nat (length (m_il g)) + 2) = Done index
        ∧ getU2LittleEndian (m_il g2) (Z.of_nat (length (m_il g)) + 2) = Done index
        ∧ getU2LittleEndian (m_il g3) (Z.of_nat (length (m_il g)) + 2) = Done index))
  ∧ st_loc cee (-1) g = AssertionFailed
  ∧ ld_loc cee (-1) g = AssertionFailed
  ∧ ld_loca cee (-1) g = AssertionFailed.
Proof.
  intros Hidx. split; [|done].
  unfold st_loc, ld_loc, ld_loca, assert.
  rewrite bool_decide_eq_true_2 by lia. simpl.
  eexists _, _, _. split_and!; try reflexivity.
  - intros Hle. repeat case_decide; try lia;
      rewrite !push_back_il, !length_app; simpl; lia.
  - intros Hr. repeat case_decide; try lia.
    rewrite !push_back_il, <- !(assoc_L (++)). simpl.
    rewrite (to_byte_small index) by lia. by rewrite !getU1_after_opcode.
  - intros Hr. repeat case_decide; try lia.
    rewrite !push_back_il, <- !(assoc_L (++)). simpl.
    rewrite (to_byte_small index) by lia. by rewrite !getU1_after_opcode.
  - intros Hr. repeat case_decide; try lia.
    rewrite !push_back_il, <- !(assoc_L (++)). simpl.
    rewrite !to_byte_land, !getU2_after_prefix. by rewrite low_two_bytes.
Qed.

Lemma local_index_read_back_witness :
  ∃ g1, st_loc (λ _, 1) 300 (ILGenerator_new 1) = Done g1
      ∧ getU2LittleEndian (m_il g1) 2 = Done 300.
Proof.
  destruct (local_index_read_back (λ _, 1) 300 (ILGenerator_new 1))
    as [(g1 & g2 & g3 & H1 & _ & _ & _ & _ & _ & Hlong) _].
  - lia.
  - exists g1. split; [exact H1|]. apply Hlong. lia.
Defined.

(** X16: what [ld_i4] writes.  The constants -1 to 7 take one byte.  Any
    other constant below 256 takes the short form, whose operand reads back
    as the constant exactly when it fits a signed byte: otherwise it reads
    back as another number, from 128 to 255 as the constant minus 256.
    From 256 on, six bytes are written and the constant reads back from the
    four bytes that follow the first two. *)
Theorem ld_i4_read_back (cee : CEE → Z) (i : Z) (g : ILGenerator) :
  -2147483648 ≤ i < 2147483648 →
  (-1 ≤ i ≤ 7 → length (m_il (ld_i4 cee i g)) = S (length (m_il g)))
  ∧ (-128 ≤ i < -1 ∨ 8 ≤ i ≤ 127 →
     length (m_il (ld_i4 cee i g)) = S (S (length (m_il g)))
     ∧ getI1LittleEndian (m_il (ld_i4 cee i g)) (Z.of_nat (length (m_il g)) + 1)
       = Done i)
  ∧ (i < -128 ∨ 128 ≤ i < 256 →
     length (m_il (ld_i4 cee i g)) = S (S (length (m_il g)))
     ∧ ∃ r, getI1LittleEndian (m_il (ld_i4 cee i g)) (Z.of_nat (length (m_il g)) + 1)
            = Done r
          ∧ r ≠ i ∧ (128 ≤ i → r = i - 256))
  ∧ (256 ≤ i →
     length (m_il (ld_i4 cee i g)) = (length (m_il g) + 6)%nat
     ∧ getI4LittleEndian (m_il (ld_i4 cee i g)) (Z.of_nat (length (m_il g)) + 2)
       = Done i).
Proof.
  intros Hi. unfold ld_i4. split_and!.
  - intros Hr. repeat case_decide; try lia; by rewrite push_back_il, length_app;
      simpl; lia.
  - intros Hr. repeat case_decide; try lia.
    rewrite !push_back_il, <- !(assoc_L (++)). simpl.
    split; [rewrite length_app; simpl; lia|].
    rewrite (cons_middle _ (m_il g)), (assoc_L (++)).
    replace (Z.of_nat (length (m_il g)) + 1)
      with (Z.of_nat (length (m_il g ++ [to_byte (cee CEE_LDC_I4_S)])))
      by (rewrite length_app; simpl; lia).
    rewrite getI1_byte. f_equal. apply to_char_to_byte. lia.
  - intros Hr. repeat case_decide; try lia.
    rewrite !push_back_il, <- !(assoc_L (++)). simpl.
    split; [rewrite length_app; simpl; lia|].
    rewrite (cons_middle _ (m_il g)), (assoc_L (++)).
    replace (Z.of_nat (length (m_il g)) + 1)
      with (Z.of_nat (length (m_il g ++ [to_byte (cee CEE_LDC_I4_S)])))
      by (rewrite length_app; simpl; lia).
    rewrite getI1_byte. eexists. split; [done|].
    pose proof (to_char_range (to_byte i)). split; [lia|].
    intros Hge. rewrite to_byte_small by lia.
    unfold to_char. rewrite <- (Z.mod_add _ (-1) 256) by lia.
    rewrite Z.mod_small by lia. lia.
  - intros Hr. repeat case_decide; try lia.
    destruct (emit_int_il i (push_back (to_char (cee CEE_STLOC))
                (push_back (cee CEE_LDC_I4) g))) as [-> _].
    rewrite !push_back_il, <- !(assoc_L (++)). simpl.
    split; [rewrite !length_app; simpl; lia|].
    change (m_il g ++ ?a :: ?b :: int_bytes i)
      with (m_il g ++ [a; b] ++ int_bytes i).
    rewrite (assoc_L (++)). rewrite <- (app_nil_r (int_bytes i)).
    replace (Z.of_nat (length (m_il g)) + 2)
      with (Z.of_nat (length (m_il g ++ [to_byte (cee CEE_LDC_I4);
                                          to_byte (to_char (cee CEE_STLOC))])))
      by (rewrite length_app; simpl; lia).
    by rewrite getI4_int_bytes, to_int_small.
Qed.

Lemma ld_i4_read_back_witness :
  (∃ r, getI1LittleEndian (m_il (ld_i4 (λ _, 1) 200 (ILGenerator_new 1))) 1 = Done r
        ∧ r = -56)
  ∧ getI4LittleEndian (m_il (ld_i4 (λ _, 1) 1000 (ILGenerator_new 1))) 2 = Done 1000.
Proof.
  split.
  - destruct (ld_i4_read_back (λ _, 1) 200 (ILGenerator_new 1)) as (_ & _ & H & _);
      [lia|].
    destruct H as (_ & r & Hr & _ & Heq); [lia|].
    exists r. split; [exact Hr|]. rewrite Heq; [reflexivity|lia].
  - apply (ld_i4_read_back (λ _, 1) 1000 (ILGenerator_new 1)); lia.
Defined.
End Operands.

Section Pointers.
Local Open Scope Z_scope.

(** ** Pointer constants *)

Lemma byte_of value k :
  0 ≤ k → Z.land (Z.shiftr value k) 255 = (value / 2 ^ k) mod 256.
Proof.
  intros Hk. change 255 with (Z.ones 8).
  by rewrite Z.land_ones, Z.shiftr_div_pow2 by lia.
Qed.

Lemma eight_bytes_little_endian value :
  0 ≤ value < 18446744073709551616 →
  le_value [ Z.land value 255;
             Z.land (Z.shiftr value 8) 255;
             Z.land (Z.shiftr value 16) 255;
             Z.land (Z.shiftr value 24) 255;
             Z.land (Z.shiftr value 32) 255;
             Z.land (Z.shiftr value 40) 255;
             Z.land (Z.shiftr value 48) 255;
             Z.land (Z.shiftr value 56) 255 ] = value.
Proof.
  intros Hv. rewrite <- (Z.shiftr_0_r value) at 1.
  rewrite !byte_of by lia. unfold le_value. simpl foldr.
  change (2 ^ 0) with 1. change (2 ^ 8) with 256.
  change (2 ^ 16) with (256 * 256).
  change (2 ^ 24) with (256 * 256 * 256).
  change (2 ^ 32) with (256 * 256 * 256 * 256).
  change (2 ^ 40) with (256 * 256 * 256 * 256 * 256).
  change (2 ^ 48) with (256 * 256 * 256 * 256 * 256 * 256).
  change (2 ^ 56) with (256 * 256 * 256 * 256 * 256 * 256 * 256).
  rewrite Z.div_1_r. rewrite <- !Z.div_div by lia.
  set (q1 := value / 256). set (q2 := q1 / 256). set (q3 := q2 / 256).
  set (q4 := q3 / 256). set (q5 := q4 / 256). set (q6 := q5 / 256).
  set (q7 := q6 / 256).
  pose proof (Z.div_mod value 256). pose proof (Z.div_mod q1 256).
  pose proof (Z.div_mod q2 256). pose proof (Z.div_mod q3 256).
  pose proof (Z.div_mod q4 256). pose proof (Z.div_mod q5 256).
  pose proof (Z.div_mod q6 256).
  assert (0 ≤ q7 < 256) as Hq7.
  { subst q7 q6 q5 q4 q3 q2 q1. rewrite !Z.div_div by lia.
    split; [apply Z.div_pos; lia|apply Z.div_lt_upper_bound; lia]. }
  rewrite (Z.mod_small q7) by lia.
  fold q1 in H. fold q2 in H0. fold q3 in H1. fold q4 in H2. fold q5 in H3.
  fold q6 in H4. fold q7 in H5. lia.
Qed.

Lemma land_low_word value :
  0 ≤ value → (Z.land value 4294967295 = value ↔ value < 4294967296).
Proof.
  intros Hv. change 4294967295 with (Z.ones 32). rewrite Z.land_ones by lia.
  change (2 ^ 32) with 4294967296. split.
  - intros <-. apply Z.mod_pos_bound. lia.
  - intros. apply Z.mod_small. lia.
Qed.

Lemma lor_disjoint lo hi :
  0 ≤ lo < 4294967296 → Z.lor lo (Z.shiftl hi 32) = lo + hi * 4294967296.
Proof.
  intros Hlo. pose proof (Z.add_lor_land lo (Z.shiftl hi 32)) as Hadd.
  assert (Z.land lo (Z.shiftl hi 32) = 0) as Hland; last first.
  - rewrite Hland in Hadd. rewrite Z.shiftl_mul_pow2 in * by lia.
    change (2 ^ 32) with 4294967296 in *. lia.
  - apply Z.bits_inj'. intros n Hn.
    rewrite Z.land_spec, Z.bits_0.
    destruct (decide (n < 32)) as [Hlt|Hge].
    + rewrite (Z.shiftl_spec_low hi 32 n) by lia. apply andb_false_r.
    + assert (lo mod 2 ^ 32 = lo) as <-
        by (apply Z.mod_small; change (2 ^ 32) with 4294967296; lia).
      by rewrite Z.mod_pow2_bits_high by lia.
Qed.

Lemma to_int64_small z :
  -9223372036854775808 ≤ z < 9223372036854775808 → to_int64 z = z.
Proof. intros H. unfold to_int64. rewrite Z.mod_small by lia. lia. Qed.

Lemma getU4_int_bytes prefix value rest :
  getU4LittleEndian (prefix ++ int_bytes value ++ rest) (Z.of_nat (length prefix))
  = Done (value mod 4294967296).
Proof.
  unfold getU4LittleEndian.
  pose proof (read_bytes_app prefix (int_bytes value) rest) as Hr.
  change (length (int_bytes value)) with 4%nat in Hr. rewrite Hr.
  destruct (int_bytes_little_endian value) as [_ Hle].
  unfold mbind, outcome_bind, mret, outcome_ret. by rewrite Hle.
Qed.

(** What the long form of [ld_i] for a pointer appends. *)
Lemma ld_i_ptr_long_il (cee : CEE → Z) value g :
  Z.land value 4294967295 ≠ value →
  m_il (ld_i_ptr cee value g)
  = m_il g ++ [to_byte (cee CEE_LDC_I8)]
      ++ (int_bytes value ++ int_bytes (Z.shiftr value 32))
      ++ [to_byte (cee CEE_CONV_I)].
Proof.
  intros Hne. unfold ld_i_ptr. rewrite decide_False by done.
  rewrite !push_back_il, !to_byte_land, <- !(assoc_L (++)). simpl.
  unfold int_bytes. rewrite !Z.shiftr_shiftr by lia. done.
Qed.

(** X17: the constant [ld_i] writes for a pointer, on AMD64.  A pointer
    below 2^32 is written as a four-byte constant: it reads back unchanged
    below 2^31, and as the pointer minus 2^32, a negative number, from 2^31
    on.  A larger pointer takes ten bytes and reads back from the eight
    that follow the opcode: unchanged below 2^63, also through the two
    four-byte reads of the instruction dump. *)
Theorem ld_i_ptr_read_back (cee : CEE → Z) (value : Z) (g : ILGenerator) :
  0 ≤ value < 18446744073709551616 →
  (value < 4294967296 →
     length (m_il (ld_i_ptr cee value g)) = (length (m_il g) + 6)%nat
     ∧ getI4LittleEndian (m_il (ld_i_ptr cee value g)) (Z.of_nat (length (m_il g)) + 1)
       = Done (if decide (value < 2147483648) then value else value - 4294967296))
  ∧ (4294967296 ≤ value →
     length (m_il (ld_i_ptr cee value g)) = (length (m_il g) + 10)%nat
     ∧ getI8LittleEndian (m_il (ld_i_ptr cee value g)) (Z.of_nat (length (m_il g)) + 1)
       = Done (to_int64 value)
     ∧ (value < 9223372036854775808 →
        getI8LittleEndian (m_il (ld_i_ptr cee value g)) (Z.of_nat (length (m_il g)) + 1)
          = Done value
        ∧ dump_inline_i8 (m_il (ld_i_ptr cee value g)) (Z.of_nat (length (m_il g)) + 1)
          = Done value)).
Proof.
  intros Hv. split.
  - intros Hlow. unfold ld_i_ptr.
    rewrite decide_True by (apply land_low_word; lia).
    unfold ld_i_int. rewrite push_back_il.
    destruct (emit_int_il (to_int value) (push_back (cee CEE_LDC_I4) g)) as [-> _].
    rewrite push_back_il. split; [rewrite !length_app; simpl; lia|].
    rewrite <- (assoc_L (++) (m_il g ++ _)).
    replace (Z.of_nat (length (m_il g)) + 1)
      with (Z.of_nat (length (m_il g ++ [to_byte (cee CEE_LDC_I4)])))
      by (rewrite length_app; simpl; lia).
    rewrite getI4_int_bytes, to_int_idemp. f_equal.
    case_decide.
    + apply to_int_small. lia.
    + unfold to_int. rewrite <- (Z.mod_add _ (-1) 4294967296) by lia.
      rewrite Z.mod_small by lia. lia.
  - intros Hhigh.
    assert (Z.land value 4294967295 ≠ value) as Hne.
    { intros Heq. apply land_low_word in Heq; lia. }
    rewrite (ld_i_ptr_long_il cee value g Hne).
    set (n := Z.of_nat (length (m_il g)) + 1).
    assert (n = Z.of_nat (length (m_il g ++ [to_byte (cee CEE_LDC_I8)]))) as Hn
      by (subst n; rewrite length_app; simpl; lia).
    assert (getI8LittleEndian
              (m_il g ++ [to_byte (cee CEE_LDC_I8)]
                 ++ (int_bytes value ++ int_bytes (Z.shiftr value 32))
                 ++ [to_byte (cee CEE_CONV_I)]) n = Done (to_int64 value)) as H8.
    { rewrite (assoc_L (++) (m_il g)), Hn. unfold getI8LittleEndian.
      pose proof (read_bytes_app (m_il g ++ [to_byte (cee CEE_LDC_I8)])
                    (int_bytes value ++ int_bytes (Z.shiftr value 32))
                    [to_byte (cee CEE_CONV_I)]) as Hr.
      change (length (int_bytes value ++ int_bytes (Z.shiftr value 32)))
        with 8%nat in Hr.
      rewrite Hr. unfold mbind, outcome_bind, mret, outcome_ret.
      f_equal. f_equal. unfold int_bytes. rewrite !Z.shiftr_shiftr by lia.
      by apply eight_bytes_little_endian. }
    split; [rewrite !length_app; simpl; lia|]. split; [exact H8|].
    intros H63. split; [by rewrite H8, to_int64_small by lia|].
    unfold dump_inline_i8.
    assert (getU4LittleEndian
              (m_il g ++ [to_byte (cee CEE_LDC_I8)]
                 ++ (int_bytes value ++ int_bytes (Z.shiftr value 32))
                 ++ [to_byte (cee CEE_CONV_I)]) n
            = Done (value mod 4294967296)) as Hlo.
    { rewrite (assoc_L (++) (m_il g)), Hn, <- (assoc_L (++) (int_bytes value)).
      apply getU4_int_bytes. }
    assert (getU4LittleEndian
              (m_il g ++ [to_byte (cee CEE_LDC_I8)]
                 ++ (int_bytes value ++ int_bytes (Z.shiftr value 32))
                 ++ [to_byte (cee CEE_CONV_I)]) (n + 4)
            = Done (value / 4294967296)) as Hhi.
    { rewrite <- (assoc_L (++) (int_bytes value)).
      rewrite (assoc_L (++) (m_il g)), (assoc_L (++) _ (int_bytes value)).
      replace (n + 4)
        with (Z.of_nat (length ((m_il g ++ [to_byte (cee CEE_LDC_I8)])
                                  ++ int_bytes value)))
        by (rewrite Hn, (length_app _ (int_bytes value)); simpl; lia).
      rewrite getU4_int_bytes, Z.shiftr_div_pow2 by lia.
      change (2 ^ 32) with 4294967296. f_equal. apply Z.mod_small.
      split; [apply Z.div_pos; lia|apply Z.div_lt_upper_bound; lia]. }
    rewrite Hlo, Hhi. unfold mbind, outcome_bind, mret, outcome_ret. f_equal.
    pose proof (Z.mod_pos_bound value 4294967296 ltac:(lia)) as Hm.
    assert (0 ≤ value / 4294967296 < 2147483648) as Hd
      by (split; [apply Z.div_pos; lia|apply Z.div_lt_upper_bound; lia]).
    pose proof (Z.div_mod value 4294967296 ltac:(lia)) as Hdm.
    rewrite (to_int64_small (value mod _)) by lia.
    rewrite (to_int64_small (value / _)) by lia.
    rewrite Z.shiftl_mul_pow2 by lia. change (2 ^ 32) with 4294967296.
    rewrite (to_int64_small (_ * _)) by lia.
    rewrite <- (Z.shiftl_mul_pow2 _ 32) by lia.
    rewrite lor_disjoint by lia. rewrite to_int64_small by lia. lia.
Qed.

Lemma ld_i_ptr_read_back_witness :
  getI4LittleEndian (m_il (ld_i_ptr (λ _, 1) 4026531840 (ILGenerator_new 1))) 1
    = Done (-268435456)
  ∧ dump_inline_i8 (m_il (ld_i_ptr (λ _, 1) 140737488355327 (ILGenerator_new 1))) 1
    = Done 140737488355327.
Proof.
  split.
  - apply (ld_i_ptr_read_back (λ _, 1) 4026531840 (ILGenerator_new 1)); lia.
  - apply (ld_i_ptr_read_back (λ _, 1) 140737488355327 (ILGenerator_new 1)); lia.
Defined.
End Pointers.

Section ArgumentLoads.
Local Open Scope Z_scope.

(** X18: the index [ld_arg] writes reads back like that of [ld_loc]; in
    the short form the byte before the index is the one [ld_arg(3)]
    writes.  The index -1 fails the assertion. *)
Theorem ld_arg_read_back (cee : CEE → Z) (index : Z) (g : ILGenerator) :
  0 ≤ index < 65536 →
  (∃ g1 g3,
     ld_arg cee index g = Done g1 ∧ ld_arg cee 3 g = Done g3
     ∧ (index ≤ 3 → length (m_il g1) = S (length (m_il g)))
     ∧ (4 ≤ index < 256 →
        m_il g1 = m_il g3 ++ [index]
        ∧ getU1LittleEndian (m_il g1) (Z.of_nat (length (m_il g)) + 1) = Done index)
     ∧ (256 ≤ index →
        length (m_il g1) = (length (m_il g) + 4)%nat
        ∧ getU2LittleEndian (m_il g1) (Z.of_nat (length (m_il g)) + 2) = Done index))
  ∧ ld_arg cee (-1) g = AssertionFailed.
Proof.
  intros Hidx. split; [|done].
  unfold ld_arg, assert.
  rewrite !bool_decide_eq_true_2 by lia. simpl.
  eexists _, _. split_and!; try reflexivity.
  - intros Hle. repeat case_decide; try lia;
      rewrite !push_back_il, !length_app; simpl; lia.
  - intros Hr. repeat case_decide; try lia.
    rewrite !push_back_il, (to_byte_small index) by lia. split; [done|].
    rewrite <- !(assoc_L (++)). simpl. by rewrite getU1_after_opcode.
  - intros Hr. repeat case_decide; try lia.
    rewrite !push_back_il, <- !(assoc_L (++)). simpl.
    split; [rewrite length_app; simpl; lia|].
    rewrite !to_byte_land, !getU2_after_prefix. by rewrite low_two_bytes.
Qed.

Lemma ld_arg_read_back_witness :
  ∃ g1, ld_arg (λ _, 1) 9 (ILGenerator_new 1) = Done g1
      ∧ getU1LittleEndian (m_il g1) 1 = Done 9.
Proof.
  destruct (ld_arg_read_back (λ _, 1) 9 (ILGenerator_new 1))
    as [(g1 & g3 & H1 & _ & _ & Hshort & _) _].
  - lia.
  - exists g1. split; [exact H1|]. apply Hshort. lia.
Defined.
End ArgumentLoads.

(** ** Modules over modules *)

(** X19: a [UserModule] whose parent is a [UserModule] resolves like one
    module over the grandparent that holds the child's entries and those
    of the parent the child does not override. *)
Theorem nested_modules_resolve_as_one {P} `{IModule P} (root : P)
    (mt1 mt2 : gmap Z IMethodPtr) (ma1 ma2 : gmap VoidPtr Z)
    (tokenId : Z) (addr : VoidPtr) :
  UserModule_ResolveMethod (mkUserModule (mkUserModule root mt1 ma1) mt2 ma2) tokenId
  = UserModule_ResolveMethod (mkUserModule root (mt2 ∪ mt1) (ma2 ∪ ma1)) tokenId
  ∧ UserModule_ResolveMethodToken (mkUserModule (mkUserModule root mt1 ma1) mt2 ma2) addr
  = UserModule_ResolveMethodToken (mkUserModule root (mt2 ∪ mt1) (ma2 ∪ ma1)) addr.
Proof.
  unfold UserModule_ResolveMethod, UserModule_ResolveMethodToken. simpl.
  unfold UserModule_ResolveMethod, UserModule_ResolveMethodToken. simpl.
  rewrite !lookup_union. split.
  - destruct (mt2 !! tokenId), (mt1 !! tokenId); done.
  - destruct (ma2 !! addr), (ma1 !! addr); done.
Qed.

(** ** ExceptionVars with and without the finally slots *)

(** X20: constructing with [isFinally] is constructing without it and then
    reserving three more locals, in the order FinallyExc, FinallyTb,
    FinallyValue: the three Prev fields are the same, and without
    [isFinally] the Finally fields stay as default-constructed. *)
Theorem ExceptionVars_finally_extends {C} `{IPythonCompiler C} (dflt : Local)
    (comp : C) :
  let plain := ExceptionVars_new dflt comp false in
  let full := ExceptionVars_new dflt comp true in
  let r1 := emit_define_local false plain.2 in
  let r2 := emit_define_local false r1.2 in
  let r3 := emit_define_local false r2.2 in
  PrevExc full.1 = PrevExc plain.1
  ∧ PrevExcVal full.1 = PrevExcVal plain.1
  ∧ PrevTraceback full.1 = PrevTraceback plain.1
  ∧ FinallyExc plain.1 = dflt ∧ FinallyTb plain.1 = dflt ∧ FinallyValue plain.1 = dflt
  ∧ FinallyExc full.1 = r1.1 ∧ FinallyTb full.1 = r2.1 ∧ FinallyValue full.1 = r3.1
  ∧ full.2 = r3.2.
Proof.
  unfold ExceptionVars_new.
  destruct (emit_define_local false comp) as [l1 c1].
  destruct (emit_define_local false c1) as [l2 c2].
  destruct (emit_define_local false c2) as [l3 c3]. simpl.
  destruct (emit_define_local false c3) as [l4 c4]. simpl.
  destruct (emit_define_local false c4) as [l5 c5]. simpl.
  destruct (emit_define_local false c5) as [l6 c6]. simpl.
  done.
Qed.

(** ** The top of the stack *)

(** X21: on an empty stack [pop], [pop_no_escape] and indexing are
    undefined, as is indexing at or above the size.  Otherwise both pops
    return the element at index [stack_size() - 1], and pushing it again
    gives the state back. *)
Theorem pop_returns_top_index (s : InterpreterState) (e : EscapeStore) :
  (stack_size s = 0 →
     pop s e = UndefinedBehaviour ∧ pop_no_escape s = UndefinedBehaviour)
  ∧ (∀ i, stack_size s ≤ i → stack_at s i = UndefinedBehaviour)
  ∧ (0 < stack_size s →
     ∃ v s', stack_at s (stack_size s - 1) = Done v
       ∧ pop_no_escape s = Done (v, s')
       ∧ pop s e = Done (Value v, s', escapes v e)
       ∧ push s' v = s).
Proof.
  destruct s as [st lo]. unfold stack_size, stack_at, pop, pop_no_escape, back,
    push, at_index. simpl. split_and!.
  - intros Hlen. by destruct st.
  - intros i Hi. by rewrite lookup_ge_None_2.
  - intros Hpos. destruct st as [|x st _] using rev_ind; [simpl in Hpos; lia|].
    rewrite last_snoc, removelast_last, length_app. simpl.
    exists x, (mkState st lo). split_and!; try done.
    rewrite lookup_app_r by lia. by replace (_ - _)%nat with 0%nat by lia.
Qed.

Lemma pop_returns_top_index_witness :
  ∃ v s', pop_no_escape (push (mkState [] 0) AbstractValueWithSources_default)
          = Done (v, s')
        ∧ push s' v = push (mkState [] 0) AbstractValueWithSources_default.
Proof.
  destruct (pop_returns_top_index
              (push (mkState [] 0) AbstractValueWithSources_default) ∅)
    as (_ & _ & Hpop).
  destruct Hpop as (v & s' & _ & Hp & _ & Hpush); [unfold stack_size; simpl; lia|].
  exists v, s'. split; [exact Hp|exact Hpush].
Defined.
